(** * GoFlow: a shallow embedding of [go_flow.go]

    The flow engine of [src/GoFlow/go_flow.go] runs a list of nodes over a
    shared context object ([*DataTest]) and a shared result cell
    ([**ResultTest]).  The embedding keeps the program's own structure:

    - the objects reached through pointers (the context, the result cell and
      the nodes with their [Next] links and [ShouldSkip] flags) live in one
      explicit store, [State]; a node is addressed by its position in
      [nodes], which is also its position in the engine's slice;
    - a closure that receives [*DataTest] may mutate the context, so it is a
      function from the context to the new context and what it returns; a
      task closure may also panic, which only [ParallelNode] recovers from;
      closures reach the flow through the context only;
    - the goroutines, the [sync.WaitGroup] and the channel of
      [ParallelNode.ImplTask] are a small-step machine driven by a schedule,
      in which a call of a closure is one step;
    - a ghost [trace] records every hook, condition and task call, so that
      "was not invoked" can be stated.

    [Prepare], which swaps the engine's context pointer, is left out: all
    nodes of a flow share one context. *)

From Stdlib Require Import ZArith List Lia Permutation Sorted.
From stdpp Require Import base list strings.
Import ListNotations.
Local Open Scope Z_scope.

(** ** Result and context records *)

(** The three error values the program builds: [NewConditionNotFoundError()],
    [NewPanicHappened(bt)] and, in the example closures, [errors.New(msg)]. *)
Inductive GoError : Type :=
| ConditionNotFoundError
| PanicHappened (Msg : string)
| ErrorsNew (msg : string).

Definition Error (e : GoError) : string :=
  match e with
  | ConditionNotFoundError => "condition is nil"%string
  | PanicHappened Msg => Msg
  | ErrorsNew msg => msg
  end.

(** [ResultTest] and [DataTest] are declared outside the two source files;
    their fields are the ones the sources read and write.  [Err = None] is
    Go's [nil] error.  The integer fields are taken as Go [int] (64 bits). *)
Record ResultTest : Type := mkResult {
  Err : option GoError;
  StatusCode : Z;
  StatusMsg : string;
  AgePlusOne : Z
}.

Inductive GoContext : Type := Background.

Record DataTest : Type := mkData {
  Ctx : option GoContext;
  Name : string;
  Age : Z
}.

Definition wrap_int (z : Z) : Z := (z + 2 ^ 63) mod 2 ^ 64 - 2 ^ 63.

(** [new(DataTest)] and the result [NewFlowEngine] starts from. *)
Definition new_DataTest : DataTest := mkData None "" 0.
Definition empty_result : ResultTest := mkResult None 0 "" 0.

(** The test every node applies to a result:
    [r.Err != nil || r.StatusCode != 0]. *)
Definition failing (r : ResultTest) : bool :=
  match Err r with
  | Some _ => true
  | None => negb (StatusCode r =? 0)
  end.

(** [result != nil && (result.Err != nil || result.StatusCode != 0)] on a
    [*ResultTest] that may be [nil]. *)
Definition is_failing (o : option ResultTest) : bool :=
  match o with
  | Some r => failing r
  | None => false
  end.

(** ** Closures *)

(** What a call of a task closure does besides mutating the context: it
    returns a [*ResultTest] (possibly [nil]) or it panics. *)
Inductive Outcome : Type :=
| Return (r : option ResultTest)
| Panics.

Definition ICallable : Type := DataTest -> DataTest * Outcome.
Definition IBoolFunc : Type := DataTest -> DataTest * bool.
Definition INodeBeginLogger : Type := string -> DataTest -> DataTest.
Definition INodeEndLogger : Type := string -> DataTest -> ResultTest -> DataTest.
Definition IOnSuccessFunc : Type := DataTest -> ResultTest -> DataTest.
Definition IOnFailFunc : Type := DataTest -> ResultTest -> DataTest.

(** The example closures of the repository (second source file). *)
Definition age_incr (d : DataTest) : DataTest :=
  mkData (Ctx d) (Name d) (wrap_int (Age d + 1)).

Definition ok_result (d : DataTest) : ResultTest :=
  mkResult None 0 "" (wrap_int (Age d + 1)).

Definition Func1 : ICallable :=
  fun d => let d' := age_incr d in (d', Return (Some (ok_result d'))).
Definition Func2 : ICallable :=
  fun d => (age_incr d, Return None).
Definition Func3 : ICallable := Func1.
Definition Func4 : ICallable := Func2.
Definition Func8 : ICallable :=
  fun d => let d' := age_incr d in
    (d', Return (Some (mkResult (Some (ErrorsNew "something wrong")) 0 ""
                                (wrap_int (Age d' + 1))))).
Definition Func9 : ICallable :=
  fun d => let d' := age_incr d in
    (d', Return (Some (mkResult None 10000 "" (wrap_int (Age d' + 1))))).

Definition CondFalse : IBoolFunc := fun d => (d, false).
Definition CondTrue : IBoolFunc := fun d => (d, true).

(** A closure that panics (it is not one of the repository's examples). *)
Definition FuncPanic : ICallable := fun d => (d, Panics).

(** ** Nodes *)

Inductive NodeType : Type :=
| NormalNodeType
| IfNodeType
| ElseNodeType
| ForNodeType
| ParallelNodeType
| ElseIfNodeType.

(** [current.GetNodeType() == ElseIfNodeType || current.GetNodeType() == ElseNodeType] *)
Definition is_else_type (t : NodeType) : bool :=
  match t with
  | ElseIfNodeType | ElseNodeType => true
  | _ => false
  end.

(** [BasicFlowNode].  [Next] is the position of the successor in the store;
    [Data] and [parentResult] point to the shared context and cell of
    [State] and are therefore not fields here. *)
Record BasicFlowNode : Type := mkBasic {
  Functors : list ICallable;
  GetNodeType : NodeType;
  Next : option nat;
  ShouldSkip : bool;
  BeginLogger : option INodeBeginLogger;
  EndLogger : option INodeEndLogger;
  Note : string
}.

(** The Go struct a node really is; it selects the [ImplTask] that runs.
    [GetNodeType] is a separate field: [NewNormalNode] builds an [ElseNode]
    struct whose node type is [NormalNodeType]. *)
Inductive NodeImpl : Type :=
| IfNode (Condition : option IBoolFunc)
| ElseNode
| ElseIfNode (Condition : option IBoolFunc)
| NormalNode
| ForNode (Times : Z)
| ParallelNode (Times : Z).

Record Node : Type := mkNode {
  base : BasicFlowNode;
  impl : NodeImpl
}.

Definition NewBasicFlowNode (nodeType : NodeType) (functors : list ICallable)
  : BasicFlowNode :=
  mkBasic functors nodeType None false None None "".

Definition NewIfNode (condition : option IBoolFunc) (functors : list ICallable) : Node :=
  mkNode (NewBasicFlowNode IfNodeType functors) (IfNode condition).
Definition NewElseNode (functors : list ICallable) : Node :=
  mkNode (NewBasicFlowNode ElseNodeType functors) ElseNode.
Definition NewElseIfNode (condition : option IBoolFunc) (functors : list ICallable) : Node :=
  mkNode (NewBasicFlowNode ElseIfNodeType functors) (ElseIfNode condition).
Definition NewNormalNode (functors : list ICallable) : Node :=
  mkNode (NewBasicFlowNode NormalNodeType functors) ElseNode.
Definition NewForNode (times : Z) (functors : list ICallable) : Node :=
  mkNode (NewBasicFlowNode ForNodeType functors) (ForNode times).
Definition NewParallelNode (functors : list ICallable) : Node :=
  mkNode (NewBasicFlowNode ParallelNodeType functors) (ParallelNode 0).

Definition SetNext (next : option nat) (n : Node) : Node :=
  let b := base n in
  mkNode (mkBasic (Functors b) (GetNodeType b) next (ShouldSkip b)
                  (BeginLogger b) (EndLogger b) (Note b)) (impl n).

Definition SetShouldSkip (shouldSkip : bool) (n : Node) : Node :=
  let b := base n in
  mkNode (mkBasic (Functors b) (GetNodeType b) (Next b) shouldSkip
                  (BeginLogger b) (EndLogger b) (Note b)) (impl n).

Definition SetNote (note : string) (n : Node) : Node :=
  let b := base n in
  mkNode (mkBasic (Functors b) (GetNodeType b) (Next b) (ShouldSkip b)
                  (BeginLogger b) (EndLogger b) note) (impl n).

Definition SetBeginLogger (logger : option INodeBeginLogger) (n : Node) : Node :=
  let b := base n in
  mkNode (mkBasic (Functors b) (GetNodeType b) (Next b) (ShouldSkip b)
                  logger (EndLogger b) (Note b)) (impl n).

Definition SetEndLogger (logger : option INodeEndLogger) (n : Node) : Node :=
  let b := base n in
  mkNode (mkBasic (Functors b) (GetNodeType b) (Next b) (ShouldSkip b)
                  (BeginLogger b) logger (Note b)) (impl n).

(** ** The store and the ghost trace *)

Inductive Event : Type :=
| EvBegin (note : string)
| EvEnd (note : string) (r : ResultTest)
| EvCond (node : nat) (b : bool)
| EvCall (node idx : nat)
| EvSuccess (r : ResultTest)
| EvFail (r : ResultTest).

Record State : Type := mkState {
  data : DataTest;
  result : ResultTest;
  nodes : list Node;
  trace : list Event
}.

Definition with_data (d : DataTest) (e : Event) (st : State) : State :=
  mkState d (result st) (nodes st) (trace st ++ [e]).

Definition SetParentResult (r : ResultTest) (st : State) : State :=
  mkState (data st) r (nodes st) (trace st).

Definition GetParentResult (st : State) : ResultTest := result st.

Definition with_nodes (ns : list Node) (st : State) : State :=
  mkState (data st) (result st) ns (trace st).

(** ** [ParallelNode.ImplTask]: goroutines, WaitGroup and channel *)

(** What [ImplTask] hands back to [Run]: a [*ResultTest] (possibly [nil]),
    or no value at all because a panic unwinds through it or because it
    never returns. *)
Inductive Ret : Type :=
| Returned (r : option ResultTest)
| Panicked
| NoReturn.

(** The body of the collecting loop
    [if result != nil && (result.StatusCode != 0 || result.Err != nil) { continue }; result = item]. *)
Definition collect (result item : option ResultTest) : option ResultTest :=
  if is_failing result then result else item.

(** [for item := range resultChan { ... }] over the items in arrival order. *)
Definition aggregate (result : option ResultTest)
    (items : list (option ResultTest)) : option ResultTest :=
  fold_left collect items result.

(** The result the deferred function sends after [recover()]. *)
Definition fault_result : ResultTest :=
  mkResult (Some (PanicHappened "")) 0 "" 0.

(** Where a task goroutine stands.  Its body is
    [defer func() { wg.Done(); if a := recover(); a != nil { ...; resultChan <- fault } }();
     result := f(p.Data); resultChan <- result]. *)
Inductive WorkerPC : Type :=
| WReady                              (* launched, [f(p.Data)] not called yet *)
| WReturned (r : option ResultTest)   (* [f] returned [r]; next: [resultChan <- result] *)
| WSent                               (* sent; next: deferred [wg.Done()], [recover()] is nil *)
| WPanicked                           (* [f] panicked; next: deferred [wg.Done()] *)
| WRecovered                          (* [recover()] is not nil; next: [resultChan <- fault] *)
| WExited.

(** The goroutine [wg.Wait(); close(resultChan)]. *)
Inductive CloserPC : Type :=
| CWait
| CClose
| CExited.

(** The calling goroutine, in or after [for item := range resultChan]. *)
Inductive MainPC : Type :=
| MRange (result : option ResultTest)
| MReturned (result : option ResultTest).

Record PState : Type := mkPState {
  shared : State;
  workers : list WorkerPC;
  wg : Z;
  chan : list (option ResultTest);
  closed : bool;
  closer : CloserPC;
  main : MainPC;
  taken : list (option ResultTest);   (* ghost: the items received so far *)
  crashed : bool
}.

Inductive Thread : Type :=
| TWorker (i : nat)
| TCloser
| TMain.

Definition Schedule : Type := list Thread.

Definition crash (ps : PState) : PState :=
  mkPState (shared ps) (workers ps) (wg ps) (chan ps) (closed ps) (closer ps)
           (main ps) (taken ps) true.

(** [resultChan <- item] by worker [i], which then stands at [pc].  The
    channel holds [cap] items; a send on a closed channel panics, and
    nothing recovers that panic. *)
Definition send (cap i : nat) (item : option ResultTest) (pc : WorkerPC)
    (ps : PState) : PState :=
  if closed ps then crash ps
  else if (cap <=? length (chan ps))%nat then ps
  else mkPState (shared ps) (<[i := pc]> (workers ps)) (wg ps) (chan ps ++ [item])
                (closed ps) (closer ps) (main ps) (taken ps) (crashed ps).

(** [wg.Done()] by worker [i], which then stands at [pc]; a negative counter
    panics. *)
Definition wg_Done (i : nat) (pc : WorkerPC) (ps : PState) : PState :=
  if wg ps - 1 <? 0 then crash ps
  else mkPState (shared ps) (<[i := pc]> (workers ps)) (wg ps - 1) (chan ps)
                (closed ps) (closer ps) (main ps) (taken ps) (crashed ps).

Definition call_functor (node i : nat) (f : ICallable) (ps : PState) : PState :=
  let '(d, o) := f (data (shared ps)) in
  let pc := match o with Return r => WReturned r | Panics => WPanicked end in
  mkPState (with_data d (EvCall node i) (shared ps)) (<[i := pc]> (workers ps))
           (wg ps) (chan ps) (closed ps) (closer ps) (main ps) (taken ps)
           (crashed ps).

Definition worker_step (node : nat) (fs : list ICallable) (i : nat)
    (ps : PState) : PState :=
  match workers ps !! i, fs !! i with
  | Some pc, Some f =>
      match pc with
      | WReady => call_functor node i f ps
      | WReturned r => send (length fs) i r WSent ps
      | WSent => wg_Done i WExited ps
      | WPanicked => wg_Done i WRecovered ps
      | WRecovered => send (length fs) i (Some fault_result) WExited ps
      | WExited => ps
      end
  | _, _ => ps
  end.

Definition closer_step (ps : PState) : PState :=
  match closer ps with
  | CWait =>
      if wg ps =? 0
      then mkPState (shared ps) (workers ps) (wg ps) (chan ps) (closed ps) CClose
                    (main ps) (taken ps) (crashed ps)
      else ps
  | CClose =>
      mkPState (shared ps) (workers ps) (wg ps) (chan ps) true CExited
               (main ps) (taken ps) (crashed ps)
  | CExited => ps
  end.

Definition main_step (ps : PState) : PState :=
  match main ps with
  | MRange result =>
      match chan ps with
      | item :: rest =>
          mkPState (shared ps) (workers ps) (wg ps) rest (closed ps) (closer ps)
                   (MRange (collect result item)) (taken ps ++ [item]) (crashed ps)
      | [] =>
          if closed ps
          then mkPState (shared ps) (workers ps) (wg ps) [] (closed ps) (closer ps)
                        (MReturned result) (taken ps) (crashed ps)
          else ps
      end
  | MReturned _ => ps
  end.

Definition has_returned (ps : PState) : bool :=
  match main ps with
  | MReturned _ => true
  | MRange _ => false
  end.

(** One scheduling decision.  A thread that cannot move (blocked, or
    finished) leaves the state as it is; nothing moves once the process has
    crashed or the caller has its result. *)
Definition par_step (node : nat) (fs : list ICallable) (ps : PState)
    (t : Thread) : PState :=
  if crashed ps || has_returned ps then ps
  else match t with
       | TWorker i => worker_step node fs i ps
       | TCloser => closer_step ps
       | TMain => main_step ps
       end.

Definition par_run (node : nat) (fs : list ICallable) (sched : Schedule)
    (ps : PState) : PState :=
  fold_left (par_step node fs) sched ps.

(** After [wg.Add(len(p.Functors))] and the [go] statements.  A goroutine
    that has not been launched yet behaves like one that has not been
    scheduled yet, so all of them exist from the start; [result] is read
    from the cell, which no goroutine writes. *)
Definition par_init (fs : list ICallable) (st : State) : PState :=
  mkPState st (map (fun _ => WReady) fs) (Z.of_nat (length fs)) [] false CWait
           (MRange (Some (GetParentResult st))) [] false.

Definition ParallelNode_ImplTask (sched : Schedule) (node : nat)
    (fs : list ICallable) (st : State) : State * Ret :=
  let ps := par_run node fs sched (par_init fs st) in
  if crashed ps then (shared ps, Panicked)
  else match main ps with
       | MReturned r => (shared ps, Returned r)
       | MRange _ => (shared ps, NoReturn)
       end.

(** A schedule under which every goroutine runs to its end in turn: the
    tasks one after the other, the closer, then the caller. *)
Definition fair_schedule (k : nat) : Schedule :=
  flat_map (fun i => [TWorker i; TWorker i; TWorker i]) (seq 0 k)
  ++ [TCloser; TCloser] ++ repeat TMain (S k).

(** ** The sequential [ImplTask] methods *)

(** How a [for _, functor := range Functors] loop with its early [return]
    ends: it falls through, it returns a failing result, or a closure
    panics. *)
Inductive LoopExit : Type :=
| LoopEnd
| LoopReturn (r : ResultTest)
| LoopPanic.

(** [for _, functor := range fs { result := functor(Data);
      if result != nil && (result.Err != nil || result.StatusCode != 0) { return result } }]
    where [k] is the position of the head of [fs] in the node's closures. *)
Fixpoint range_functors (node k : nat) (fs : list ICallable) (st : State)
    : State * LoopExit :=
  match fs with
  | [] => (st, LoopEnd)
  | functor :: fs' =>
      let '(d, o) := functor (data st) in
      let st' := with_data d (EvCall node k) st in
      match o with
      | Panics => (st', LoopPanic)
      | Return None => range_functors node (S k) fs' st'
      | Return (Some r) =>
          if failing r then (st', LoopReturn r)
          else range_functors node (S k) fs' st'
      end
  end.

(** The statement after the loop, [return GetParentResult()]. *)
Definition after_loop (x : State * LoopExit) : State * Ret :=
  match x with
  | (st, LoopEnd) => (st, Returned (Some (GetParentResult st)))
  | (st, LoopReturn r) => (st, Returned (Some r))
  | (st, LoopPanic) => (st, Panicked)
  end.

Definition ElseNode_ImplTask (node : nat) (n : Node) (st : State) : State * Ret :=
  after_loop (range_functors node 0 (Functors (base n)) st).

Definition NormalNode_ImplTask (node : nat) (n : Node) (st : State) : State * Ret :=
  after_loop (range_functors node 0 (Functors (base n)) st).

(** [for i := 0; i < Times; i++ { for _, functor := range Functors { ... } }] *)
Fixpoint for_loop (node : nat) (times : nat) (fs : list ICallable) (st : State)
    : State * LoopExit :=
  match times with
  | O => (st, LoopEnd)
  | S times' =>
      match range_functors node 0 fs st with
      | (st', LoopEnd) => for_loop node times' fs st'
      | stopped => stopped
      end
  end.

Definition ForNode_ImplTask (node : nat) (Times : Z) (n : Node) (st : State)
    : State * Ret :=
  after_loop (for_loop node (Z.to_nat Times) (Functors (base n)) st).

(** [current := Next; for current != nil && (type is ElseIf or Else)
      { current.SetShouldSkip(true); current = current.GetNext() }].
    The loop visits a node per iteration; [None] is the loop that is still
    running after [fuel] iterations.  A link always points to a live node. *)
Fixpoint mark_skip (fuel : nat) (current : option nat) (ns : list Node)
    : option (list Node) :=
  match current with
  | None => Some ns
  | Some j =>
      match ns !! j with
      | None => Some ns
      | Some m =>
          if is_else_type (GetNodeType (base m)) then
            match fuel with
            | O => None
            | S fuel' =>
                mark_skip fuel' (Next (base m)) (<[j := SetShouldSkip true m]> ns)
            end
          else Some ns
      end
  end.

(** [&ResultTest{Err: NewConditionNotFoundError(), StatusCode: 0, StatusMsg: ""}] *)
Definition condition_missing : ResultTest :=
  mkResult (Some ConditionNotFoundError) 0 "" 0.

(** [IfNode.ImplTask].  With more iterations than the store has nodes the
    marking loop has revisited a node, and then it never ends. *)
Definition IfNode_ImplTask (node : nat) (Condition : option IBoolFunc)
    (n : Node) (st : State) : State * Ret :=
  match Condition with
  | None => (st, Returned (Some condition_missing))
  | Some condition =>
      let '(d, b) := condition (data st) in
      let st1 := with_data d (EvCond node b) st in
      let '(st2, e) :=
        if b then range_functors node 0 (Functors (base n)) st1
        else (st1, LoopEnd) in
      match e with
      | LoopReturn r => (st2, Returned (Some r))
      | LoopPanic => (st2, Panicked)
      | LoopEnd =>
          match mark_skip (S (length (nodes st2))) (Next (base n)) (nodes st2) with
          | Some ns =>
              let st3 := with_nodes ns st2 in
              (st3, Returned (Some (GetParentResult st3)))
          | None => (st2, NoReturn)
          end
      end
  end.

(** [ElseIfNode.ImplTask] has the same body. *)
Definition ElseIfNode_ImplTask (node : nat) (Condition : option IBoolFunc)
    (n : Node) (st : State) : State * Ret :=
  IfNode_ImplTask node Condition n st.

(** Dynamic dispatch of [ImplTask] on the struct the node is. *)
Definition ImplTask (sched : Schedule) (node : nat) (n : Node) (st : State)
    : State * Ret :=
  match impl n with
  | IfNode Condition => IfNode_ImplTask node Condition n st
  | ElseNode => ElseNode_ImplTask node n st
  | ElseIfNode Condition => ElseIfNode_ImplTask node Condition n st
  | NormalNode => NormalNode_ImplTask node n st
  | ForNode Times => ForNode_ImplTask node Times n st
  | ParallelNode _ => ParallelNode_ImplTask sched node (Functors (base n)) st
  end.

(** ** [Run] and [Wait] *)

(** How a call ends: it returns, a panic unwinds through it, or it never
    returns. *)
Inductive Status : Type :=
| Done
| Crashed
| Hung.

(** [ShouldSkip || GetParentResult().Err != nil || GetParentResult().StatusCode != 0] *)
Definition gated (n : Node) (st : State) : bool :=
  ShouldSkip (base n) || failing (GetParentResult st).

Definition call_BeginLogger (n : Node) (st : State) : State :=
  match BeginLogger (base n) with
  | Some logger =>
      with_data (logger (Note (base n)) (data st)) (EvBegin (Note (base n))) st
  | None => st
  end.

Definition call_EndLogger (n : Node) (st : State) : State :=
  match EndLogger (base n) with
  | Some logger =>
      with_data (logger (Note (base n)) (data st) (GetParentResult st))
                (EvEnd (Note (base n)) (GetParentResult st)) st
  | None => st
  end.

(** [Run], which the six structs define with one and the same body; [node]
    is the receiver.  [sched] is how the scheduler interleaves the
    goroutines, should the node be a [ParallelNode]. *)
Definition Run (sched : Schedule) (node : nat) (st : State) : State * Status :=
  match nodes st !! node with
  | None => (st, Done)
  | Some n =>
      if gated n st then (st, Done)
      else
        let st1 := call_BeginLogger n st in
        match ImplTask sched node n st1 with
        | (st2, Panicked) => (st2, Crashed)
        | (st2, NoReturn) => (st2, Hung)
        | (st2, Returned r) =>
            let st3 := match r with
                       | Some r' => SetParentResult r' st2
                       | None => st2
                       end in
            (call_EndLogger n st3, Done)
        end
  end.

(** [for _, node := range nodes { node.Run() }] *)
Fixpoint run_nodes (scheds : nat -> Schedule) (l : list nat) (st : State)
    : State * Status :=
  match l with
  | [] => (st, Done)
  | node :: l' =>
      match Run (scheds node) node st with
      | (st', Done) => run_nodes scheds l' st'
      | stopped => stopped
      end
  end.

Definition run_callbacks (onSuccessFunc : option IOnSuccessFunc)
    (onFailFunc : option IOnFailFunc) (st : State) : State :=
  let st1 :=
    match onSuccessFunc with
    | Some f =>
        if failing (result st) then st
        else with_data (f (data st) (result st)) (EvSuccess (result st)) st
    | None => st
    end in
  match onFailFunc with
  | Some f =>
      if failing (result st1)
      then with_data (f (data st1) (result st1)) (EvFail (result st1)) st1
      else st1
  | None => st1
  end.

(** ** The builders *)

Record FlowEngine : Type := mkFlow {
  store : State;
  onFailFunc : option IOnFailFunc;
  onSuccessFunc : option IOnSuccessFunc
}.

(** The sub-builder shares the invoker's context, nodes and cell, and has
    callbacks of its own. *)
Record ElseFlowEngine : Type := mkElseFlow {
  invoker : FlowEngine;
  else_onFailFunc : option IOnFailFunc;
  else_onSuccessFunc : option IOnSuccessFunc
}.

Definition NewFlowEngine : FlowEngine :=
  mkFlow (mkState new_DataTest empty_result [] []) None None.

(** [if len(nodes) != 0 { nodes[len(nodes)-1].SetNext(node) }; nodes = append(nodes, node)];
    the new node gets position [len(nodes)]. *)
Definition append_node (n : Node) (ns : list Node) : list Node :=
  match length ns with
  | O => [n]
  | S last => alter (SetNext (Some (length ns))) last ns ++ [n]
  end.

(** [nodes[len(nodes)-1].SetNext(node); nodes = append(nodes, node)] with no
    test of the length: on an empty slice the index is out of range, which
    panics ([None]). *)
Definition link_and_append (n : Node) (ns : list Node) : option (list Node) :=
  match length ns with
  | O => None
  | S last => Some (alter (SetNext (Some (length ns))) last ns ++ [n])
  end.

Definition with_store (st : State) (c : FlowEngine) : FlowEngine :=
  mkFlow st (onFailFunc c) (onSuccessFunc c).

Definition add_node (n : Node) (c : FlowEngine) : FlowEngine :=
  with_store (with_nodes (append_node n (nodes (store c))) (store c)) c.

Definition alter_last (f : Node -> Node) (c : FlowEngine) : FlowEngine :=
  let ns := nodes (store c) in
  match length ns with
  | O => c
  | S last => with_store (with_nodes (alter f last ns) (store c)) c
  end.

Definition finish_Wait (scheds : nat -> Schedule) (c : FlowEngine)
    (onSuccess : option IOnSuccessFunc) (onFail : option IOnFailFunc)
    : FlowEngine * Status :=
  match run_nodes scheds (seq 0 (length (nodes (store c)))) (store c) with
  | (st, Done) => (with_store (run_callbacks onSuccess onFail st) c, Done)
  | (st, stopped) => (with_store st c, stopped)
  end.

Module Flow.

Definition Do (functors : list ICallable) (c : FlowEngine) : FlowEngine :=
  add_node (NewNormalNode functors) c.

Definition For (times : Z) (functors : list ICallable) (c : FlowEngine)
  : FlowEngine :=
  add_node (NewForNode times functors) c.

Definition Parallel (functors : list ICallable) (c : FlowEngine) : FlowEngine :=
  add_node (NewParallelNode functors) c.

Definition If (condition : option IBoolFunc) (functors : list ICallable)
    (c : FlowEngine) : ElseFlowEngine :=
  mkElseFlow (add_node (NewIfNode condition functors) c) None None.

Definition SetGlobalBeginLogger (logger : option INodeBeginLogger)
    (c : FlowEngine) : FlowEngine :=
  with_store
    (with_nodes
       (map (fun n => match BeginLogger (base n) with
                      | None => SetBeginLogger logger n
                      | Some _ => n
                      end) (nodes (store c)))
       (store c)) c.

Definition SetGlobalEndLogger (logger : option INodeEndLogger)
    (c : FlowEngine) : FlowEngine :=
  with_store
    (with_nodes
       (map (fun n => match EndLogger (base n) with
                      | None => SetEndLogger logger n
                      | Some _ => n
                      end) (nodes (store c)))
       (store c)) c.

Definition SetNote (note : string) (c : FlowEngine) : FlowEngine :=
  alter_last (SetNote note) c.

Definition SetBeginLogger (logger : option INodeBeginLogger) (c : FlowEngine)
  : FlowEngine :=
  alter_last (SetBeginLogger logger) c.

Definition SetEndLogger (logger : option INodeEndLogger) (c : FlowEngine)
  : FlowEngine :=
  alter_last (SetEndLogger logger) c.

Definition OnFail (functor : option IOnFailFunc) (c : FlowEngine) : FlowEngine :=
  mkFlow (store c) functor (onSuccessFunc c).

Definition OnSuccess (functor : option IOnFailFunc) (c : FlowEngine) : FlowEngine :=
  mkFlow (store c) (onFailFunc c) functor.

(** [Wait] returns [*c.result], the [result] of the engine's store. *)
Definition Wait (scheds : nat -> Schedule) (c : FlowEngine)
  : FlowEngine * Status :=
  finish_Wait scheds c (onSuccessFunc c) (onFailFunc c).

End Flow.

Module ElseFlow.

Definition with_invoker (c : FlowEngine) (e : ElseFlowEngine) : ElseFlowEngine :=
  mkElseFlow c (else_onFailFunc e) (else_onSuccessFunc e).

Definition Do (functors : list ICallable) (e : ElseFlowEngine) : FlowEngine :=
  add_node (NewNormalNode functors) (invoker e).

Definition For (times : Z) (functors : list ICallable) (e : ElseFlowEngine)
  : FlowEngine :=
  add_node (NewForNode times functors) (invoker e).

Definition Parallel (functors : list ICallable) (e : ElseFlowEngine)
  : FlowEngine :=
  add_node (NewParallelNode functors) (invoker e).

Definition If (condition : option IBoolFunc) (functors : list ICallable)
    (e : ElseFlowEngine) : ElseFlowEngine :=
  with_invoker (add_node (NewIfNode condition functors) (invoker e)) e.

(** [ElseIf] and [Else] index [nodes[len(nodes)-1]] without a test: on an
    empty slice the index expression panics, before anything is written, and
    the call ends [Crashed] with the engines as they were.  The slice of a
    sub-builder that [Flow.If] has returned is not empty. *)
Definition ElseIf (condition : option IBoolFunc) (functors : list ICallable)
    (e : ElseFlowEngine) : ElseFlowEngine * Status :=
  match link_and_append (NewElseIfNode condition functors)
          (nodes (store (invoker e))) with
  | Some ns =>
      (with_invoker (with_store (with_nodes ns (store (invoker e))) (invoker e)) e,
       Done)
  | None => (e, Crashed)
  end.

Definition Else (functors : list ICallable) (e : ElseFlowEngine)
  : FlowEngine * Status :=
  match link_and_append (NewElseNode functors) (nodes (store (invoker e))) with
  | Some ns => (with_store (with_nodes ns (store (invoker e))) (invoker e), Done)
  | None => (invoker e, Crashed)
  end.

Definition OnFail (functor : option IOnFailFunc) (e : ElseFlowEngine)
  : ElseFlowEngine :=
  mkElseFlow (invoker e) functor (else_onSuccessFunc e).

Definition OnSuccess (functor : option IOnFailFunc) (e : ElseFlowEngine)
  : ElseFlowEngine :=
  mkElseFlow (invoker e) (else_onFailFunc e) functor.

Definition Wait (scheds : nat -> Schedule) (e : ElseFlowEngine)
  : FlowEngine * Status :=
  finish_Wait scheds (invoker e) (else_onSuccessFunc e) (else_onFailFunc e).

End ElseFlow.

(** ** Predicates used to state the properties *)

(** What [return GetParentResult()] or [return result] hands to [Run]: the
    cell's own value or a failing result. *)
Definition harmless (st : State) (ret : Ret) : Prop :=
  match ret with
  | Returned (Some r) => r = result st \/ failing r = true
  | Returned None => False
  | Panicked | NoReturn => True
  end.

(** An item the collecting loop goes past. *)
Definition not_failing (item : option ResultTest) : Prop :=
  is_failing item = false.

(** The closures of [fs], called in order from context [d], all return
    [nil] or a result that is not failing, and leave the context [d']. *)
Inductive pass_through : list ICallable -> DataTest -> DataTest -> Prop :=
| pass_nil d : pass_through [] d d
| pass_cons f fs d d1 d2 r :
    f d = (d1, Return r) -> is_failing r = false ->
    pass_through fs d1 d2 -> pass_through (f :: fs) d d2.

(** [j] whole passes over the closures of [fs], none of them failing. *)
Inductive rounds (fs : list ICallable) : nat -> DataTest -> DataTest -> Prop :=
| rounds_O d : rounds fs O d d
| rounds_S j d d1 d2 :
    pass_through fs d d1 -> rounds fs j d1 d2 -> rounds fs (S j) d d2.

(** The trace of calling the closures [k], ..., [k + len - 1] of a node. *)
Definition calls (node k len : nat) : list Event :=
  map (EvCall node) (seq k len).

(** The store after some closures of a node have run: only the context and
    the trace differ. *)
Definition ran (d : DataTest) (events : list Event) (st : State) : State :=
  mkState d (result st) (nodes st) (trace st ++ events).

(** [k] is one of the contiguous [ElseIf]/[Else] nodes reached from the
    link [current]. *)
Inductive in_chain (ns : list Node) : option nat -> nat -> Prop :=
| in_chain_here j m :
    ns !! j = Some m -> is_else_type (GetNodeType (base m)) = true ->
    in_chain ns (Some j) j
| in_chain_next j m k :
    ns !! j = Some m -> is_else_type (GetNodeType (base m)) = true ->
    in_chain ns (Next (base m)) k -> in_chain ns (Some j) k.

(** Every link points to a later node of the store, as the links set by the
    builders do. *)
Definition links_forward (ns : list Node) : Prop :=
  forall j m k, ns !! j = Some m -> Next (base m) = Some k -> (j < k)%nat.

(** The node at position [k] has its skip flag set. *)
Definition skipped (ns : list Node) (k : nat) : Prop :=
  exists m, ns !! k = Some m /\ ShouldSkip (base m) = true.

(** The events the [Run] of the node at position [node] may add to the
    trace: calls of its own closures and condition, and hook calls. *)
Definition own_event (node : nat) (e : Event) : Prop :=
  match e with
  | EvCall j _ | EvCond j _ => j = node
  | EvBegin _ | EvEnd _ _ => True
  | EvSuccess _ | EvFail _ => False
  end.

(** From [st] to [st'] the trace has grown by events of node [node]. *)
Definition extends (node : nat) (st st' : State) : Prop :=
  exists events, trace st' = trace st ++ events /\ Forall (own_event node) events.

(** No closure of the node at position [j] has been called. *)
Definition never_called (j : nat) (st : State) : Prop :=
  forall k, ~ In (EvCall j k) (trace st).



(** ** Invariants of the goroutines of a [ParallelNode] *)

(** The task has not called [wg.Done()] yet. *)
Definition active (pc : WorkerPC) : bool :=
  match pc with
  | WReady | WReturned _ | WSent | WPanicked => true
  | WRecovered | WExited => false
  end.


(** The number of tasks whose state satisfies [p]. *)
Fixpoint count (p : WorkerPC -> bool) (ws : list WorkerPC) : nat :=
  match ws with
  | [] => 0
  | pc :: ws' => (if p pc then 1 else 0) + count p ws'
  end.



(** Where the fair schedule stands when the tasks [0], ..., [j - 1] have run
    to their end and the others have not started. *)
Record fair_phase (fs : list ICallable) (init : option ResultTest) (j : nat)
    (ps : PState) : Prop := {
  phase_crashed : crashed ps = false;
  phase_closed : closed ps = false;
  phase_closer : closer ps = CWait;
  phase_main : main ps = MRange init;
  phase_length : length (workers ps) = length fs;
  phase_ready : forall i, (j <= i < length fs)%nat -> workers ps !! i = Some WReady;
  phase_wg : wg ps = Z.of_nat (length fs) - Z.of_nat j;
  phase_chan : length (chan ps) = j;
  phase_taken : taken ps = []
}.

(** ** Closures, flows and schedules used as instances *)

(** A closure that fails when it is called for the second time: the context
    counts the calls in [Age]. *)
Definition fails_on_second_call : ICallable :=
  fun d => if Age d =? 1 then Func8 d else Func2 d.

(** [Do(f1).If(CondFalse, f2).ElseIf(CondTrue, f3).Else(f4)] on a new flow. *)
Definition chain_scenario (f1 f2 f3 f4 : ICallable) : FlowEngine :=
  fst (ElseFlow.Else [f4]
    (fst (ElseFlow.ElseIf (Some CondTrue) [f3]
       (Flow.If (Some CondFalse) [f2]
          (Flow.Do [f1] NewFlowEngine))))).

(** [If(CondTrue, f1, f2).ElseIf(CondFalse, f3).Else(f4)] on a new flow. *)
Definition taken_chain (f1 f2 f3 f4 : ICallable) : FlowEngine :=
  fst (ElseFlow.Else [f4]
    (fst (ElseFlow.ElseIf (Some CondFalse) [f3]
       (Flow.If (Some CondTrue) [f1; f2] NewFlowEngine)))).

(** The store after [Do(Func8)] has run: its cell is failing, and the
    [Parallel] node that follows is gated. *)
Definition failed_store : State :=
  fst (Run [] 0 (store (Flow.Parallel [Func1; Func2] (Flow.Do [Func8] NewFlowEngine)))).

(** An interleaving of [Parallel(Func1, Func2)] in which [Func2] is called
    first and [Func1]'s result arrives last. *)
Definition interleaved_schedule : Schedule :=
  [TWorker 1; TWorker 0; TWorker 1; TMain; TCloser; TWorker 1; TWorker 0;
   TMain; TWorker 0; TCloser; TCloser; TMain; TMain].


(** ** Further predicates: the shape of a store *)

(** The links are exactly the order of the slice: every node points to the
    node after it, the last one to nothing. *)
Definition well_linked (ns : list Node) : Prop :=
  forall j m, ns !! j = Some m ->
    Next (base m) = if decide (S j < length ns)%nat then Some (S j) else None.

(** [m'] differs from [m] in its link at most. *)
Definition relinked (m m' : Node) : Prop :=
  m' = SetNext (Next (base m')) m.


(** [m'] is [m], or it is [m] with its skip flag set and [m] is an
    [ElseIf] or [Else] node. *)
Definition flagged_from (m m' : Node) : Prop :=
  m' = m \/
  (is_else_type (GetNodeType (base m)) = true /\ m' = SetShouldSkip true m).

(** The positions [i + 1], ..., [k] all hold [ElseIf] or [Else] nodes. *)
Definition else_run (ns : list Node) (i k : nat) : Prop :=
  (i < k)%nat /\
  forall j, (i < j <= k)%nat ->
    exists m, ns !! j = Some m /\ is_else_type (GetNodeType (base m)) = true.


(** [If(CondFalse, f1).ElseIf(CondTrue, f2).Else(f3).Do(f4).If(CondTrue, f5).Else(f6)]:
    two conditional chains with a Normal node between them. *)
Definition two_chains (f1 f2 f3 f4 f5 f6 : ICallable) : FlowEngine :=
  fst (ElseFlow.Else [f6]
    (Flow.If (Some CondTrue) [f5]
       (Flow.Do [f4]
          (fst (ElseFlow.Else [f3]
             (fst (ElseFlow.ElseIf (Some CondTrue) [f2]
                (Flow.If (Some CondFalse) [f1] NewFlowEngine)))))))).


(** ** Further predicates: events *)

(** A call of a closure or of the condition of the node at position [node]. *)
Definition task_event (node : nat) (e : Event) : Prop :=
  match e with
  | EvCall j _ | EvCond j _ => j = node
  | _ => False
  end.

(** From [st] to [st'] the trace has grown by calls of closures and of the
    condition of node [node], and by nothing else. *)
Definition tasks_ran (node : nat) (st st' : State) : Prop :=
  exists events, trace st' = trace st ++ events /\ Forall (task_event node) events.

(** A call of a flow-level callback. *)
Definition callback_event (e : Event) : Prop :=
  match e with
  | EvSuccess _ | EvFail _ => True
  | _ => False
  end.

(** The event of the begin hook of [n], if it has one. *)
Definition begin_event (n : Node) : list Event :=
  match BeginLogger (base n) with
  | Some _ => [EvBegin (Note (base n))]
  | None => []
  end.

(** The event of the end hook of [n] called with [r], if it has one. *)
Definition end_event (n : Node) (r : ResultTest) : list Event :=
  match EndLogger (base n) with
  | Some _ => [EvEnd (Note (base n)) r]
  | None => []
  end.


(** Hooks and callbacks used as instances: they leave a mark in the context. *)
Definition name_begin : INodeBeginLogger :=
  fun note d => mkData (Ctx d) (note ++ " began") (Age d).
Definition name_end : INodeEndLogger :=
  fun note d r => mkData (Ctx d) (note ++ " ended") (Age d).
Definition name_success : IOnSuccessFunc :=
  fun d r => mkData (Ctx d) "succeeded" (Age d).
Definition name_fail : IOnFailFunc :=
  fun d r => mkData (Ctx d) "failed" (Age d).

(** [Do(Func1, Func8).SetNote("step").SetBeginLogger(..).SetEndLogger(..)] *)
Definition hooked_flow : FlowEngine :=
  Flow.SetEndLogger (Some name_end)
    (Flow.SetBeginLogger (Some name_begin)
       (Flow.SetNote "step" (Flow.Do [Func1; Func8] NewFlowEngine))).


(** The event of the callback [Wait] invokes for the final cell [r], if the
    matching callback is set. *)
Definition callback_for (onSuccess : option IOnSuccessFunc)
    (onFail : option IOnFailFunc) (r : ResultTest) : list Event :=
  if failing r
  then match onFail with Some _ => [EvFail r] | None => [] end
  else match onSuccess with Some _ => [EvSuccess r] | None => [] end.

(** From [st] to [st'] the trace has grown by events that are no callback
    calls. *)
Definition no_callback_ran (st st' : State) : Prop :=
  exists events,
    trace st' = trace st ++ events /\
    Forall (fun e => ~ callback_event e) events.


(** ** Further invariants of the goroutines, for any closures *)

(** The closure of task [i] has been called. *)
Definition called (node : nat) (ws : list WorkerPC) (e : Event) : Prop :=
  exists i pc, e = EvCall node i /\ ws !! i = Some pc /\ pc <> WReady.

(** What holds of the goroutines of node [node], started in store [st0],
    whatever the closures [fs] do, at every point of every schedule. *)
Record par_calls (node : nat) (fs : list ICallable) (st0 : State)
    (ps : PState) : Prop := {
  calls_length : length (workers ps) = length fs;
  calls_trace : exists events,
    trace (shared ps) = trace st0 ++ events /\ NoDup events /\
    forall e, In e events <-> called node (workers ps) e;
  calls_wg : wg ps = Z.of_nat (count active (workers ps));
  calls_closer : closer ps <> CWait -> count active (workers ps) = 0%nat;
  calls_closed : closed ps = true -> closer ps = CExited;
  calls_returned : has_returned ps = true -> closed ps = true
}.


(** What a task sends for the outcome of its closure: the returned pointer,
    or the fault result after a panic. *)
Definition item_of (o : Outcome) : option ResultTest :=
  match o with
  | Return r => r
  | Panics => Some fault_result
  end.

(** The closures called one after the other from context [d]: the context
    they leave and the items their tasks send. *)
Fixpoint items_in_order (fs : list ICallable) (d : DataTest)
    : DataTest * list (option ResultTest) :=
  match fs with
  | [] => (d, [])
  | f :: fs' =>
      let '(d1, o) := f d in
      let '(d2, items) := items_in_order fs' d1 in
      (d2, item_of o :: items)
  end.


(** ** Further predicates: flows that run to their end *)

(** The closure returns on every context. *)
Definition never_panics (f : ICallable) : Prop :=
  forall d, snd (f d) <> Panics.

Definition is_parallel (n : Node) : bool :=
  match impl n with
  | ParallelNode _ => true
  | _ => false
  end.

(** The node at position [node] runs without a panic that reaches [Wait]:
    the goroutines of a [ParallelNode] run under the fair schedule, and the
    closures of any other node return. *)
Definition runs_quietly (sched : Schedule) (n : Node) : Prop :=
  if is_parallel n then sched = fair_schedule (length (Functors (base n)))
  else Forall never_panics (Functors (base n)).

Definition all_run_quietly (scheds : nat -> Schedule) (ns : list Node) : Prop :=
  forall node n, ns !! node = Some n -> runs_quietly (scheds node) n.

(** [Do(Func1).Parallel(Func1, FuncPanic).If(CondTrue, Func2).ElseIf(CondTrue, Func3)] *)
Definition quiet_flow : ElseFlowEngine :=
  fst (ElseFlow.ElseIf (Some CondTrue) [Func3]
    (Flow.If (Some CondTrue) [Func2]
       (Flow.Parallel [Func1; FuncPanic] (Flow.Do [Func1] NewFlowEngine)))).


(** ** Further predicates: the order of the nodes in the trace *)

(** The node whose closure or condition the event is a call of. *)
Definition node_of (e : Event) : option nat :=
  match e with
  | EvCall j _ | EvCond j _ => Some j
  | EvBegin _ | EvEnd _ _ | EvSuccess _ | EvFail _ => None
  end.

(** The calls of closures and conditions are in the order of the nodes: no
    call of a node comes after a call of a later node. *)
Definition in_node_order (events : list Event) : Prop :=
  StronglySorted le (omap node_of events).


(** ** Further predicates: where the collected items come from *)

(** On some context the closure at position [i] returns [r]. *)
Definition returned_by (fs : list ICallable) (i : nat) (r : option ResultTest)
  : Prop :=
  exists (f : ICallable) d, fs !! i = Some f /\ snd (f d) = Return r.

(** On some context the closure at position [i] panics. *)
Definition panics_at (fs : list ICallable) (i : nat) : Prop :=
  exists (f : ICallable) d, fs !! i = Some f /\ snd (f d) = Panics.

(** The item is what the task of the closure at position [i] sends for a
    call of it: what the closure returned, or the fault result after a
    panic. *)
Definition produced_by (fs : list ICallable) (i : nat) (item : option ResultTest)
  : Prop :=
  exists (f : ICallable) d, fs !! i = Some f /\ item = item_of (snd (f d)).

(** The closure returns a failing result on every context. *)
Definition always_fails (f : ICallable) : Prop :=
  forall d, exists d' x, f d = (d', Return (Some x)) /\ failing x = true.

(** The closure returns on every context, [nil] or a result that is not
    failing. *)
Definition never_fails (f : ICallable) : Prop :=
  forall d, exists d' r, f d = (d', Return r) /\ not_failing r.

(** What the state of task [i] says about its closure and about the items
    [items] that have been sent so far. *)
Definition pc_origin (fs : list ICallable) (items : list (option ResultTest))
    (i : nat) (pc : WorkerPC) : Prop :=
  match pc with
  | WReady => True
  | WReturned r => returned_by fs i r
  | WSent => exists r, returned_by fs i r /\ In r items
  | WPanicked | WRecovered => panics_at fs i
  | WExited => (exists r, returned_by fs i r /\ In r items) \/ panics_at fs i
  end.

(** What holds of the goroutines of a [ParallelNode] with closures [fs],
    whatever the closures do, at every point of every schedule: the counter
    counts the tasks that have not called [wg.Done()], the channel is closed
    only when it is zero, and every item sent is an item of a task. *)
Record par_origin (fs : list ICallable) (ps : PState) : Prop := {
  org_length : length (workers ps) = length fs;
  org_wg : wg ps = Z.of_nat (count active (workers ps));
  org_closer : closer ps <> CWait -> wg ps = 0;
  org_closed : closed ps = true -> closer ps = CExited;
  org_returned : has_returned ps = true -> closed ps = true /\ chan ps = [];
  org_items : forall item, In item (chan ps ++ taken ps) ->
    exists i, produced_by fs i item;
  org_pc : forall i pc, workers ps !! i = Some pc ->
    pc_origin fs (chan ps ++ taken ps) i pc
}.

(** * Properties *)

(** ** The closure loops only touch the context and the trace *)

Lemma range_functors_frame node fs : forall k st st' e,
  range_functors node k fs st = (st', e) ->
  result st' = result st /\ nodes st' = nodes st /\
  match e with LoopReturn r => failing r = true | _ => True end.
Proof.
  induction fs as [|f fs IH]; intros k st st' e H; simpl in H.
  - by inversion H.
  - destruct (f (data st)) as [d [[r|]|]] eqn:Hf.
    + destruct (failing r) eqn:Hr.
      * by inversion H; subst.
      * by apply IH in H.
    + by apply IH in H.
    + by inversion H.
Qed.

Lemma for_loop_frame node fs : forall times st st' e,
  for_loop node times fs st = (st', e) ->
  result st' = result st /\ nodes st' = nodes st /\
  match e with LoopReturn r => failing r = true | _ => True end.
Proof.
  induction times as [|times IH]; intros st st' e H; simpl in H.
  - by inversion H.
  - destruct (range_functors node 0 fs st) as [st1 e1] eqn:Hr.
    apply range_functors_frame in Hr as (Hres & Hns & He).
    destruct e1.
    + apply IH in H as (? & ? & ?). split_and!; [congruence | congruence | done].
    + by inversion H; subst.
    + by inversion H; subst.
Qed.

Lemma after_loop_harmless st x st' ret :
  result (fst x) = result st ->
  match snd x with LoopReturn r => failing r = true | _ => True end ->
  after_loop x = (st', ret) ->
  result st' = result st /\ harmless st ret.
Proof.
  destruct x as [st1 [|r|]]; simpl; intros Hres He H; inversion H; subst; simpl.
  - split; [done | by left; rewrite <- Hres].
  - split; [done | by right].
  - done.
Qed.

Lemma mark_skip_length : forall fuel current ns ns',
  mark_skip fuel current ns = Some ns' -> length ns' = length ns.
Proof.
  induction fuel as [|fuel IH]; intros [j|] ns ns' H; simpl in H;
    try (by inversion H).
  - destruct (ns !! j) as [m|]; [|by inversion H].
    destruct (is_else_type _); [done | by inversion H].
  - destruct (ns !! j) as [m|]; [|by inversion H].
    destruct (is_else_type _); [|by inversion H].
    apply IH in H. by rewrite length_insert in H.
Qed.

Lemma IfNode_ImplTask_harmless node Condition n st st' ret :
  IfNode_ImplTask node Condition n st = (st', ret) ->
  result st' = result st /\ harmless st ret.
Proof.
  unfold IfNode_ImplTask. destruct Condition as [c|].
  - destruct (c (data st)) as [d b].
    set (st1 := with_data d (EvCond node b) st).
    destruct (if b then _ else _) as [st2 e] eqn:Hb.
    assert (result st2 = result st /\
            match e with LoopReturn r => failing r = true | _ => True end)
      as [Hres He].
    { destruct b.
      - apply range_functors_frame in Hb as (? & ? & ?). done.
      - by inversion Hb; subst. }
    destruct e.
    + destruct (mark_skip _ _ _) as [ns|]; intros H; inversion H; subst; simpl.
      * split; [done | by left].
      * done.
    + intros H; inversion H; subst; simpl. split; [done | by right].
    + intros H; inversion H; subst; simpl. done.
  - intros H; inversion H; subst; simpl. split; [done | by right].
Qed.

(** Every [ImplTask] but [ParallelNode]'s returns the cell's own value or a
    failing result, and leaves the cell alone. *)
Lemma sequential_ImplTask_harmless sched node n st st' ret :
  (forall t, impl n <> ParallelNode t) ->
  ImplTask sched node n st = (st', ret) ->
  result st' = result st /\ harmless st ret.
Proof.
  intros Hseq. unfold ImplTask.
  destruct (impl n) as [c| |c| |t|t] eqn:Himpl.
  - apply IfNode_ImplTask_harmless.
  - unfold ElseNode_ImplTask.
    destruct (range_functors node 0 (Functors (base n)) st) as [s e] eqn:Hr.
    apply range_functors_frame in Hr as (? & ? & ?).
    by apply after_loop_harmless.
  - apply IfNode_ImplTask_harmless.
  - unfold NormalNode_ImplTask.
    destruct (range_functors node 0 (Functors (base n)) st) as [s e] eqn:Hr.
    apply range_functors_frame in Hr as (? & ? & ?).
    by apply after_loop_harmless.
  - unfold ForNode_ImplTask.
    destruct (for_loop node (Z.to_nat t) (Functors (base n)) st) as [s e] eqn:Hr.
    apply for_loop_frame in Hr as (? & ? & ?).
    by apply after_loop_harmless.
  - by destruct (Hseq t).
Qed.

Lemma call_BeginLogger_result n st : result (call_BeginLogger n st) = result st.
Proof. unfold call_BeginLogger. by destruct (BeginLogger (base n)). Qed.

Lemma call_EndLogger_result n st : result (call_EndLogger n st) = result st.
Proof. unfold call_EndLogger. by destruct (EndLogger (base n)). Qed.

Lemma call_BeginLogger_nodes n st : nodes (call_BeginLogger n st) = nodes st.
Proof. unfold call_BeginLogger. by destruct (BeginLogger (base n)). Qed.

Lemma call_EndLogger_nodes n st : nodes (call_EndLogger n st) = nodes st.
Proof. unfold call_EndLogger. by destruct (EndLogger (base n)). Qed.

(** ** The short-circuit gate *)

Lemma Run_gated sched node n st :
  nodes st !! node = Some n -> gated n st = true -> Run sched node st = (st, Done).
Proof. intros Hn Hg. unfold Run. by rewrite Hn, Hg. Qed.

Lemma Run_failing sched node st :
  failing (result st) = true -> Run sched node st = (st, Done).
Proof.
  intros Hf. unfold Run. destruct (nodes st !! node) as [n|]; [|done].
  unfold gated, GetParentResult. rewrite Hf. by rewrite orb_true_r.
Qed.

Lemma run_nodes_failing scheds st :
  failing (result st) = true -> forall l, run_nodes scheds l st = (st, Done).
Proof.
  intros Hf. induction l as [|node l IH]; simpl; [done|].
  by rewrite Run_failing.
Qed.

(** C5. Whatever the node is, when its skip flag is set or the cell holds a
    failing result (error set or status code not zero), [Run] returns at once
    and the whole store is what it was: context, cell, flags and trace, so no
    begin hook, end hook or task closure was invoked.  Hence, once the cell is
    failing, running any further nodes changes nothing: the cell stays
    failing and none of their hooks is invoked. *)
Theorem Run_short_circuit sched node n st :
  nodes st !! node = Some n ->
  ShouldSkip (base n) = true \/ failing (result st) = true ->
  Run sched node st = (st, Done) /\
  (failing (result st) = true ->
   forall scheds l, run_nodes scheds l st = (st, Done)).
Proof.
  intros Hn Hg. split.
  - apply (Run_gated _ _ n); [done|].
    unfold gated, GetParentResult. destruct Hg as [-> | ->]; [done|].
    apply orb_true_r.
  - intros Hf scheds l. by apply run_nodes_failing.
Qed.

Lemma Run_short_circuit_witness :
  Run (fair_schedule 2) 1 failed_store = (failed_store, Done) /\
  (failing (result failed_store) = true ->
   forall scheds l, run_nodes scheds l failed_store = (failed_store, Done)).
Proof.
  apply (Run_short_circuit (fair_schedule 2) 1 (NewParallelNode [Func1; Func2])).
  - reflexivity.
  - right. reflexivity.
Defined.

(** C9. An [If] or [ElseIf] node without a condition closure, when its [Run]
    is not gated out, returns normally and leaves in the cell the failing
    result that carries [ConditionNotFoundError]; from then on every further
    node is a no-op. *)
Theorem condition_missing_fails sched node n st :
  nodes st !! node = Some n ->
  impl n = IfNode None \/ impl n = ElseIfNode None ->
  gated n st = false ->
  let st' := call_EndLogger n
               (SetParentResult condition_missing (call_BeginLogger n st)) in
  Run sched node st = (st', Done) /\
  result st' = condition_missing /\
  Err (result st') = Some ConditionNotFoundError /\
  failing (result st') = true /\
  (forall scheds l, run_nodes scheds l st' = (st', Done)).
Proof.
  intros Hn Himpl Hg st'.
  assert (result st' = condition_missing) as Hres.
  { unfold st'. by rewrite call_EndLogger_result. }
  split_and!.
  - unfold Run. rewrite Hn, Hg. unfold ImplTask.
    by destruct Himpl as [-> | ->].
  - done.
  - by rewrite Hres.
  - by rewrite Hres.
  - intros scheds l. apply run_nodes_failing. by rewrite Hres.
Qed.

Lemma condition_missing_fails_witness :
  let st := store (invoker (Flow.If None [Func1] NewFlowEngine)) in
  let n := NewIfNode None [Func1] in
  let st' := call_EndLogger n
               (SetParentResult condition_missing (call_BeginLogger n st)) in
  Run [] 0 st = (st', Done) /\
  result st' = condition_missing /\
  Err (result st') = Some ConditionNotFoundError /\
  failing (result st') = true /\
  (forall scheds l, run_nodes scheds l st' = (st', Done)).
Proof.
  intros st n.
  apply (condition_missing_fails [] 0 n st).
  - reflexivity.
  - left. reflexivity.
  - reflexivity.
Defined.

(** ** What [Run] may write into the cell *)

Lemma Run_harmless sched node n st :
  nodes st !! node = Some n ->
  (forall st1 st' ret, ImplTask sched node n st1 = (st', ret) ->
                       result st' = result st1 /\ harmless st1 ret) ->
  result (fst (Run sched node st)) = result st \/
  failing (result (fst (Run sched node st))) = true.
Proof.
  intros Hn Himpl. unfold Run. rewrite Hn.
  destruct (gated n st); [by left|].
  destruct (ImplTask sched node n (call_BeginLogger n st)) as [st2 ret] eqn:Hi.
  apply Himpl in Hi as [Hres Hh]. rewrite call_BeginLogger_result in Hres.
  destruct ret as [[r|]| |]; simpl in *.
  - rewrite call_EndLogger_result. simpl.
    destruct Hh as [-> | Hf]; [left | by right].
    apply call_BeginLogger_result.
  - done.
  - by left.
  - by left.
Qed.

(** C10. A node that is not a [ParallelNode] (so a Normal, If, ElseIf, Else
    or For node) hands to [Run] either the cell's own current value or a
    failing result, never another result that is not failing: what a closure
    returns without failing is dropped.  So its [Run] leaves the cell as it
    was or puts a failing result into it.  A [ParallelNode] can do otherwise:
    [Parallel(Func1)] replaces the empty result by [Func1]'s result, which is
    not failing. *)
Theorem sequential_Run_keeps_or_fails sched node n st :
  nodes st !! node = Some n ->
  (forall t, impl n <> ParallelNode t) ->
  (forall st1 st' ret,
     ImplTask sched node n st1 = (st', ret) ->
     result st' = result st1 /\
     match ret with
     | Returned (Some r) => r = result st1 \/ failing r = true
     | Returned None => False
     | Panicked | NoReturn => True
     end) /\
  (result (fst (Run sched node st)) = result st \/
   failing (result (fst (Run sched node st))) = true) /\
  (let c := Flow.Parallel [Func1] NewFlowEngine in
   let st' := fst (Run (fair_schedule 1) 0 (store c)) in
   snd (Run (fair_schedule 1) 0 (store c)) = Done /\
   result (store c) = empty_result /\
   result st' = mkResult None 0 "" 2 /\
   failing (result st') = false).
Proof.
  intros Hn Hseq.
  assert (forall st1 st' ret, ImplTask sched node n st1 = (st', ret) ->
                              result st' = result st1 /\ harmless st1 ret) as H.
  { intros st1 st' ret. by apply sequential_ImplTask_harmless. }
  split_and!.
  - exact H.
  - by apply (Run_harmless sched node n).
  - by vm_compute.
Qed.

Lemma sequential_Run_keeps_or_fails_witness :
  let c := Flow.Do [Func1; Func9; Func2] NewFlowEngine in
  let n := NewNormalNode [Func1; Func9; Func2] in
  (forall st1 st' ret,
     ImplTask [] 0 n st1 = (st', ret) ->
     result st' = result st1 /\
     match ret with
     | Returned (Some r) => r = result st1 \/ failing r = true
     | Returned None => False
     | Panicked | NoReturn => True
     end) /\
  (result (fst (Run [] 0 (store c))) = result (store c) \/
   failing (result (fst (Run [] 0 (store c)))) = true) /\
  (let c := Flow.Parallel [Func1] NewFlowEngine in
   let st' := fst (Run (fair_schedule 1) 0 (store c)) in
   snd (Run (fair_schedule 1) 0 (store c)) = Done /\
   result (store c) = empty_result /\
   result st' = mkResult None 0 "" 2 /\
   failing (result st') = false).
Proof.
  intros c n.
  apply (sequential_Run_keeps_or_fails [] 0 n (store c)).
  - reflexivity.
  - intros t. discriminate.
Defined.

(** ** Normal, Else and For nodes: the first failing result wins *)

Lemma ran_nil st : ran (data st) [] st = st.
Proof. destruct st. unfold ran. simpl. by rewrite app_nil_r. Qed.

Lemma ran_ran d1 ev1 d2 ev2 st :
  ran d2 ev2 (ran d1 ev1 st) = ran d2 (ev1 ++ ev2) st.
Proof. unfold ran. simpl. by rewrite app_assoc. Qed.

Lemma with_data_ran d e st : with_data d e st = ran d [e] st.
Proof. done. Qed.

Lemma range_functors_pass node fs d d' :
  pass_through fs d d' ->
  forall k st, data st = d ->
  range_functors node k fs st = (ran d' (calls node k (length fs)) st, LoopEnd).
Proof.
  induction 1 as [d|f fs d d1 d2 r Hf Hr Hp IH]; intros k st Hd; simpl.
  - subst d. by rewrite ran_nil.
  - rewrite Hd, Hf.
    assert (range_functors node (S k) fs (with_data d1 (EvCall node k) st) =
            (ran d2 (calls node k (S (length fs))) st, LoopEnd)) as Hgo.
    { rewrite IH by done. by rewrite with_data_ran, ran_ran. }
    destruct r as [r|]; [|done].
    simpl in Hr. by rewrite Hr.
Qed.

Lemma range_functors_fail node pre f post d d1 d2 r :
  pass_through pre d d1 ->
  f d1 = (d2, Return (Some r)) -> failing r = true ->
  forall k st, data st = d ->
  range_functors node k (pre ++ f :: post) st =
    (ran d2 (calls node k (S (length pre))) st, LoopReturn r).
Proof.
  intros Hp Hf Hr.
  induction Hp as [d|g fs d d1 d3 r' Hg Hr' Hp IH]; intros k st Hd; simpl.
  - rewrite Hd, Hf, Hr. done.
  - rewrite Hd, Hg.
    assert (range_functors node (S k) (fs ++ f :: post)
              (with_data d1 (EvCall node k) st) =
            (ran d2 (calls node k (S (S (length fs)))) st, LoopReturn r)) as Hgo.
    { rewrite IH by done. by rewrite with_data_ran, ran_ran. }
    destruct r' as [r'|]; [|done].
    simpl in Hr'. by rewrite Hr'.
Qed.

(** The trace of [j] whole passes over [len] closures. *)
Lemma for_loop_rounds node fs j d d' :
  rounds fs j d d' ->
  forall st, data st = d ->
  for_loop node j fs st =
    (ran d' (concat (repeat (calls node 0 (length fs)) j)) st, LoopEnd).
Proof.
  induction 1 as [d|j d d1 d2 Hp Hr IH]; intros st Hd; simpl.
  - subst d. by rewrite ran_nil.
  - rewrite (range_functors_pass node fs d d1) by done.
    rewrite IH by done. by rewrite ran_ran.
Qed.

Lemma for_loop_fail node fs pre f post j d d1 d2 d3 r :
  rounds fs j d d1 ->
  fs = pre ++ f :: post ->
  pass_through pre d1 d2 ->
  f d2 = (d3, Return (Some r)) -> failing r = true ->
  forall times st, data st = d -> (j < times)%nat ->
  for_loop node times fs st =
    (ran d3 (concat (repeat (calls node 0 (length fs)) j)
             ++ calls node 0 (S (length pre))) st, LoopReturn r).
Proof.
  intros Hrounds Hfs Hp Hf Hr.
  induction Hrounds as [d|j d d1 d1' Hp1 Hrounds IH]; intros times st Hd Hlt;
    (destruct times as [|times]; [lia|]); simpl.
  - rewrite Hfs at 1.
    by rewrite (range_functors_fail node pre f post d d2 d3 r).
  - rewrite (range_functors_pass node fs d d1) by done.
    rewrite (IH Hp) by (done || lia). by rewrite ran_ran, app_assoc.
Qed.

(** C6. A Normal node (an [ElseNode] struct, as [NewNormalNode] builds it, or
    a [NormalNode] struct) calls its closures in order and goes past those
    that return [nil] or a result that is not failing.  The first closure
    that returns a failing result ends the loop: that result is what
    [ImplTask] returns, the closures after it are not called, and [Run]
    writes it into the cell.  When no closure returns a failing result, all
    of them are called, [ImplTask] returns the cell's value and the cell is
    unchanged after [Run]. *)
Theorem NormalNode_first_failure_wins sched node n st :
  nodes st !! node = Some n ->
  impl n = ElseNode \/ impl n = NormalNode ->
  (forall pre f post d1 d2 r,
     Functors (base n) = pre ++ f :: post ->
     pass_through pre (data st) d1 ->
     f d1 = (d2, Return (Some r)) -> failing r = true ->
     ImplTask sched node n st =
       (ran d2 (calls node 0 (S (length pre))) st, Returned (Some r))) /\
  (forall d',
     pass_through (Functors (base n)) (data st) d' ->
     ImplTask sched node n st =
       (ran d' (calls node 0 (length (Functors (base n)))) st,
        Returned (Some (result st)))) /\
  (forall pre f post d1 d2 r,
     gated n st = false ->
     Functors (base n) = pre ++ f :: post ->
     pass_through pre (data (call_BeginLogger n st)) d1 ->
     f d1 = (d2, Return (Some r)) -> failing r = true ->
     snd (Run sched node st) = Done /\ result (fst (Run sched node st)) = r) /\
  (forall d',
     pass_through (Functors (base n)) (data (call_BeginLogger n st)) d' ->
     snd (Run sched node st) = Done /\
     result (fst (Run sched node st)) = result st).
Proof.
  intros Hn Himpl.
  assert (forall st1, ImplTask sched node n st1 =
            after_loop (range_functors node 0 (Functors (base n)) st1)) as Himp.
  { intros st1. unfold ImplTask. by destruct Himpl as [-> | ->]. }
  split_and!.
  - intros pre f post d1 d2 r Hfs Hp Hf Hr.
    rewrite Himp, Hfs.
    by rewrite (range_functors_fail node pre f post (data st) d1 d2 r).
  - intros d' Hp. rewrite Himp.
    by rewrite (range_functors_pass node _ (data st) d').
  - intros pre f post d1 d2 r Hg Hfs Hp Hf Hr.
    unfold Run. rewrite Hn, Hg, Himp, Hfs.
    rewrite (range_functors_fail node pre f post _ d1 d2 r) by done.
    simpl. split; [done|]. by rewrite call_EndLogger_result.
  - intros d' Hp. unfold Run. rewrite Hn.
    destruct (gated n st); [done|].
    rewrite Himp, (range_functors_pass node _ _ d') by done.
    simpl. split; [done|].
    rewrite call_EndLogger_result. simpl. apply call_BeginLogger_result.
Qed.

Lemma NormalNode_first_failure_wins_witness :
  let st := store (Flow.Do [Func1; Func2; Func8; Func3] NewFlowEngine) in
  let n := NewNormalNode [Func1; Func2; Func8; Func3] in
  let r := mkResult (Some (ErrorsNew "something wrong")) 0 "" 4 in
  ImplTask [] 0 n st =
    (ran (mkData None "" 3) [EvCall 0 0; EvCall 0 1; EvCall 0 2] st,
     Returned (Some r)) /\
  snd (Run [] 0 st) = Done /\ result (fst (Run [] 0 st)) = r.
Proof.
  intros st n r.
  destruct (NormalNode_first_failure_wins [] 0 n st) as (H1 & _ & H3 & _).
  - reflexivity.
  - left. reflexivity.
  - split.
    + apply (H1 [Func1; Func2] Func8 [Func3] (mkData None "" 2)).
      * reflexivity.
      * apply (pass_cons Func1 _ _ (mkData None "" 1) _ (Some (mkResult None 0 "" 2)));
          [reflexivity | reflexivity |].
        apply (pass_cons Func2 _ _ (mkData None "" 2) _ None);
          [reflexivity | reflexivity |].
        apply pass_nil.
      * reflexivity.
      * reflexivity.
    + apply (H3 [Func1; Func2] Func8 [Func3] (mkData None "" 2) (mkData None "" 3)).
      * reflexivity.
      * reflexivity.
      * apply (pass_cons Func1 _ _ (mkData None "" 1) _ (Some (mkResult None 0 "" 2)));
          [reflexivity | reflexivity |].
        apply (pass_cons Func2 _ _ (mkData None "" 2) _ None);
          [reflexivity | reflexivity |].
        apply pass_nil.
      * reflexivity.
      * reflexivity.
Defined.

(** C7. A For node with repeat count [Times >= 0] runs its closure list
    [Times] times, each pass in order and up to the first failing result.
    With [Times = 0] no closure is called and the cell is unchanged.  When
    [j < Times] passes went through without a failing result and a closure of
    the next pass returns one, [ImplTask] returns that result at once: the
    trace holds the [j] whole passes and the calls of that pass up to the
    failing closure, nothing of the remaining passes.  When all [Times] passes
    go through, [ImplTask] returns the cell's value. *)
Theorem ForNode_stops_at_first_failure sched node n Times st :
  nodes st !! node = Some n ->
  impl n = ForNode Times ->
  0 <= Times ->
  let fs := Functors (base n) in
  (Times = 0 ->
     ImplTask sched node n st = (st, Returned (Some (result st))) /\
     snd (Run sched node st) = Done /\
     result (fst (Run sched node st)) = result st) /\
  (forall j pre f post d1 d2 d3 r,
     Z.of_nat j < Times ->
     rounds fs j (data st) d1 ->
     fs = pre ++ f :: post ->
     pass_through pre d1 d2 ->
     f d2 = (d3, Return (Some r)) -> failing r = true ->
     ImplTask sched node n st =
       (ran d3 (concat (repeat (calls node 0 (length fs)) j)
                ++ calls node 0 (S (length pre))) st,
        Returned (Some r))) /\
  (forall d',
     rounds fs (Z.to_nat Times) (data st) d' ->
     ImplTask sched node n st =
       (ran d' (concat (repeat (calls node 0 (length fs)) (Z.to_nat Times))) st,
        Returned (Some (result st)))).
Proof.
  intros Hn Himpl Hpos fs.
  assert (forall st1, ImplTask sched node n st1 =
            after_loop (for_loop node (Z.to_nat Times) fs st1)) as Himp.
  { intros st1. unfold ImplTask, ForNode_ImplTask. by rewrite Himpl. }
  split_and!.
  - intros ->.
    assert (forall st1, ImplTask sched node n st1 =
                          (st1, Returned (Some (result st1)))) as H0.
    { intros st1. by rewrite Himp. }
    split_and!; [done | |].
    + unfold Run. rewrite Hn. destruct (gated n st); [done|]. by rewrite H0.
    + unfold Run. rewrite Hn. destruct (gated n st); [done|]. rewrite H0.
      simpl. rewrite call_EndLogger_result. simpl. apply call_BeginLogger_result.
  - intros j pre f post d1 d2 d3 r Hj Hrounds Hfs Hp Hf Hr.
    rewrite Himp.
    rewrite (for_loop_fail node fs pre f post j (data st) d1 d2 d3 r);
      [done..|lia].
  - intros d' Hrounds. rewrite Himp.
    by rewrite (for_loop_rounds node fs _ (data st) d').
Qed.

(** [For(3, fails_on_second_call)]: the second pass fails, the third never
    starts. *)
Lemma ForNode_stops_at_first_failure_witness :
  let st := store (Flow.For 3 [fails_on_second_call] NewFlowEngine) in
  let n := NewForNode 3 [fails_on_second_call] in
  ImplTask [] 0 n st =
    (ran (mkData None "" 2) [EvCall 0 0; EvCall 0 0] st,
     Returned (Some (mkResult (Some (ErrorsNew "something wrong")) 0 "" 3))).
Proof.
  intros st n.
  destruct (ForNode_stops_at_first_failure [] 0 n 3 st) as (_ & H & _).
  - reflexivity.
  - reflexivity.
  - lia.
  - apply (H 1%nat [] fails_on_second_call [] (mkData None "" 1) (mkData None "" 1)).
    + reflexivity.
    + apply (rounds_S _ 0 _ (mkData None "" 1)); [|apply rounds_O].
      apply (pass_cons fails_on_second_call _ _ (mkData None "" 1) _ None);
        [reflexivity | reflexivity | apply pass_nil].
    + reflexivity.
    + apply pass_nil.
    + reflexivity.
    + reflexivity.
Defined.


Lemma SetShouldSkip_idem m :
  SetShouldSkip true (SetShouldSkip true m) = SetShouldSkip true m.
Proof. done. Qed.

Lemma links_forward_insert ns j m :
  links_forward ns -> ns !! j = Some m ->
  links_forward (<[j := SetShouldSkip true m]> ns).
Proof.
  intros Hl Hj j' m' k Hj' Hnext.
  destruct (decide (j = j')) as [<-|Hne].
  - rewrite list_lookup_insert_eq in Hj' by (by eapply lookup_lt_Some).
    inversion Hj'; subst m'. by apply (Hl j m k).
  - rewrite list_lookup_insert_ne in Hj' by done. by apply (Hl j' m' k).
Qed.

Lemma in_chain_insert ns j m current k :
  in_chain ns current k -> ns !! j = Some m ->
  in_chain (<[j := SetShouldSkip true m]> ns) current k.
Proof.
  intros Hc Hj.
  induction Hc as [i mi Hi Ht|i mi k Hi Ht Hc IH].
  - destruct (decide (j = i)) as [->|Hne].
    + apply (in_chain_here _ i (SetShouldSkip true m)).
      * apply list_lookup_insert_eq. by eapply lookup_lt_Some.
      * by simplify_eq.
    + apply (in_chain_here _ i mi); [|done].
      by rewrite list_lookup_insert_ne.
  - destruct (decide (j = i)) as [->|Hne].
    + apply (in_chain_next _ i (SetShouldSkip true m)).
      * apply list_lookup_insert_eq. by eapply lookup_lt_Some.
      * by simplify_eq.
      * by simplify_eq.
    + apply (in_chain_next _ i mi); [|done..].
      by rewrite list_lookup_insert_ne.
Qed.

(** The marking loop only ever sets skip flags. *)
Lemma mark_skip_spec : forall fuel current ns ns',
  mark_skip fuel current ns = Some ns' ->
  forall k m, ns !! k = Some m ->
  ns' !! k = Some m \/ ns' !! k = Some (SetShouldSkip true m).
Proof.
  induction fuel as [|fuel IH]; intros [j|] ns ns' H k m Hk; simpl in H;
    try (by inversion H; subst; left).
  - destruct (ns !! j) as [mj|]; [|by inversion H; subst; left].
    destruct (is_else_type _); [done | by inversion H; subst; left].
  - destruct (ns !! j) as [mj|] eqn:Hj; [|by inversion H; subst; left].
    destruct (is_else_type _); [|by inversion H; subst; left].
    destruct (decide (j = k)) as [->|Hne].
    + assert (<[k := SetShouldSkip true mj]> ns !! k = Some (SetShouldSkip true mj))
        as Hk1 by (apply list_lookup_insert_eq; by eapply lookup_lt_Some).
      simplify_eq.
      destruct (IH _ _ _ H k _ Hk1) as [-> | ->]; by right.
    + apply (IH _ _ _ H k m). by rewrite list_lookup_insert_ne.
Qed.

Lemma mark_skip_marks : forall fuel current ns ns' k,
  mark_skip fuel current ns = Some ns' ->
  in_chain ns current k -> skipped ns' k.
Proof.
  induction fuel as [|fuel IH]; intros current ns ns' k H Hc.
  - inversion Hc as [j m Hj Ht|j m k' Hj Ht Hc']; subst; simpl in H;
      rewrite Hj, Ht in H; done.
  - inversion Hc as [j m Hj Ht|j m k' Hj Ht Hc']; subst; simpl in H;
      rewrite Hj, Ht in H.
    + assert (<[k := SetShouldSkip true m]> ns !! k = Some (SetShouldSkip true m))
        as Hk1 by (apply list_lookup_insert_eq; by eapply lookup_lt_Some).
      destruct (mark_skip_spec _ _ _ _ H k _ Hk1) as [Hk' | Hk'];
        by exists (SetShouldSkip true m).
    + apply (IH _ _ _ _ H). by apply in_chain_insert.
Qed.

(** With forward links the marking loop ends before the fuel does. *)
Lemma mark_skip_terminates : forall fuel current ns,
  links_forward ns ->
  (forall j, current = Some j -> (length ns <= j + fuel)%nat) ->
  exists ns', mark_skip fuel current ns = Some ns'.
Proof.
  induction fuel as [|fuel IH]; intros [j|] ns Hl Hfuel; simpl; eauto.
  - destruct (ns !! j) as [m|] eqn:Hj; eauto.
    destruct (is_else_type _); eauto.
    apply lookup_lt_Some in Hj. specialize (Hfuel j eq_refl). lia.
  - destruct (ns !! j) as [m|] eqn:Hj; eauto.
    destruct (is_else_type _); eauto.
    apply IH.
    + by apply links_forward_insert.
    + intros k Hk. rewrite length_insert.
      specialize (Hfuel j eq_refl). specialize (Hl j m k Hj Hk). lia.
Qed.

Lemma mark_skip_chain ns current :
  links_forward ns ->
  exists ns', mark_skip (S (length ns)) current ns = Some ns' /\
              forall k, in_chain ns current k -> skipped ns' k.
Proof.
  intros Hl.
  destruct (mark_skip_terminates (S (length ns)) current ns Hl) as [ns' H].
  { intros j _. lia. }
  exists ns'. split; [done|]. intros k. by apply (mark_skip_marks _ _ _ _ _ H).
Qed.

(** The marking loop runs after the branch, whatever the condition said: a
    conditional whose condition is false marks its siblings too. *)
Lemma false_condition_marks_siblings sched node n c st d :
  links_forward (nodes st) ->
  impl n = IfNode (Some c) \/ impl n = ElseIfNode (Some c) ->
  c (data st) = (d, false) ->
  exists ns',
    ImplTask sched node n st =
      (with_nodes ns' (with_data d (EvCond node false) st),
       Returned (Some (result st))) /\
    forall k, in_chain (nodes st) (Next (base n)) k -> skipped ns' k.
Proof.
  intros Hl Himpl Hc.
  assert (ImplTask sched node n st = IfNode_ImplTask node (Some c) n st) as ->.
  { unfold ImplTask. by destruct Himpl as [-> | ->]. }
  unfold IfNode_ImplTask. rewrite Hc.
  destruct (mark_skip_chain (nodes (with_data d (EvCond node false) st))
              (Next (base n)) Hl) as (ns' & -> & Hm).
  by exists ns'.
Qed.

(** C2, as the code has it.  An [If] or [ElseIf] node with a condition
    closure that evaluates true, in a store whose links point forward: when
    no closure of the branch returns a failing result (the closures succeed,
    return [nil], or there is none), [ImplTask] returns the cell's value and
    every contiguous [ElseIf]/[Else] node reached from its [Next] link has
    its skip flag set.  When a closure of the branch returns a failing
    result, [ImplTask] returns that result at once and no node of the store
    is changed. *)
Theorem taken_branch_marks_siblings_unless_failed sched node n c st d :
  nodes st !! node = Some n ->
  links_forward (nodes st) ->
  impl n = IfNode (Some c) \/ impl n = ElseIfNode (Some c) ->
  c (data st) = (d, true) ->
  let st1 := with_data d (EvCond node true) st in
  (forall d',
     pass_through (Functors (base n)) d d' ->
     exists ns',
       ImplTask sched node n st =
         (with_nodes ns' (ran d' (calls node 0 (length (Functors (base n)))) st1),
          Returned (Some (result st))) /\
       forall k, in_chain (nodes st) (Next (base n)) k -> skipped ns' k) /\
  (forall pre f post d1 d2 r,
     Functors (base n) = pre ++ f :: post ->
     pass_through pre d d1 ->
     f d1 = (d2, Return (Some r)) -> failing r = true ->
     ImplTask sched node n st =
       (ran d2 (calls node 0 (S (length pre))) st1, Returned (Some r)) /\
     nodes (fst (ImplTask sched node n st)) = nodes st).
Proof.
  intros Hn Hl Himpl Hc st1.
  assert (ImplTask sched node n st = IfNode_ImplTask node (Some c) n st) as ->.
  { unfold ImplTask. by destruct Himpl as [-> | ->]. }
  unfold IfNode_ImplTask. rewrite Hc. fold st1.
  split.
  - intros d' Hp.
    rewrite (range_functors_pass node _ d d') by done.
    destruct (mark_skip_chain (nodes st1) (Next (base n)) Hl) as (ns' & Hs & Hm).
    simpl in *. rewrite Hs. by exists ns'.
  - intros pre f post d1 d2 r Hfs Hp Hf Hr. rewrite Hfs.
    by rewrite (range_functors_fail node pre f post d d1 d2 r).
Qed.

(** The claim fails at [If(CondTrue, Func8).Else(Func4)]: [Func8] fails, the
    [If] node returns its result and the [Else] node keeps a false skip
    flag. *)
Lemma failed_branch_leaves_sibling_unmarked :
  let st := store (fst (ElseFlow.Else [Func4]
                          (Flow.If (Some CondTrue) [Func8] NewFlowEngine))) in
  let n := SetNext (Some 1%nat) (NewIfNode (Some CondTrue) [Func8]) in
  let r := mkResult (Some (ErrorsNew "something wrong")) 0 "" 2 in
  let st' := ran (mkData None "" 1) [EvCall 0 0]
                 (with_data new_DataTest (EvCond 0 true) st) in
  nodes st !! 0%nat = Some n /\
  impl n = IfNode (Some CondTrue) /\
  gated n st = false /\
  ImplTask [] 0 n st = (st', Returned (Some r)) /\
  failing r = true /\
  in_chain (nodes st) (Next (base n)) 1 /\
  nodes st' !! 1%nat = Some (NewElseNode [Func4]) /\
  ShouldSkip (base (NewElseNode [Func4])) = false /\
  ~ skipped (nodes st') 1.
Proof.
  intros st n r st'.
  assert (nodes st' !! 1%nat = Some (NewElseNode [Func4])) as Hlook by reflexivity.
  split_and!; try reflexivity.
  - apply (in_chain_here _ 1 (NewElseNode [Func4])); reflexivity.
  - intros (m & Hm & Hs). rewrite Hlook in Hm.
    injection Hm as <-. discriminate Hs.
Qed.

(** [If(CondTrue, Func1, Func2).ElseIf(CondFalse, Func3).Else(Func4)]: the
    branch goes through and both siblings are marked. *)
Lemma taken_branch_marks_siblings_unless_failed_witness :
  let st := store (taken_chain Func1 Func2 Func3 Func4) in
  let n := SetNext (Some 1%nat) (NewIfNode (Some CondTrue) [Func1; Func2]) in
  exists ns',
    ImplTask [] 0 n st =
      (with_nodes ns'
         (ran (mkData None "" 2) [EvCall 0 0; EvCall 0 1]
              (with_data (data st) (EvCond 0 true) st)),
       Returned (Some (result st))) /\
    skipped ns' 1 /\ skipped ns' 2.
Proof.
  intros st n.
  set (n1 := SetNext (Some 2%nat) (NewElseIfNode (Some CondFalse) [Func3])).
  assert (nodes st = [n; n1; NewElseNode [Func4]]) as Hns by reflexivity.
  destruct (taken_branch_marks_siblings_unless_failed
              [] 0 n CondTrue st (data st)) as (H & _).
  - reflexivity.
  - rewrite Hns.
    intros [|[|[|j]]] m k Hj Hk; simpl in Hj; try discriminate Hj;
      injection Hj as <-; simpl in Hk; try discriminate Hk;
      injection Hk as <-; lia.
  - left. reflexivity.
  - reflexivity.
  - destruct (H (mkData None "" 2)) as (ns' & Himp & Hm).
    + apply (pass_cons Func1 _ _ (mkData None "" 1) _ (Some (mkResult None 0 "" 2)));
        [reflexivity | reflexivity |].
      apply (pass_cons Func2 _ _ (mkData None "" 2) _ None);
        [reflexivity | reflexivity |].
      apply pass_nil.
    + exists ns'. split_and!.
      * exact Himp.
      * apply Hm. apply (in_chain_here _ 1 n1); reflexivity.
      * apply Hm. apply (in_chain_next _ 1 n1); try reflexivity.
        apply (in_chain_here _ 2 (NewElseNode [Func4])); reflexivity.
Defined.

(** ** The collecting loop of [ParallelNode.ImplTask] *)

Lemma aggregate_app result items items' :
  aggregate result (items ++ items') = aggregate (aggregate result items) items'.
Proof. apply fold_left_app. Qed.

Lemma aggregate_failing result items :
  is_failing result = true -> aggregate result items = result.
Proof.
  intros Hf. induction items as [|item items IH]; simpl; [done|].
  unfold aggregate in *. simpl. unfold collect at 2. by rewrite Hf.
Qed.

Lemma aggregate_not_failing result items :
  not_failing result -> Forall not_failing items ->
  not_failing (aggregate result items).
Proof.
  intros Hr Hall. revert result Hr.
  induction Hall as [|item items Hi Hall IH]; intros result Hr; [done|].
  unfold aggregate. simpl. apply IH. unfold collect. by rewrite Hr.
Qed.

Lemma aggregate_first_failing result pre x post :
  not_failing result -> Forall not_failing pre -> is_failing x = true ->
  aggregate result (pre ++ x :: post) = x.
Proof.
  intros Hr Hpre Hx. rewrite aggregate_app.
  pose proof (aggregate_not_failing result pre Hr Hpre) as Hy.
  unfold aggregate at 1. simpl. unfold collect at 2. rewrite Hy.
  by apply aggregate_failing.
Qed.

Lemma is_failing_aggregate result items :
  not_failing result ->
  is_failing (aggregate result items) = existsb is_failing items.
Proof.
  intros Hr. revert result Hr.
  induction items as [|item items IH]; intros result Hr; [done|].
  unfold aggregate. simpl. unfold collect at 2. rewrite Hr.
  destruct (is_failing item) eqn:Hi; simpl.
  - fold (aggregate item items). by rewrite aggregate_failing.
  - by apply IH.
Qed.

Lemma existsb_Permutation {A} (f : A -> bool) l l' :
  Permutation l l' -> existsb f l = existsb f l'.
Proof.
  induction 1 as [|x l l' _ IH|x y l|l l' l'' _ IH1 _ IH2]; simpl.
  - done.
  - by rewrite IH.
  - by destruct (f x), (f y).
  - congruence.
Qed.

(** The result the caller holds is the fold of the items it has received. *)
Lemma par_step_aggregate node fs init ps t :
  match main ps with MRange r | MReturned r => r = aggregate init (taken ps) end ->
  match main (par_step node fs ps t) with
  | MRange r | MReturned r => r = aggregate init (taken (par_step node fs ps t))
  end.
Proof.
  intros H. unfold par_step.
  destruct (crashed ps || has_returned ps); [done|].
  destruct t as [i| |].
  - unfold worker_step.
    destruct (workers ps !! i) as [pc|]; [|done].
    destruct (fs !! i) as [f|]; [|done].
    destruct pc; try done.
    + unfold call_functor. by destruct (f _) as [d [r|]].
    + unfold send. destruct (closed ps); [done|]. by destruct (_ <=? _)%nat.
    + unfold wg_Done. by destruct (_ <? _).
    + unfold wg_Done. by destruct (_ <? _).
    + unfold send. destruct (closed ps); [done|]. by destruct (_ <=? _)%nat.
  - unfold closer_step. destruct (closer ps); try done. by destruct (_ =? _).
  - unfold main_step. destruct (main ps) as [r|r] eqn:Hm; [|by rewrite Hm].
    destruct (chan ps) as [|item rest].
    + destruct (closed ps); simpl; [done | by rewrite Hm].
    + simpl. rewrite aggregate_app. by subst r.
Qed.

Lemma par_run_aggregate node fs init sched : forall ps,
  match main ps with MRange r | MReturned r => r = aggregate init (taken ps) end ->
  match main (par_run node fs sched ps) with
  | MRange r | MReturned r => r = aggregate init (taken (par_run node fs sched ps))
  end.
Proof.
  induction sched as [|t sched IH]; intros ps H; [done|].
  simpl. apply IH. by apply par_step_aggregate.
Qed.

Lemma ParallelNode_ImplTask_aggregate sched node fs st st' r :
  ParallelNode_ImplTask sched node fs st = (st', Returned r) ->
  r = aggregate (Some (result st)) (taken (par_run node fs sched (par_init fs st))).
Proof.
  unfold ParallelNode_ImplTask. intros H.
  pose proof (par_run_aggregate node fs (Some (result st)) sched (par_init fs st)
                eq_refl) as Hagg.
  destruct (crashed _); [done|].
  destruct (main _) as [r'|r']; [done|]. by simplify_eq.
Qed.

(** C8. The code at a [ParallelNode] with a closure that panics.  When the
    deferred function sends the fault result before the channel is closed,
    the node returns it.  But the deferred function calls [wg.Done()] before
    it sends, so the closing goroutine may close the channel in between: then
    the send panics outside any [recover] and the process crashes; or the
    caller, finding the channel closed and empty, returns without the fault,
    which never reaches the cell.  Both happen with the panicking closure
    alone and next to [Func1], whose task has completed. *)
Theorem panic_recovery_races_with_close :
  let st := store (Flow.Parallel [FuncPanic] NewFlowEngine) in
  let st2 := store (Flow.Parallel [Func1; FuncPanic] NewFlowEngine) in
  let close_then_send := [TWorker 0; TWorker 0; TCloser; TCloser; TWorker 0] in
  let close_then_return := [TWorker 0; TWorker 0; TCloser; TCloser; TMain] in
  let other_done_then_close :=
    [TWorker 0; TWorker 0; TWorker 0; TWorker 1; TWorker 1; TCloser; TCloser] in
  (snd (Run (fair_schedule 1) 0 st) = Done /\
   result (fst (Run (fair_schedule 1) 0 st)) = fault_result) /\
  snd (Run close_then_send 0 st) = Crashed /\
  (snd (Run close_then_return 0 st) = Done /\
   result (fst (Run close_then_return 0 st)) = empty_result /\
   failing (result (fst (Run close_then_return 0 st))) = false) /\
  snd (Run (other_done_then_close ++ [TWorker 1]) 0 st2) = Crashed /\
  (snd (Run (other_done_then_close ++ [TMain; TMain]) 0 st2) = Done /\
   result (fst (Run (other_done_then_close ++ [TMain; TMain]) 0 st2))
     = mkResult None 0 "" 2 /\
   failing (result (fst (Run (other_done_then_close ++ [TMain; TMain]) 0 st2)))
     = false).
Proof. cbv zeta. split_and!; by vm_compute. Qed.

(** ** What a [Run] adds to the trace *)

Lemma extends_refl node st : extends node st st.
Proof. exists []. split; [by rewrite app_nil_r | constructor]. Qed.

Lemma extends_trans node st1 st2 st3 :
  extends node st1 st2 -> extends node st2 st3 -> extends node st1 st3.
Proof.
  intros (ev1 & H1 & F1) (ev2 & H2 & F2). exists (ev1 ++ ev2). split.
  - by rewrite H2, H1, app_assoc.
  - apply Forall_app. by split.
Qed.

Lemma extends_with_data node d e st :
  own_event node e -> extends node st (with_data d e st).
Proof. intros He. exists [e]. split; [done | by constructor]. Qed.

Lemma extends_same_trace node st st' :
  trace st' = trace st -> extends node st st'.
Proof. intros H. exists []. split; [by rewrite app_nil_r | constructor]. Qed.


Lemma extends_never_called node j st st' :
  extends node st st' -> node <> j -> never_called j st -> never_called j st'.
Proof.
  intros (events & Ht & Hall) Hne Hq k Hin. rewrite Ht in Hin.
  apply in_app_or in Hin as [Hin|Hin]; [by apply (Hq k)|].
  rewrite Forall_forall in Hall. apply list_elem_of_In in Hin.
  apply Hall in Hin. simpl in Hin. congruence.
Qed.

Lemma range_functors_extends node fs : forall k st st' e,
  range_functors node k fs st = (st', e) -> extends node st st'.
Proof.
  induction fs as [|f fs IH]; intros k st st' e H; simpl in H.
  - inversion H. apply extends_refl.
  - destruct (f (data st)) as [d o].
    assert (extends node st (with_data d (EvCall node k) st)) as Hstep
      by (by apply extends_with_data).
    destruct o as [[r|]|].
    + destruct (failing r).
      * by inversion H; subst.
      * apply IH in H. by apply (extends_trans _ _ _ _ Hstep).
    + apply IH in H. by apply (extends_trans _ _ _ _ Hstep).
    + by inversion H; subst.
Qed.

Lemma for_loop_extends node fs : forall times st st' e,
  for_loop node times fs st = (st', e) -> extends node st st'.
Proof.
  induction times as [|times IH]; intros st st' e H; simpl in H.
  - inversion H. apply extends_refl.
  - destruct (range_functors node 0 fs st) as [st1 e1] eqn:Hr.
    apply range_functors_extends in Hr.
    destruct e1.
    + apply IH in H. by apply (extends_trans _ _ _ _ Hr).
    + by inversion H; subst.
    + by inversion H; subst.
Qed.

Lemma IfNode_ImplTask_extends node Condition n st st' ret :
  IfNode_ImplTask node Condition n st = (st', ret) -> extends node st st'.
Proof.
  unfold IfNode_ImplTask. destruct Condition as [c|].
  - destruct (c (data st)) as [d b].
    assert (extends node st (with_data d (EvCond node b) st)) as Hc
      by (by apply extends_with_data).
    destruct (if b then _ else _) as [st2 e] eqn:Hb.
    assert (extends node st st2) as H2.
    { destruct b.
      - apply range_functors_extends in Hb. by apply (extends_trans _ _ _ _ Hc).
      - by inversion Hb; subst. }
    destruct e.
    + destruct (mark_skip _ _ _) as [ns|]; intros H; inversion H; subst; [|done].
      apply (extends_trans _ _ _ _ H2). by apply extends_same_trace.
    + intros H; by inversion H; subst.
    + intros H; by inversion H; subst.
  - intros H; inversion H; subst. apply extends_refl.
Qed.

(** The goroutines of a [ParallelNode] touch the store only by calling the
    node's closures. *)
Lemma par_step_frame node fs ps t :
  result (shared (par_step node fs ps t)) = result (shared ps) /\
  nodes (shared (par_step node fs ps t)) = nodes (shared ps) /\
  extends node (shared ps) (shared (par_step node fs ps t)).
Proof.
  assert (result (shared ps) = result (shared ps) /\
          nodes (shared ps) = nodes (shared ps) /\
          extends node (shared ps) (shared ps)) as Hsame.
  { split_and!; [done | done | apply extends_refl]. }
  unfold par_step. destruct (crashed ps || has_returned ps); [done|].
  destruct t as [i| |].
  - unfold worker_step.
    destruct (workers ps !! i) as [pc|]; [|done].
    destruct (fs !! i) as [f|]; [|done].
    destruct pc; try done.
    + unfold call_functor. destruct (f _) as [d o]. simpl.
      split_and!; [done | done | by apply extends_with_data].
    + unfold send. destruct (closed ps); [done|]. by destruct (_ <=? _)%nat.
    + unfold wg_Done. by destruct (_ <? _).
    + unfold wg_Done. by destruct (_ <? _).
    + unfold send. destruct (closed ps); [done|]. by destruct (_ <=? _)%nat.
  - unfold closer_step. destruct (closer ps); try done. by destruct (_ =? _).
  - unfold main_step. destruct (main ps); [|done].
    destruct (chan ps); [|done]. by destruct (closed ps).
Qed.

Lemma par_run_frame node fs sched : forall ps,
  result (shared (par_run node fs sched ps)) = result (shared ps) /\
  nodes (shared (par_run node fs sched ps)) = nodes (shared ps) /\
  extends node (shared ps) (shared (par_run node fs sched ps)).
Proof.
  induction sched as [|t sched IH]; intros ps; simpl.
  - split_and!; [done | done | apply extends_refl].
  - destruct (IH (par_step node fs ps t)) as (Hr & Hn & He).
    destruct (par_step_frame node fs ps t) as (Hr1 & Hn1 & He1).
    split_and!; [congruence | congruence |].
    by apply (extends_trans _ _ _ _ He1).
Qed.

Lemma ParallelNode_ImplTask_frame sched node fs st st' ret :
  ParallelNode_ImplTask sched node fs st = (st', ret) ->
  result st' = result st /\ nodes st' = nodes st /\ extends node st st'.
Proof.
  unfold ParallelNode_ImplTask. intros H.
  destruct (par_run_frame node fs sched (par_init fs st)) as (Hr & Hn & He).
  destruct (crashed _); [by inversion H; subst|].
  destruct (main _); by inversion H; subst.
Qed.

Lemma ImplTask_extends sched node n st st' ret :
  ImplTask sched node n st = (st', ret) -> extends node st st'.
Proof.
  unfold ImplTask. destruct (impl n) as [c| |c| |t|t].
  - apply IfNode_ImplTask_extends.
  - unfold ElseNode_ImplTask. intros H.
    destruct (range_functors node 0 (Functors (base n)) st) as [s e] eqn:Hr.
    apply range_functors_extends in Hr. by destruct e; inversion H; subst.
  - apply IfNode_ImplTask_extends.
  - unfold NormalNode_ImplTask. intros H.
    destruct (range_functors node 0 (Functors (base n)) st) as [s e] eqn:Hr.
    apply range_functors_extends in Hr. by destruct e; inversion H; subst.
  - unfold ForNode_ImplTask. intros H.
    destruct (for_loop node (Z.to_nat t) (Functors (base n)) st) as [s e] eqn:Hr.
    apply for_loop_extends in Hr. by destruct e; inversion H; subst.
  - intros H. by apply ParallelNode_ImplTask_frame in H as (_ & _ & H).
Qed.

Lemma call_BeginLogger_extends node n st : extends node st (call_BeginLogger n st).
Proof.
  unfold call_BeginLogger. destruct (BeginLogger (base n)).
  - by apply extends_with_data.
  - apply extends_refl.
Qed.

Lemma call_EndLogger_extends node n st : extends node st (call_EndLogger n st).
Proof.
  unfold call_EndLogger. destruct (EndLogger (base n)).
  - by apply extends_with_data.
  - apply extends_refl.
Qed.

(** A [Run] records hook calls and calls of the node's own condition and
    closures, nothing else. *)
Lemma Run_extends sched node st :
  extends node st (fst (Run sched node st)).
Proof.
  unfold Run. destruct (nodes st !! node) as [n|]; [|apply extends_refl].
  destruct (gated n st); [apply extends_refl|].
  destruct (ImplTask sched node n (call_BeginLogger n st)) as [st2 ret] eqn:Hi.
  apply ImplTask_extends in Hi.
  pose proof (call_BeginLogger_extends node n st) as Hb.
  pose proof (extends_trans _ _ _ _ Hb Hi) as H2.
  destruct ret as [[r|]| |]; simpl; try done.
  - apply (extends_trans _ _ _ _ H2).
    apply (extends_trans _ _ (SetParentResult r st2)).
    + by apply extends_same_trace.
    + apply call_EndLogger_extends.
  - apply (extends_trans _ _ _ _ H2). apply call_EndLogger_extends.
Qed.

(** A node that is not a conditional leaves the nodes of the store alone. *)
Lemma Run_nodes sched node n st :
  nodes st !! node = Some n ->
  (forall c, impl n <> IfNode c) -> (forall c, impl n <> ElseIfNode c) ->
  nodes (fst (Run sched node st)) = nodes st.
Proof.
  intros Hn Hif Helif. unfold Run. rewrite Hn.
  destruct (gated n st); [done|].
  destruct (ImplTask sched node n (call_BeginLogger n st)) as [st2 ret] eqn:Hi.
  assert (nodes st2 = nodes st) as H2.
  { rewrite <- (call_BeginLogger_nodes n st). revert Hi. unfold ImplTask.
    destruct (impl n) as [c| |c| |t|t].
    - by destruct (Hif c).
    - unfold ElseNode_ImplTask. intros H.
      destruct (range_functors _ _ _ _) as [s e] eqn:Hr.
      apply range_functors_frame in Hr as (_ & ? & _).
      by destruct e; inversion H; subst.
    - by destruct (Helif c).
    - unfold NormalNode_ImplTask. intros H.
      destruct (range_functors _ _ _ _) as [s e] eqn:Hr.
      apply range_functors_frame in Hr as (_ & ? & _).
      by destruct e; inversion H; subst.
    - unfold ForNode_ImplTask. intros H.
      destruct (for_loop _ _ _ _) as [s e] eqn:Hr.
      apply for_loop_frame in Hr as (_ & ? & _).
      by destruct e; inversion H; subst.
    - intros H. by apply ParallelNode_ImplTask_frame in H as (_ & ? & _). }
  destruct ret as [[r|]| |]; simpl; try done.
  - by rewrite call_EndLogger_nodes.
  - by rewrite call_EndLogger_nodes.
Qed.

(** Whatever its condition says, a conditional node that has run leaves the
    [ElseIf]/[Else] node behind it gated: by the failing result of its
    branch, or else by the skip flag it has set. *)
Lemma conditional_gates_next_sibling sched node n c j m st st' :
  nodes st !! node = Some n ->
  impl n = IfNode (Some c) \/ impl n = ElseIfNode (Some c) ->
  Next (base n) = Some j ->
  nodes st !! j = Some m ->
  is_else_type (GetNodeType (base m)) = true ->
  gated n st = false ->
  Run sched node st = (st', Done) ->
  failing (result st') = true \/ skipped (nodes st') j.
Proof.
  intros Hn Himpl Hnext Hj Ht Hg. unfold Run. rewrite Hn, Hg.
  assert (ImplTask sched node n (call_BeginLogger n st) =
          IfNode_ImplTask node (Some c) n (call_BeginLogger n st)) as ->.
  { unfold ImplTask. by destruct Himpl as [-> | ->]. }
  unfold IfNode_ImplTask.
  destruct (c _) as [d b].
  set (st1 := with_data d (EvCond node b) (call_BeginLogger n st)).
  destruct (if b then _ else _) as [st2 e] eqn:Hb.
  assert (nodes st2 = nodes st /\
          match e with LoopReturn r => failing r = true | _ => True end)
    as [Hns He].
  { destruct b.
    - apply range_functors_frame in Hb as (_ & Hns & He).
      split; [|done]. rewrite Hns. apply call_BeginLogger_nodes.
    - inversion Hb; subst. split; [|done]. apply call_BeginLogger_nodes. }
  destruct e as [|r|].
  - destruct (mark_skip _ _ _) as [ns|] eqn:Hm; [|done].
    intros H; inversion H; subst st'. right.
    rewrite call_EndLogger_nodes. simpl.
    apply (mark_skip_marks _ _ _ _ _ Hm).
    rewrite Hnext, Hns. by apply (in_chain_here _ j m).
  - intros H; inversion H; subst st'. left.
    by rewrite call_EndLogger_result.
  - done.
Qed.

Lemma Run_skipped sched node st :
  failing (result st) = true \/ skipped (nodes st) node ->
  Run sched node st = (st, Done).
Proof.
  intros [Hf | (m & Hm & Hs)].
  - by apply Run_failing.
  - apply (Run_gated _ _ m); [done|]. unfold gated. by rewrite Hs.
Qed.

(** C1. The code at the scenario of the claim.  In
    [Do(f1).If(CondFalse, f2).ElseIf(CondTrue, f3).Else(f4).Wait()] the [If]
    node, whose condition is false, marks the [ElseIf] and the [Else] node as
    skipped before they are reached.  With the repository's [Func1] to
    [Func4] the run calls [Func1], evaluates [CondFalse] and nothing else;
    and whatever the four closures are and however the run ends, [f3] is
    never called, although its condition is true. *)
Theorem ElseIf_after_false_If_never_runs :
  (let c := fst (Flow.Wait (fun _ => []) (chain_scenario Func1 Func2 Func3 Func4)) in
   snd (Flow.Wait (fun _ => []) (chain_scenario Func1 Func2 Func3 Func4)) = Done /\
   trace (store c) = [EvCall 0 0; EvCond 1 false] /\
   map (fun n => ShouldSkip (base n)) (nodes (store c)) = [false; false; true; true] /\
   failing (result (store c)) = false) /\
  (forall f1 f2 f3 f4 scheds,
     never_called 2 (store (fst (Flow.Wait scheds (chain_scenario f1 f2 f3 f4))))).
Proof.
  split.
  - by vm_compute.
  - intros f1 f2 f3 f4 scheds.
    unfold Flow.Wait, finish_Wait.
    set (st0 := store (chain_scenario f1 f2 f3 f4)).
    set (n1 := SetNext (Some 2%nat) (NewIfNode (Some CondFalse) [f2])).
    set (n2 := SetNext (Some 3%nat) (NewElseIfNode (Some CondTrue) [f3])).
    assert (nodes st0 = [SetNext (Some 1%nat) (NewNormalNode [f1]); n1; n2;
                         NewElseNode [f4]]) as Hns by reflexivity.
    assert (never_called 2 st0) as Hq0 by (intros k Hin; destruct Hin).
    change (onSuccessFunc (chain_scenario f1 f2 f3 f4)) with (@None IOnSuccessFunc).
    change (onFailFunc (chain_scenario f1 f2 f3 f4)) with (@None IOnFailFunc).
    rewrite Hns. cbn [length seq run_nodes].
    (* the Normal node *)
    pose proof (Run_extends (scheds 0%nat) 0 st0) as He1.
    pose proof (Run_nodes (scheds 0%nat) 0 _ st0 (f_equal (.!! 0%nat) Hns)) as Hn1.
    destruct (Run (scheds 0%nat) 0 st0) as [st1 s1]. cbn [fst] in He1, Hn1.
    assert (never_called 2 st1) as Hq1
      by (by apply (extends_never_called 0 2 st0)).
    rewrite <- Hn1 in Hns by done. clear Hn1.
    destruct s1; [|done..].
    (* the If node *)
    pose proof (Run_extends (scheds 1%nat) 1 st1) as He2.
    destruct (Run (scheds 1%nat) 1 st1) as [st2 s2] eqn:H2. cbn [fst] in He2.
    assert (never_called 2 st2) as Hq2
      by (by apply (extends_never_called 1 2 st1)).
    destruct s2; [|done..].
    assert (failing (result st2) = true \/ skipped (nodes st2) 2) as Hgate.
    { destruct (gated n1 st1) eqn:Hg.
      - rewrite (Run_gated _ _ n1) in H2 by (done || by rewrite Hns).
        inversion H2; subst st2. left.
        unfold gated in Hg. by rewrite orb_false_l in Hg.
      - apply (conditional_gates_next_sibling (scheds 1%nat) 1 n1 CondFalse 2 n2 st1);
          try done; try (by rewrite Hns). by left. }
    (* the ElseIf node is gated *)
    rewrite (Run_skipped _ 2 st2 Hgate).
    (* the Else node *)
    pose proof (Run_extends (scheds 3%nat) 3 st2) as He3.
    destruct (Run (scheds 3%nat) 3 st2) as [st3 s3]. cbn [fst] in He3.
    assert (never_called 2 st3) as Hq3
      by (by apply (extends_never_called 3 2 st2)).
    by destruct s3.
Qed.

(** ** A [ParallelNode] with well-behaved closures *)

Lemma count_insert p : forall ws i old new,
  ws !! i = Some old ->
  (count p (<[i := new]> ws) + (if p old then 1 else 0) =
   count p ws + (if p new then 1 else 0))%nat.
Proof.
  induction ws as [|pc ws IH]; intros [|i] old new H; simpl in *; try done.
  - inversion H; subst. lia.
  - specialize (IH i old new H). lia.
Qed.

Lemma count_zero p : forall ws i pc,
  count p ws = 0%nat -> ws !! i = Some pc -> p pc = false.
Proof.
  induction ws as [|pc' ws IH]; intros [|i] pc H0 H; simpl in *; try done.
  - inversion H; subst. destruct (p pc); [lia | done].
  - apply (IH i pc); [|done]. destruct (p pc'); lia.
Qed.


Lemma count_init p fs :
  count p (map (fun _ : ICallable => WReady) fs) =
  if p WReady then length fs else 0%nat.
Proof.
  induction fs as [|f fs IH]; simpl; [by destruct (p WReady)|].
  rewrite IH. by destruct (p WReady).
Qed.


Lemma active_positive ws i pc :
  ws !! i = Some pc -> active pc = true -> 0 < Z.of_nat (count active ws).
Proof.
  intros Hi Ha. destruct (count active ws) eqn:Hc; [|lia].
  apply (count_zero _ _ i pc) in Hc; [congruence | done].
Qed.

Lemma lookup_insert_cases (ws : list WorkerPC) i j new pc :
  <[i := new]> ws !! j = Some pc ->
  (j = i /\ pc = new) \/ (j <> i /\ ws !! j = Some pc).
Proof.
  intros H. destruct (decide (i = j)) as [->|Hne].
  - left. assert (j < length ws)%nat as Hlt.
    { apply lookup_lt_Some in H. by rewrite length_insert in H. }
    rewrite list_lookup_insert_eq in H by done. by inversion H.
  - right. rewrite list_lookup_insert_ne in H by done. split; [congruence | done].
Qed.







(** ** The fair schedule lets [ParallelNode.ImplTask] return *)

Ltac running :=
  unfold has_returned; cbn [crashed main];
  repeat match goal with H : main _ = _ |- _ => rewrite H end;
  done.

Lemma par_step_running node fs ps t :
  crashed ps = false -> has_returned ps = false ->
  par_step node fs ps t =
    match t with
    | TWorker i => worker_step node fs i ps
    | TCloser => closer_step ps
    | TMain => main_step ps
    end.
Proof. intros Hc Hr. unfold par_step. by rewrite Hc, Hr. Qed.

Lemma has_returned_MRange ps r : main ps = MRange r -> has_returned ps = false.
Proof. intros H. unfold has_returned. by rewrite H. Qed.

(** One task runs from its start to its end: three steps, with or without a
    panic of its closure. *)
Lemma par_run_cons node fs t sched ps :
  par_run node fs (t :: sched) ps = par_run node fs sched (par_step node fs ps t).
Proof. done. Qed.

Lemma par_run_nil node fs ps : par_run node fs [] ps = ps.
Proof. done. Qed.

Lemma fair_phase_step node fs init j ps :
  (j < length fs)%nat ->
  fair_phase fs init j ps ->
  fair_phase fs init (S j)
    (par_run node fs [TWorker j; TWorker j; TWorker j] ps).
Proof.
  intros Hj [Hcr Hcl Hcloser Hm Hlen Hready Hwg Hchan Htaken].
  assert (workers ps !! j = Some WReady) as Hw by (apply Hready; lia).
  destruct (lookup_lt_is_Some_2 fs j Hj) as [f Hf].
  assert (j < length (workers ps))%nat as Hjw by lia.
  assert ((length fs <=? length (chan ps))%nat = false) as Hroom
    by (apply Nat.leb_gt; lia).
  assert ((wg ps - 1 <? 0) = false) as Hdone by lia.
  (* the call *)
  rewrite par_run_cons, par_step_running by running.
  unfold worker_step at 1. rewrite Hw, Hf. unfold call_functor.
  destruct (f (data (shared ps))) as [d [r|]].
  - (* the closure returns: send, then [wg.Done()] *)
    rewrite par_run_cons, par_step_running by running.
    unfold worker_step at 1. cbn [workers].
    rewrite list_lookup_insert_eq by done. rewrite Hf.
    unfold send. cbn [closed chan]. rewrite Hcl, Hroom.
    rewrite par_run_cons, par_step_running by running.
    unfold worker_step. cbn [workers].
    rewrite list_lookup_insert_eq by (by rewrite length_insert). rewrite Hf.
    unfold wg_Done. cbn [wg]. rewrite Hdone, par_run_nil.
    constructor; cbn; try done.
    + by rewrite !length_insert.
    + intros i Hi. rewrite !list_lookup_insert_ne by lia. apply Hready. lia.
    + lia.
    + rewrite length_app. simpl. lia.
  - (* the closure panics: [wg.Done()], then the fault result is sent *)
    rewrite par_run_cons, par_step_running by running.
    unfold worker_step at 1. cbn [workers].
    rewrite list_lookup_insert_eq by done. rewrite Hf.
    unfold wg_Done. cbn [wg]. rewrite Hdone.
    rewrite par_run_cons, par_step_running by running.
    unfold worker_step. cbn [workers].
    rewrite list_lookup_insert_eq by (by rewrite length_insert). rewrite Hf.
    unfold send. cbn [closed chan]. rewrite Hcl, Hroom, par_run_nil.
    constructor; cbn; try done.
    + by rewrite !length_insert.
    + intros i Hi. rewrite !list_lookup_insert_ne by lia. apply Hready. lia.
    + lia.
    + rewrite length_app. simpl. lia.
Qed.

Lemma par_run_app node fs s1 s2 ps :
  par_run node fs (s1 ++ s2) ps = par_run node fs s2 (par_run node fs s1 ps).
Proof. apply fold_left_app. Qed.

Lemma fair_phase_tasks node fs init : forall m j ps,
  (j + m = length fs)%nat ->
  fair_phase fs init j ps ->
  fair_phase fs init (length fs)
    (par_run node fs
       (flat_map (fun i => [TWorker i; TWorker i; TWorker i]) (seq j m)) ps).
Proof.
  induction m as [|m IH]; intros j ps Hjm Hp.
  - simpl. by replace (length fs) with j by lia.
  - cbn [seq flat_map].
    rewrite (par_run_app node fs [TWorker j; TWorker j; TWorker j]).
    apply IH; [lia|]. apply fair_phase_step; [lia | done].
Qed.

(** With the channel closed, the caller receives what is buffered and
    returns. *)
Lemma main_drains node fs : forall items ps r,
  crashed ps = false -> closed ps = true ->
  chan ps = items -> main ps = MRange r ->
  crashed (par_run node fs (repeat TMain (S (length items))) ps) = false /\
  main (par_run node fs (repeat TMain (S (length items))) ps)
    = MReturned (aggregate r items) /\
  taken (par_run node fs (repeat TMain (S (length items))) ps)
    = taken ps ++ items.
Proof.
  induction items as [|item items IH]; intros ps r Hcr Hcl Hch Hm.
  - change (repeat TMain (S (length (@nil (option ResultTest))))) with [TMain].
    rewrite par_run_cons, par_step_running, par_run_nil by running.
    unfold main_step. rewrite Hm, Hch, Hcl. cbn.
    split_and!; try done. by rewrite app_nil_r.
  - change (repeat TMain (S (length (item :: items))))
      with (TMain :: repeat TMain (S (length items))).
    rewrite par_run_cons, par_step_running by running.
    unfold main_step. rewrite Hm, Hch.
    match goal with
    | |- context [par_run _ _ _ ?x] => set (ps1 := x)
    end.
    destruct (IH ps1 (collect r item)) as (H1 & H2 & H3); try done.
    split_and!; try done.
    rewrite H3. subst ps1. cbn [taken]. by rewrite <- app_assoc.
Qed.

Lemma fair_schedule_returns node fs st :
  let ps := par_run node fs (fair_schedule (length fs)) (par_init fs st) in
  crashed ps = false /\
  main ps = MReturned (aggregate (Some (result st)) (taken ps)) /\
  length (taken ps) = length fs.
Proof.
  unfold fair_schedule. rewrite !par_run_app.
  assert (fair_phase fs (Some (result st)) 0 (par_init fs st)) as H0.
  { constructor; cbn; try done.
    - by rewrite length_map.
    - intros i Hi. rewrite list_lookup_fmap.
      destruct (lookup_lt_is_Some_2 fs i) as [f ->]; [lia | done].
    - lia. }
  apply (fair_phase_tasks node fs _ (length fs) 0) in H0; [|done].
  set (ps1 := par_run node fs (flat_map _ _) _) in *.
  destruct H0 as [Hcr Hcl Hcloser Hm Hlen Hready Hwg Hchan Htaken].
  (* the closer wakes up and closes the channel *)
  assert (par_run node fs [TCloser; TCloser] ps1 =
          mkPState (shared ps1) (workers ps1) (wg ps1) (chan ps1) true CExited
                   (main ps1) (taken ps1) (crashed ps1)) as ->.
  { rewrite par_run_cons, par_step_running by running.
    unfold closer_step at 1. rewrite Hcloser.
    replace (wg ps1 =? 0) with true by lia.
    by rewrite par_run_cons, par_step_running, par_run_nil by running. }
  (* the caller drains the channel *)
  rewrite <- Hchan.
  match goal with
  | |- context [par_run _ _ (repeat TMain _) ?ps2] =>
      destruct (main_drains node fs (chan ps1) ps2 (Some (result st)))
        as (H1 & H2 & H3); try done
  end.
  cbn [taken] in H3. cbn zeta.
  split_and!; [done | by rewrite H2, H3, Htaken | by rewrite H3, Htaken].
Qed.







(** ** The links the builders set point forward *)

Lemma append_node_links_forward n ns :
  Next (base n) = None -> links_forward ns -> links_forward (append_node n ns).
Proof.
  intros Hn Hl j m k Hj Hk. unfold append_node in Hj.
  destruct (length ns) as [|last] eqn:Hlen.
  - destruct j; simpl in Hj; [|done]. inversion Hj; subst. congruence.
  - destruct (decide (j < length ns)%nat) as [Hlt|Hge].
    + rewrite lookup_app_l in Hj by (rewrite length_alter; lia).
      destruct (decide (j = last)) as [->|Hne].
      * rewrite list_lookup_alter_eq in Hj.
        destruct (ns !! last) as [m0|]; simpl in Hj; [|done].
        inversion Hj; subst m. simpl in Hk. inversion Hk. lia.
      * rewrite list_lookup_alter_ne in Hj by done. by apply (Hl j m k).
    + rewrite lookup_app_r in Hj by (rewrite length_alter; lia).
      rewrite length_alter in Hj.
      destruct (j - length ns)%nat; simpl in Hj; [|done].
      inversion Hj; subst. congruence.
Qed.

(** [ElseIf] and [Else] on a slice that is not empty append as the other
    builders do; on an empty slice they panic and change nothing. *)
Lemma link_and_append_nonempty n ns :
  ns <> [] -> link_and_append n ns = Some (append_node n ns).
Proof.
  intros Hne. unfold link_and_append, append_node.
  destruct ns as [|m ns]; [done|]. done.
Qed.

Lemma ElseIf_nonempty cond fs e :
  nodes (store (invoker e)) <> [] ->
  ElseFlow.ElseIf cond fs e =
    (ElseFlow.with_invoker (add_node (NewElseIfNode cond fs) (invoker e)) e, Done).
Proof.
  intros Hne. unfold ElseFlow.ElseIf. by rewrite link_and_append_nonempty.
Qed.

Lemma Else_nonempty fs e :
  nodes (store (invoker e)) <> [] ->
  ElseFlow.Else fs e = (add_node (NewElseNode fs) (invoker e), Done).
Proof.
  intros Hne. unfold ElseFlow.Else. by rewrite link_and_append_nonempty.
Qed.

Lemma ElseIf_empty cond fs e :
  nodes (store (invoker e)) = [] -> ElseFlow.ElseIf cond fs e = (e, Crashed).
Proof. intros Hnil. unfold ElseFlow.ElseIf. by rewrite Hnil. Qed.

Lemma Else_empty fs e :
  nodes (store (invoker e)) = [] -> ElseFlow.Else fs e = (invoker e, Crashed).
Proof. intros Hnil. unfold ElseFlow.Else. by rewrite Hnil. Qed.

(** Every builder call that appends a node does it as [append_node] does, so
    the stores the builders make satisfy [links_forward]. *)
Lemma builders_link_forward c :
  links_forward (nodes (store c)) ->
  (forall fs, links_forward (nodes (store (Flow.Do fs c)))) /\
  (forall times fs, links_forward (nodes (store (Flow.For times fs c)))) /\
  (forall fs, links_forward (nodes (store (Flow.Parallel fs c)))) /\
  (forall cond fs, links_forward (nodes (store (invoker (Flow.If cond fs c))))) /\
  (forall e, invoker e = c ->
     (forall cond fs,
        links_forward (nodes (store (invoker (fst (ElseFlow.ElseIf cond fs e)))))) /\
     (forall fs, links_forward (nodes (store (fst (ElseFlow.Else fs e)))))).
Proof.
  intros Hl. split_and!; intros; subst; try split; intros; simpl;
    try (by apply append_node_links_forward).
  - destruct (nodes (store (invoker e))) as [|m ns] eqn:Hns.
    + rewrite ElseIf_empty by done. simpl. by rewrite Hns.
    + rewrite ElseIf_nonempty by (by rewrite Hns). simpl. rewrite Hns.
      by apply append_node_links_forward.
  - destruct (nodes (store (invoker e))) as [|m ns] eqn:Hns.
    + rewrite Else_empty by done. simpl. by rewrite Hns.
    + rewrite Else_nonempty by (by rewrite Hns). simpl. rewrite Hns.
      by apply append_node_links_forward.
Qed.

Lemma NewFlowEngine_links_forward : links_forward (nodes (store NewFlowEngine)).
Proof. intros j m k Hj. done. Qed.

(** ** Where the items a [ParallelNode] collects come from *)

Lemma pc_origin_mono fs items items' i pc :
  (forall x, In x items -> In x items') ->
  pc_origin fs items i pc -> pc_origin fs items' i pc.
Proof.
  intros Hsub. destruct pc; simpl; try done.
  - intros (r & Hr & Hin). exists r. split; [done | by apply Hsub].
  - intros [(r & Hr & Hin) | Hp]; [left | by right].
    exists r. split; [done | by apply Hsub].
Qed.

Lemma par_origin_init fs st : par_origin fs (par_init fs st).
Proof.
  constructor; simpl; try done.
  - by rewrite length_map.
  - by rewrite count_init.
  - intros i pc Hi. rewrite list_lookup_fmap in Hi.
    destruct (fs !! i); simpl in Hi; [|done]. by inversion Hi; subst.
Qed.

Lemma par_origin_crash fs ps : par_origin fs ps -> par_origin fs (crash ps).
Proof. intros [? ? ? ? ? ? ?]. by constructor. Qed.

Lemma worker_step_origin node fs i ps :
  par_origin fs ps -> par_origin fs (worker_step node fs i ps).
Proof.
  intros Hinv. unfold worker_step.
  destruct (workers ps !! i) as [pc|] eqn:Hi; [|done].
  destruct (fs !! i) as [f|] eqn:Hf; [|done].
  pose proof Hinv as Hsame.
  destruct Hinv as [Hlen Hwg Hcloser Hclosed Hret Hitems Hpc].
  pose proof (Hpc i pc Hi) as Hme.
  destruct pc as [|r| | | |]; try done.
  - (* the closure is called *)
    unfold call_functor.
    destruct (f (data (shared ps))) as [d o] eqn:Hfd.
    assert (snd (f (data (shared ps))) = o) as Ho by (by rewrite Hfd).
    assert (active (match o with Return r => WReturned r | Panics => WPanicked end)
            = true) as Hact by (by destruct o).
    pose proof (count_insert active _ i WReady
                  (match o with Return r => WReturned r | Panics => WPanicked end) Hi)
      as Ca.
    rewrite Hact in Ca. simpl in Ca.
    constructor; simpl; try done.
    + by rewrite length_insert.
    + lia.
    + intros j pc Hj. apply lookup_insert_cases in Hj as [[-> ->] | [Hne Hj]].
      * destruct o as [r|]; simpl; by exists f, (data (shared ps)).
      * by apply Hpc.
  - (* the result is sent *)
    unfold send. destruct (closed ps) eqn:Hcl; [by apply par_origin_crash|].
    destruct (_ <=? _)%nat; [exact Hsame|].
    pose proof (count_insert active _ i (WReturned r) WSent Hi) as Ca.
    simpl in Ca.
    constructor; simpl; try done.
    + by rewrite length_insert.
    + lia.
    + intros Hr. by destruct (Hret Hr).
    + intros item Hin. rewrite <- app_assoc in Hin.
      apply in_app_or in Hin as [Hin | Hin].
      * apply Hitems. apply in_or_app. by left.
      * destruct Hin as [<- | Hin].
        -- exists i. destruct Hme as (f' & d & Hf' & Hr).
           exists f', d. split; [done|]. by rewrite Hr.
        -- apply Hitems. apply in_or_app. by right.
    + intros j pc Hj. apply lookup_insert_cases in Hj as [[-> ->] | [Hne Hj]].
      * simpl. exists r. split; [done|].
        apply in_or_app. left. apply in_or_app. right. by left.
      * apply (pc_origin_mono fs (chan ps ++ taken ps)); [|by apply Hpc].
        intros x Hx. apply in_app_or in Hx as [Hx | Hx].
        -- apply in_or_app. left. apply in_or_app. by left.
        -- apply in_or_app. by right.
  - (* [wg.Done()] after the send *)
    unfold wg_Done.
    pose proof (active_positive _ i WSent Hi eq_refl) as Hpos.
    destruct (_ <? _) eqn:Hneg; [by apply par_origin_crash|].
    pose proof (count_insert active _ i WSent WExited Hi) as Ca.
    simpl in Ca.
    constructor; simpl; try done.
    + by rewrite length_insert.
    + lia.
    + intros Hc. specialize (Hcloser Hc). lia.
    + intros j pc Hj. apply lookup_insert_cases in Hj as [[-> ->] | [Hne Hj]].
      * simpl. by left.
      * by apply Hpc.
  - (* the deferred [wg.Done()] after a panic *)
    unfold wg_Done.
    pose proof (active_positive _ i WPanicked Hi eq_refl) as Hpos.
    destruct (_ <? _) eqn:Hneg; [by apply par_origin_crash|].
    pose proof (count_insert active _ i WPanicked WRecovered Hi) as Ca.
    simpl in Ca.
    constructor; simpl; try done.
    + by rewrite length_insert.
    + lia.
    + intros Hc. specialize (Hcloser Hc). lia.
    + intros j pc Hj. apply lookup_insert_cases in Hj as [[-> ->] | [Hne Hj]].
      * done.
      * by apply Hpc.
  - (* the fault result is sent *)
    unfold send. destruct (closed ps) eqn:Hcl; [by apply par_origin_crash|].
    destruct (_ <=? _)%nat; [exact Hsame|].
    pose proof (count_insert active _ i WRecovered WExited Hi) as Ca.
    simpl in Ca.
    constructor; simpl; try done.
    + by rewrite length_insert.
    + lia.
    + intros Hr. by destruct (Hret Hr).
    + intros item Hin. rewrite <- app_assoc in Hin.
      apply in_app_or in Hin as [Hin | Hin].
      * apply Hitems. apply in_or_app. by left.
      * destruct Hin as [<- | Hin].
        -- exists i. destruct Hme as (f' & d & Hf' & Hp).
           exists f', d. split; [done|]. by rewrite Hp.
        -- apply Hitems. apply in_or_app. by right.
    + intros j pc Hj. apply lookup_insert_cases in Hj as [[-> ->] | [Hne Hj]].
      * simpl. by right.
      * apply (pc_origin_mono fs (chan ps ++ taken ps)); [|by apply Hpc].
        intros x Hx. apply in_app_or in Hx as [Hx | Hx].
        -- apply in_or_app. left. apply in_or_app. by left.
        -- apply in_or_app. by right.
Qed.

Lemma closer_step_origin fs ps : par_origin fs ps -> par_origin fs (closer_step ps).
Proof.
  intros Hinv. unfold closer_step.
  pose proof Hinv as Hsame.
  destruct Hinv as [Hlen Hwg Hcloser Hclosed Hret Hitems Hpc].
  destruct (closer ps) eqn:Hc.
  - destruct (wg ps =? 0) eqn:H0; [|exact Hsame].
    constructor; simpl; try done.
    + intros _. lia.
    + intros Hcl. specialize (Hclosed Hcl). congruence.
  - constructor; simpl; try done.
    + intros _. apply Hcloser. discriminate.
    + intros Hr. by destruct (Hret Hr).
  - exact Hsame.
Qed.

Lemma main_step_origin fs ps : par_origin fs ps -> par_origin fs (main_step ps).
Proof.
  intros Hinv. unfold main_step.
  destruct (main ps) as [r|r] eqn:Hm; [|done].
  pose proof Hinv as Hsame.
  destruct Hinv as [Hlen Hwg Hcloser Hclosed Hret Hitems Hpc].
  destruct (chan ps) as [|item rest] eqn:Hch.
  - destruct (closed ps) eqn:Hcl; [by constructor | exact Hsame].
  - assert (forall x, In x (rest ++ taken ps ++ [item]) <->
                      In x ((item :: rest) ++ taken ps)) as Hsame_items.
    { intros x. rewrite !in_app_iff. simpl. tauto. }
    constructor; simpl; try done.
    + intros x Hx. apply Hitems. by apply Hsame_items.
    + intros j pc Hj.
      apply (pc_origin_mono fs ((item :: rest) ++ taken ps)); [|by apply Hpc].
      intros x Hx. by apply Hsame_items.
Qed.

Lemma par_step_origin node fs ps t :
  par_origin fs ps -> par_origin fs (par_step node fs ps t).
Proof.
  intros Hinv. unfold par_step.
  destruct (crashed ps || has_returned ps); [done|].
  destruct t.
  - by apply worker_step_origin.
  - by apply closer_step_origin.
  - by apply main_step_origin.
Qed.

Lemma par_run_origin node fs sched : forall ps,
  par_origin fs ps -> par_origin fs (par_run node fs sched ps).
Proof.
  induction sched as [|t sched IH]; intros ps Hinv; [done|].
  simpl. apply IH. by apply par_step_origin.
Qed.

(** When the caller has its result, every item it has received is an item
    of a task, and the item of every task whose closure does not panic is
    among them. *)
Lemma par_origin_returned fs ps :
  par_origin fs ps -> has_returned ps = true ->
  (forall item, In item (taken ps) -> exists i, produced_by fs i item) /\
  (forall i (f : ICallable), fs !! i = Some f -> never_panics f ->
     exists d, In (item_of (snd (f d))) (taken ps)).
Proof.
  intros [Hlen Hwg Hcloser Hclosed Hret Hitems Hpc] Hr.
  destruct (Hret Hr) as [Hcl Hch].
  rewrite Hch in Hitems, Hpc. simpl in Hitems, Hpc.
  split; [done|]. intros i f Hf Hnp.
  assert (wg ps = 0) as H0.
  { apply Hcloser. rewrite (Hclosed Hcl). discriminate. }
  destruct (lookup_lt_is_Some_2 (workers ps) i) as [pc Hi].
  { rewrite Hlen. by eapply lookup_lt_Some. }
  assert (active pc = false) as Hact.
  { apply (count_zero active (workers ps) i); [lia | done]. }
  assert (forall (f' : ICallable) d, fs !! i = Some f' -> snd (f' d) = Panics -> False)
    as Hnever.
  { intros f' d Hf' Hp. assert (f' = f) as -> by congruence. by apply (Hnp d). }
  specialize (Hpc i pc Hi).
  destruct pc; simpl in Hpc; try done.
  - destruct Hpc as (f' & d & Hf' & Hp). destruct (Hnever f' d Hf' Hp).
  - destruct Hpc as [(r & (f' & d & Hf' & Hret') & Hin) | (f' & d & Hf' & Hp)].
    + assert (f' = f) as -> by congruence.
      exists d. by rewrite Hret'.
    + destruct (Hnever f' d Hf' Hp).
Qed.

Lemma ParallelNode_ImplTask_origin sched node fs st r :
  snd (ParallelNode_ImplTask sched node fs st) = Returned r ->
  let arrived := taken (par_run node fs sched (par_init fs st)) in
  r = aggregate (Some (result st)) arrived /\
  (forall item, In item arrived -> exists i, produced_by fs i item) /\
  (forall i (f : ICallable), fs !! i = Some f -> never_panics f ->
     exists d, In (item_of (snd (f d))) arrived).
Proof.
  intros H arrived. subst arrived.
  pose proof (par_run_origin node fs sched (par_init fs st) (par_origin_init fs st))
    as Hinv.
  pose proof (par_run_aggregate node fs (Some (result st)) sched (par_init fs st)
                eq_refl) as Hagg.
  unfold ParallelNode_ImplTask in H.
  destruct (crashed _); [done|].
  destruct (main (par_run node fs sched (par_init fs st))) as [r'|r'] eqn:Hm;
    [done|].
  simpl in H. injection H as ->.
  split; [done|].
  apply par_origin_returned; [done|]. unfold has_returned. by rewrite Hm.
Qed.

(** The first failing item of a list that has one. *)
Lemma first_failing_split (items : list (option ResultTest)) :
  existsb is_failing items = true ->
  exists pre x post,
    items = pre ++ x :: post /\ Forall not_failing pre /\ is_failing x = true.
Proof.
  induction items as [|y items IH]; simpl; [done|].
  destruct (is_failing y) eqn:Hy.
  - intros _. exists [], y, items. by split_and!.
  - intros H. destruct (IH H) as (pre & x & post & -> & Hpre & Hx).
    exists (y :: pre), x, post. split_and!; [done | by constructor | done].
Qed.

(** C4. Let the cell not be failing when a [ParallelNode] starts to collect
    (its [Run] has passed the gate).  Whatever the arrival order, the first
    failing result in that order is what the collecting loop ends with, and
    no result that arrives later replaces it; so when exactly one of the
    results is failing, that result is the outcome under every arrival order,
    and whether the outcome is failing does not depend on the arrival order.
    At the node, under every schedule of its goroutines under which
    [ImplTask] returns: it returns this fold over the items the caller has
    received; every received item is the item of one of the node's tasks;
    the item of every task whose closure does not panic has been received.
    Hence a closure that fails makes the node's result failing; when the
    other closures never fail, the node returns a failing result of that
    closure; and when no closure fails, the node's result is not failing.
    Under the fair schedule [ImplTask] does return. *)
Theorem first_failing_arrival_wins init items :
  not_failing init ->
  (forall pre x post,
     items = pre ++ x :: post ->
     Forall not_failing pre -> is_failing x = true ->
     aggregate init items = x /\
     forall later, aggregate init (items ++ later) = x) /\
  (forall pre x post order,
     items = pre ++ x :: post ->
     Forall not_failing pre -> Forall not_failing post -> is_failing x = true ->
     Permutation items order ->
     aggregate init order = x) /\
  (forall order,
     Permutation items order ->
     is_failing (aggregate init order) = is_failing (aggregate init items)) /\
  (forall sched node fs st r,
     init = Some (result st) ->
     snd (ParallelNode_ImplTask sched node fs st) = Returned r ->
     let arrived := taken (par_run node fs sched (par_init fs st)) in
     r = aggregate init arrived /\
     (forall item, In item arrived -> exists i, produced_by fs i item) /\
     (forall i (f : ICallable), fs !! i = Some f -> never_panics f ->
        exists d, In (item_of (snd (f d))) arrived) /\
     (forall i f, fs !! i = Some f -> always_fails f -> is_failing r = true) /\
     (forall i (f : ICallable), fs !! i = Some f -> always_fails f ->
        (forall j g, j <> i -> fs !! j = Some g -> never_fails g) ->
        exists d d' x,
          f d = (d', Return (Some x)) /\ failing x = true /\ r = Some x) /\
     ((forall j g, fs !! j = Some g -> never_fails g) -> is_failing r = false)) /\
  (forall node fs st,
     exists r,
       snd (ParallelNode_ImplTask (fair_schedule (length fs)) node fs st)
         = Returned r).
Proof.
  intros Hinit. split_and!.
  - intros pre x post -> Hpre Hx. split.
    + by apply aggregate_first_failing.
    + intros later. rewrite <- app_assoc. simpl.
      by apply aggregate_first_failing.
  - intros pre x post order -> Hpre Hpost Hx Hperm.
    assert (In x order) as Hin.
    { apply (Permutation_in _ Hperm). apply in_elt. }
    apply in_split in Hin as (pre' & post' & ->).
    apply Permutation_app_inv in Hperm.
    apply aggregate_first_failing; [done| |done].
    assert (Forall not_failing (pre' ++ post')) as Hall.
    { apply (Permutation_Forall Hperm). apply Forall_app. by split. }
    by apply Forall_app in Hall as [? _].
  - intros order Hperm.
    rewrite !is_failing_aggregate by done.
    symmetry. by apply existsb_Permutation.
  - intros sched node fs st r -> H arrived.
    destruct (ParallelNode_ImplTask_origin sched node fs st r H)
      as (Hr & Hsound & Hcomplete).
    fold arrived in Hr, Hsound, Hcomplete.
    assert (forall i f, fs !! i = Some f -> always_fails f ->
              existsb is_failing arrived = true) as Hsome.
    { intros i f Hf Hfail.
      destruct (Hcomplete i f Hf) as [d Hin].
      { intros d. destruct (Hfail d) as (d' & x & -> & _). done. }
      apply existsb_exists. exists (item_of (snd (f d))). split; [done|].
      destruct (Hfail d) as (d' & x & -> & Hx). done. }
    split_and!; try done.
    + intros i f Hf Hfail. rewrite Hr, is_failing_aggregate by done.
      by apply (Hsome i f).
    + intros i f Hf Hfail Hothers.
      destruct (first_failing_split arrived (Hsome i f Hf Hfail))
        as (pre & x & post & Harr & Hpre & Hx).
      assert (r = x) as ->.
      { rewrite Hr, Harr. by apply aggregate_first_failing. }
      destruct (Hsound x) as (j & g & d & Hg & Hitem).
      { rewrite Harr. apply in_elt. }
      destruct (decide (j = i)) as [->|Hne].
      * assert (g = f) as -> by congruence.
        destruct (Hfail d) as (d' & y & Hfd & Hy).
        exists d, d', y. rewrite Hfd in Hitem. by split_and!.
      * destruct (Hothers j g Hne Hg d) as (d' & y & Hgd & Hy).
        rewrite Hgd in Hitem. simpl in Hitem. subst x.
        unfold not_failing in Hy. congruence.
    + intros Hall. rewrite Hr, is_failing_aggregate by done.
      apply not_true_is_false. intros Hex.
      apply existsb_exists in Hex as (x & Hin & Hx).
      destruct (Hsound x Hin) as (j & g & d & Hg & Hitem).
      destruct (Hall j g Hg d) as (d' & y & Hgd & Hy).
      rewrite Hgd in Hitem. simpl in Hitem. subst x.
      unfold not_failing in Hy. congruence.
  - intros node fs st.
    destruct (fair_schedule_returns node fs st) as (Hcr & Hm & _).
    unfold ParallelNode_ImplTask. rewrite Hcr, Hm. eauto.
Qed.

(** Three results of which the second is failing, and an arrival order in
    which it comes last; and [Parallel(Func1, Func8)], where [Func8] fails:
    the node returns the result of [Func8], when it is called last and its
    item arrives last, and when it is called first and the item of [Func1]
    arrives after it. *)
Lemma first_failing_arrival_wins_witness :
  let fail := Some (mkResult (Some (ErrorsNew "something wrong")) 0 "" 2) in
  let ok := Some (mkResult None 0 "" 2) in
  let st := mkState new_DataTest empty_result [] [] in
  (aggregate (Some empty_result) [ok; fail; None] = fail /\
   aggregate (Some empty_result) [None; ok; fail] = fail) /\
  (snd (ParallelNode_ImplTask (fair_schedule 2) 0 [Func1; Func8] st) =
     Returned (Some (mkResult (Some (ErrorsNew "something wrong")) 0 "" 3)) /\
   snd (ParallelNode_ImplTask interleaved_schedule 0 [Func1; Func8] st) =
     Returned (Some (mkResult (Some (ErrorsNew "something wrong")) 0 "" 2)) /\
   is_failing (Some (mkResult (Some (ErrorsNew "something wrong")) 0 "" 2)) = true).
Proof.
  intros fail ok st.
  destruct (first_failing_arrival_wins (Some empty_result) [ok; fail; None])
    as (H1 & H2 & _ & H4 & _).
  - reflexivity.
  - split.
    + split.
      * apply (H1 [ok] fail [None]).
        -- reflexivity.
        -- by repeat constructor.
        -- reflexivity.
      * apply (H2 [ok] fail [None] [None; ok; fail]).
        -- reflexivity.
        -- by repeat constructor.
        -- by repeat constructor.
        -- reflexivity.
        -- apply Permutation_sym. apply (Permutation_cons_app [ok; fail] []).
           reflexivity.
    + assert (snd (ParallelNode_ImplTask interleaved_schedule 0 [Func1; Func8] st) =
              Returned (Some (mkResult (Some (ErrorsNew "something wrong")) 0 "" 2)))
        as Hret by (vm_compute; reflexivity).
      split_and!; [vm_compute; reflexivity | exact Hret |].
      destruct (H4 interleaved_schedule 0%nat [Func1; Func8] st _ eq_refl Hret)
        as (_ & _ & _ & Hfails & _).
      apply (Hfails 1%nat Func8); [reflexivity|].
      intros d. eexists _, _. split; reflexivity.
Defined.

(** * Further properties of the code *)

(** ** The builders keep the links in step with the slice *)

Lemma append_node_lookup_old n ns j m :
  ns !! j = Some m ->
  append_node n ns !! j =
    Some (if decide (S j = length ns) then SetNext (Some (length ns)) m else m).
Proof.
  intros Hj. pose proof (lookup_lt_Some _ _ _ Hj) as Hlt.
  unfold append_node. destruct (length ns) as [|last] eqn:Hlen; [lia|].
  rewrite lookup_app_l by (rewrite length_alter; lia).
  destruct (decide (S j = S last)) as [Heq|Hne].
  - assert (j = last) as -> by lia.
    rewrite list_lookup_alter_eq, Hj. done.
  - rewrite list_lookup_alter_ne by lia. done.
Qed.

Lemma append_node_length n ns : length (append_node n ns) = S (length ns).
Proof.
  unfold append_node. destruct (length ns) as [|last] eqn:Hlen.
  - by destruct ns.
  - rewrite length_app, length_alter. simpl. lia.
Qed.

Lemma append_node_lookup_new n ns : append_node n ns !! length ns = Some n.
Proof.
  unfold append_node. destruct (length ns) as [|last] eqn:Hlen; [done|].
  rewrite lookup_app_r by (rewrite length_alter; lia).
  rewrite length_alter, Hlen. by rewrite Nat.sub_diag.
Qed.

Lemma append_node_well_linked n ns :
  Next (base n) = None -> well_linked ns -> well_linked (append_node n ns).
Proof.
  intros Hn Hl j m Hj. rewrite append_node_length.
  destruct (decide (j < length ns)%nat) as [Hlt|Hge].
  - destruct (lookup_lt_is_Some_2 ns j Hlt) as [m0 Hm0].
    rewrite (append_node_lookup_old n ns j m0 Hm0) in Hj.
    specialize (Hl j m0 Hm0).
    destruct (decide (S j = length ns)) as [Heq|Hne].
    + inversion Hj; subst m. simpl.
      rewrite decide_True by lia. by rewrite Heq.
    + inversion Hj; subst m. rewrite Hl.
      rewrite decide_True by lia. by rewrite decide_True by lia.
  - assert (j = length ns) as ->.
    { apply lookup_lt_Some in Hj. rewrite append_node_length in Hj. lia. }
    rewrite append_node_lookup_new in Hj. inversion Hj; subst m.
    rewrite Hn. by rewrite decide_False by lia.
Qed.

(** What one builder call does to the store. *)
Lemma add_node_spec n c :
  Next (base n) = None ->
  well_linked (nodes (store c)) ->
  let ns := nodes (store c) in
  let ns' := nodes (store (add_node n c)) in
  well_linked ns' /\
  length ns' = S (length ns) /\
  ns' !! length ns = Some n /\
  (forall j m, ns !! j = Some m ->
     exists m', ns' !! j = Some m' /\ relinked m m') /\
  data (store (add_node n c)) = data (store c) /\
  result (store (add_node n c)) = result (store c) /\
  trace (store (add_node n c)) = trace (store c).
Proof.
  intros Hn Hl ns ns'. subst ns ns'. simpl. split_and!; try done.
  - by apply append_node_well_linked.
  - apply append_node_length.
  - apply append_node_lookup_new.
  - intros j m Hj. rewrite (append_node_lookup_old n _ j m Hj).
    eexists. split; [done|]. unfold relinked.
    destruct (decide _); by destruct m as [[] ?].
Qed.

(** X1. Each of [Do], [For], [Parallel] and [If], on a flow or on a
    conditional sub-builder, appends exactly one node, of the kind it names
    and with the closures (and condition) it was given, at the end of the
    slice; it changes no field of an older node but the link of the previous
    last node; and it keeps the links in step with the slice: afterwards
    every node points to the node after it and the new node to nothing.  The
    context, the cell and the trace are not touched.  [ElseIf] and [Else] do
    the same when the slice is not empty; on an empty slice they panic and
    leave the engines as they were. *)
Theorem builders_append_one_linked_node c :
  well_linked (nodes (store c)) ->
  let appends (n : Node) (c' : FlowEngine) : Prop :=
    well_linked (nodes (store c')) /\
    length (nodes (store c')) = S (length (nodes (store c))) /\
    nodes (store c') !! length (nodes (store c)) = Some n /\
    (forall j m, nodes (store c) !! j = Some m ->
       exists m', nodes (store c') !! j = Some m' /\ relinked m m') /\
    data (store c') = data (store c) /\
    result (store c') = result (store c) /\
    trace (store c') = trace (store c) in
  (forall fs, appends (NewNormalNode fs) (Flow.Do fs c)) /\
  (forall times fs, appends (NewForNode times fs) (Flow.For times fs c)) /\
  (forall fs, appends (NewParallelNode fs) (Flow.Parallel fs c)) /\
  (forall cond fs, appends (NewIfNode cond fs) (invoker (Flow.If cond fs c))) /\
  (forall e, invoker e = c ->
     (forall cond fs, appends (NewIfNode cond fs) (invoker (ElseFlow.If cond fs e))) /\
     (forall fs, appends (NewNormalNode fs) (ElseFlow.Do fs e)) /\
     (forall times fs, appends (NewForNode times fs) (ElseFlow.For times fs e)) /\
     (forall fs, appends (NewParallelNode fs) (ElseFlow.Parallel fs e)) /\
     (forall cond fs,
        (nodes (store c) <> [] ->
         snd (ElseFlow.ElseIf cond fs e) = Done /\
         appends (NewElseIfNode cond fs) (invoker (fst (ElseFlow.ElseIf cond fs e)))) /\
        (nodes (store c) = [] -> ElseFlow.ElseIf cond fs e = (e, Crashed))) /\
     (forall fs,
        (nodes (store c) <> [] ->
         snd (ElseFlow.Else fs e) = Done /\
         appends (NewElseNode fs) (fst (ElseFlow.Else fs e))) /\
        (nodes (store c) = [] -> ElseFlow.Else fs e = (c, Crashed)))).
Proof.
  intros Hl appends.
  assert (forall n, Next (base n) = None -> appends n (add_node n c)) as H.
  { intros n Hn. by apply add_node_spec. }
  split_and!; try (intros; by apply H).
  intros e <-. split_and!; try (intros; by apply H).
  - intros cond fs. split.
    + intros Hne. rewrite ElseIf_nonempty by done. split; [done|]. by apply H.
    + intros Hnil. by apply ElseIf_empty.
  - intros fs. split.
    + intros Hne. rewrite Else_nonempty by done. split; [done|]. by apply H.
    + intros Hnil. by apply Else_empty.
Qed.

(** [For] after [Do(Func1).If(CondFalse, Func2)], and [ElseIf] on the
    sub-builder that this [If] returns. *)
Lemma builders_append_one_linked_node_witness :
  let e := Flow.If (Some CondFalse) [Func2] (Flow.Do [Func1] NewFlowEngine) in
  let c := invoker e in
  (well_linked (nodes (store (Flow.For 3 [Func9] c))) /\
   length (nodes (store (Flow.For 3 [Func9] c))) = 3%nat /\
   nodes (store (Flow.For 3 [Func9] c)) !! 2%nat = Some (NewForNode 3 [Func9])) /\
  (snd (ElseFlow.ElseIf (Some CondTrue) [Func3] e) = Done /\
   nodes (store (invoker (fst (ElseFlow.ElseIf (Some CondTrue) [Func3] e)))) !! 2%nat
     = Some (NewElseIfNode (Some CondTrue) [Func3])).
Proof.
  intros e c.
  assert (well_linked (nodes (store c))) as Hl.
  { intros [|[|j]] m Hj; simpl in Hj; try discriminate Hj;
      injection Hj as <-; reflexivity. }
  destruct (builders_append_one_linked_node c Hl) as (_ & HFor & _ & _ & He).
  destruct (HFor 3 [Func9]) as (H1 & H2 & H3 & _).
  destruct (He e eq_refl) as (_ & _ & _ & _ & HElseIf & _).
  destruct (HElseIf (Some CondTrue) [Func3]) as [Hne _].
  destruct Hne as (H4 & _ & _ & H5 & _); [discriminate|].
  split; [split_and!; [exact H1 | exact H2 | exact H3] | split; [exact H4 | exact H5]].
Defined.

(** ** Running nodes changes skip flags of [ElseIf]/[Else] nodes only *)

Lemma flagged_from_refl m : flagged_from m m.
Proof. by left. Qed.

Lemma flagged_from_trans m1 m2 m3 :
  flagged_from m1 m2 -> flagged_from m2 m3 -> flagged_from m1 m3.
Proof.
  intros [-> | [Ht ->]] [-> | [Ht' ->]].
  - by left.
  - right. by split.
  - right. by split.
  - right. by split.
Qed.

Lemma Forall2_flagged_refl ns : Forall2 flagged_from ns ns.
Proof. induction ns; constructor; [by left | done]. Qed.

Lemma Forall2_flagged_trans ns1 ns2 ns3 :
  Forall2 flagged_from ns1 ns2 -> Forall2 flagged_from ns2 ns3 ->
  Forall2 flagged_from ns1 ns3.
Proof.
  intros H12. revert ns3.
  induction H12 as [|m1 m2 ns1 ns2 Hm H12 IH]; intros ns3 H23;
    inversion H23; subst; constructor.
  - by apply (flagged_from_trans _ m2).
  - by apply IH.
Qed.

Lemma Forall2_flagged_insert ns j m :
  ns !! j = Some m -> is_else_type (GetNodeType (base m)) = true ->
  Forall2 flagged_from ns (<[j := SetShouldSkip true m]> ns).
Proof.
  revert j. induction ns as [|m0 ns IH]; intros [|j] Hj Ht; simpl in *; try done.
  - inversion Hj; subst. constructor; [by right | apply Forall2_flagged_refl].
  - constructor; [by left | by apply IH].
Qed.

Lemma mark_skip_flags : forall fuel current ns ns',
  mark_skip fuel current ns = Some ns' -> Forall2 flagged_from ns ns'.
Proof.
  induction fuel as [|fuel IH]; intros [j|] ns ns' H; simpl in H;
    try (inversion H; subst; apply Forall2_flagged_refl).
  - destruct (ns !! j) as [m|]; [|inversion H; subst; apply Forall2_flagged_refl].
    destruct (is_else_type _); [done|].
    inversion H; subst; apply Forall2_flagged_refl.
  - destruct (ns !! j) as [m|] eqn:Hj;
      [|inversion H; subst; apply Forall2_flagged_refl].
    destruct (is_else_type _) eqn:Ht;
      [|inversion H; subst; apply Forall2_flagged_refl].
    apply IH in H.
    apply (Forall2_flagged_trans _ (<[j := SetShouldSkip true m]> ns)); [|done].
    by apply Forall2_flagged_insert.
Qed.

Lemma IfNode_ImplTask_flags node Condition n st st' ret :
  IfNode_ImplTask node Condition n st = (st', ret) ->
  Forall2 flagged_from (nodes st) (nodes st').
Proof.
  unfold IfNode_ImplTask. destruct Condition as [c|].
  - destruct (c (data st)) as [d b].
    destruct (if b then _ else _) as [st2 e] eqn:Hb.
    assert (nodes st2 = nodes st) as Hns.
    { destruct b.
      - by apply range_functors_frame in Hb as (_ & ? & _).
      - by inversion Hb; subst. }
    destruct e.
    + destruct (mark_skip _ _ _) as [ns|] eqn:Hm; intros H; inversion H; subst.
      * simpl. rewrite <- Hns. by apply mark_skip_flags in Hm.
      * rewrite Hns. apply Forall2_flagged_refl.
    + intros H; inversion H; subst. rewrite Hns. apply Forall2_flagged_refl.
    + intros H; inversion H; subst. rewrite Hns. apply Forall2_flagged_refl.
  - intros H; inversion H; subst. apply Forall2_flagged_refl.
Qed.

Lemma Run_flags sched node st :
  Forall2 flagged_from (nodes st) (nodes (fst (Run sched node st))).
Proof.
  destruct (nodes st !! node) as [n|] eqn:Hn.
  - destruct (impl n) as [c| |c| |t|t] eqn:Himpl;
      try (rewrite (Run_nodes sched node n st Hn) by (intros; congruence);
           apply Forall2_flagged_refl).
    + unfold Run. rewrite Hn. destruct (gated n st); [apply Forall2_flagged_refl|].
      unfold ImplTask. rewrite Himpl.
      destruct (IfNode_ImplTask _ _ _ _) as [st2 ret] eqn:Hi.
      apply IfNode_ImplTask_flags in Hi. rewrite call_BeginLogger_nodes in Hi.
      destruct ret as [[r|]| |]; simpl; try done;
        by rewrite call_EndLogger_nodes.
    + unfold Run. rewrite Hn. destruct (gated n st); [apply Forall2_flagged_refl|].
      unfold ImplTask. rewrite Himpl. unfold ElseIfNode_ImplTask.
      destruct (IfNode_ImplTask _ _ _ _) as [st2 ret] eqn:Hi.
      apply IfNode_ImplTask_flags in Hi. rewrite call_BeginLogger_nodes in Hi.
      destruct ret as [[r|]| |]; simpl; try done;
        by rewrite call_EndLogger_nodes.
  - unfold Run. rewrite Hn. apply Forall2_flagged_refl.
Qed.

Lemma run_nodes_flags scheds : forall l st,
  Forall2 flagged_from (nodes st) (nodes (fst (run_nodes scheds l st))).
Proof.
  induction l as [|node l IH]; intros st; simpl; [apply Forall2_flagged_refl|].
  pose proof (Run_flags (scheds node) node st) as H1.
  destruct (Run (scheds node) node st) as [st1 [| |]]; simpl in *; try done.
  by apply (Forall2_flagged_trans _ (nodes st1)).
Qed.

Lemma run_callbacks_nodes onS onF st : nodes (run_callbacks onS onF st) = nodes st.
Proof.
  unfold run_callbacks.
  destruct onS as [f|]; destruct onF as [g|]; simpl;
    repeat (match goal with |- context [if ?b then _ else _] => destruct b end;
            simpl); done.
Qed.

(** X2. Whatever the nodes are, however a node's run ends and whatever the
    schedules of its goroutines, running nodes, one or a whole flow with
    [Wait], leaves every node as it was or sets its skip flag, and it sets
    the skip flag of [ElseIf] and [Else] nodes only.  So the slice keeps its
    length; closures, conditions, links, hooks and notes never change; a skip
    flag is never cleared; and a Normal, If, For or Parallel node is never
    marked as skipped. *)
Theorem running_only_sets_else_skip_flags scheds l st c :
  Forall2 flagged_from (nodes st) (nodes (fst (run_nodes scheds l st))) /\
  Forall2 flagged_from (nodes (store c)) (nodes (store (fst (Flow.Wait scheds c)))) /\
  (forall node k m,
     nodes st !! k = Some m ->
     exists m', nodes (fst (Run (scheds node) node st)) !! k = Some m' /\
       Functors (base m') = Functors (base m) /\
       impl m' = impl m /\
       GetNodeType (base m') = GetNodeType (base m) /\
       Next (base m') = Next (base m) /\
       Note (base m') = Note (base m) /\
       (ShouldSkip (base m) = true -> ShouldSkip (base m') = true) /\
       (is_else_type (GetNodeType (base m)) = false ->
        ShouldSkip (base m') = ShouldSkip (base m))).
Proof.
  split_and!.
  - apply run_nodes_flags.
  - unfold Flow.Wait, finish_Wait.
    pose proof (run_nodes_flags scheds (seq 0 (length (nodes (store c)))) (store c))
      as H.
    destruct (run_nodes _ _ _) as [st' [| |]]; simpl in *; try done.
    by rewrite run_callbacks_nodes.
  - intros node k m Hk.
    pose proof (Run_flags (scheds node) node st) as H.
    destruct (Forall2_lookup_l _ _ _ _ _ H Hk) as (m' & Hk' & Hf).
    exists m'. split; [done|].
    destruct Hf as [-> | [Ht ->]]; [done|].
    split_and!; try done. intros Hne. congruence.
Qed.

(** ** A conditional marks nothing outside the run of siblings behind it *)

Lemma in_chain_insert_inv ns j m current k :
  ns !! j = Some m ->
  in_chain (<[j := SetShouldSkip true m]> ns) current k ->
  in_chain ns current k.
Proof.
  intros Hj Hc.
  assert (forall i mi, <[j := SetShouldSkip true m]> ns !! i = Some mi ->
            exists mi', ns !! i = Some mi' /\
              GetNodeType (base mi') = GetNodeType (base mi) /\
              Next (base mi') = Next (base mi)) as Hshape.
  { intros i mi Hi. destruct (decide (j = i)) as [->|Hne].
    - rewrite list_lookup_insert_eq in Hi by (by eapply lookup_lt_Some).
      inversion Hi; subst mi. by exists m.
    - rewrite list_lookup_insert_ne in Hi by done. by exists mi. }
  induction Hc as [i mi Hi Ht|i mi k Hi Ht Hc IH].
  - destruct (Hshape i mi Hi) as (mi' & Hi' & Hty & _).
    apply (in_chain_here _ i mi'); [done | by rewrite Hty].
  - destruct (Hshape i mi Hi) as (mi' & Hi' & Hty & Hnx).
    apply (in_chain_next _ i mi'); [done | by rewrite Hty | by rewrite Hnx].
Qed.

Lemma mark_skip_confined : forall fuel current ns ns' k,
  mark_skip fuel current ns = Some ns' ->
  ~ in_chain ns current k -> ns' !! k = ns !! k.
Proof.
  induction fuel as [|fuel IH]; intros [j|] ns ns' k H Hout; simpl in H;
    try (by inversion H).
  - destruct (ns !! j) as [m|]; [|by inversion H].
    destruct (is_else_type _); [done | by inversion H].
  - destruct (ns !! j) as [m|] eqn:Hj; [|by inversion H].
    destruct (is_else_type _) eqn:Ht; [|by inversion H].
    assert (k <> j) as Hne.
    { intros ->. apply Hout. by apply (in_chain_here _ j m). }
    rewrite (IH _ _ _ k H).
    + by rewrite list_lookup_insert_ne.
    + intros Hc. apply Hout. apply (in_chain_next _ j m); [done..|].
      by apply (in_chain_insert_inv _ j m).
Qed.

Lemma in_chain_else_run ns current k :
  well_linked ns -> in_chain ns current k ->
  forall i, current = Some (S i) -> else_run ns i k.
Proof.
  intros Hl Hc.
  induction Hc as [j m Hj Ht|j m k Hj Ht Hc IH]; intros i Hi;
    inversion Hi; subst j.
  - split; [lia|]. intros j' Hj'. assert (j' = S i) as -> by lia. by exists m.
  - pose proof (Hl (S i) m Hj) as Hnext.
    destruct (decide _) as [Hlt|Hge]; [|rewrite Hnext in Hc; inversion Hc].
    destruct (IH (S i) Hnext) as [Hik Hrun].
    split; [lia|]. intros j' Hj'.
    destruct (decide (j' = S i)) as [->|Hne]; [by exists m|].
    apply Hrun. lia.
Qed.

Lemma IfNode_ImplTask_confined node Condition n st st' ret k :
  IfNode_ImplTask node Condition n st = (st', ret) ->
  ~ in_chain (nodes st) (Next (base n)) k ->
  nodes st' !! k = nodes st !! k.
Proof.
  unfold IfNode_ImplTask. destruct Condition as [c|].
  - destruct (c (data st)) as [d b].
    destruct (if b then _ else _) as [st2 e] eqn:Hb.
    assert (nodes st2 = nodes st) as Hns.
    { destruct b.
      - by apply range_functors_frame in Hb as (_ & ? & _).
      - by inversion Hb; subst. }
    destruct e.
    + destruct (mark_skip _ _ _) as [ns|] eqn:Hm; intros H Hout;
        inversion H; subst; simpl.
      * rewrite <- Hns. apply (mark_skip_confined _ _ _ _ _ Hm). by rewrite Hns.
      * by rewrite Hns.
    + intros H _; inversion H; subst. by rewrite Hns.
    + intros H _; inversion H; subst. by rewrite Hns.
  - by intros H _; inversion H; subst.
Qed.

(** X3. In a store whose links follow the slice, the [Run] of the node at
    position [node] leaves alone every node that is not in the unbroken run
    of [ElseIf]/[Else] nodes right behind it: the nodes before it, the node
    itself, the first node of another kind behind it and all nodes after
    that one, which includes the branches of any later conditional chain. *)
Theorem Run_marks_only_the_else_run sched node st k :
  well_linked (nodes st) ->
  ~ else_run (nodes st) node k ->
  nodes (fst (Run sched node st)) !! k = nodes st !! k.
Proof.
  intros Hl Hout.
  destruct (nodes st !! node) as [n|] eqn:Hn; [|unfold Run; by rewrite Hn].
  assert (~ in_chain (nodes st) (Next (base n)) k) as Hc.
  { intros Hc. apply Hout. pose proof (Hl node n Hn) as Hnext.
    destruct (decide _); [|rewrite Hnext in Hc; inversion Hc].
    by apply (in_chain_else_run _ (Next (base n))). }
  destruct (impl n) as [c| |c| |t|t] eqn:Himpl;
    try (by rewrite (Run_nodes sched node n st Hn) by (intros; congruence)).
  - unfold Run. rewrite Hn. destruct (gated n st); [done|].
    unfold ImplTask. rewrite Himpl.
    destruct (IfNode_ImplTask _ _ _ _) as [st2 ret] eqn:Hi.
    apply (IfNode_ImplTask_confined _ _ _ _ _ _ k) in Hi;
      [|by rewrite call_BeginLogger_nodes].
    rewrite call_BeginLogger_nodes in Hi.
    destruct ret as [[r|]| |]; simpl; try done;
      by rewrite call_EndLogger_nodes.
  - unfold Run. rewrite Hn. destruct (gated n st); [done|].
    unfold ImplTask. rewrite Himpl. unfold ElseIfNode_ImplTask.
    destruct (IfNode_ImplTask _ _ _ _) as [st2 ret] eqn:Hi.
    apply (IfNode_ImplTask_confined _ _ _ _ _ _ k) in Hi;
      [|by rewrite call_BeginLogger_nodes].
    rewrite call_BeginLogger_nodes in Hi.
    destruct ret as [[r|]| |]; simpl; try done;
      by rewrite call_EndLogger_nodes.
Qed.

(** The first [If] of [two_chains] does not reach the [Else] of the second
    chain, at position 5: the Normal node at position 3 ends its run. *)
Lemma Run_marks_only_the_else_run_witness :
  let st := store (two_chains Func1 Func2 Func3 Func4 Func1 Func2) in
  nodes (fst (Run [] 0 st)) !! 5%nat = nodes st !! 5%nat /\
  nodes st !! 5%nat = Some (NewElseNode [Func2]).
Proof.
  intros st. split; [|reflexivity].
  apply (Run_marks_only_the_else_run [] 0 st 5).
  - intros [|[|[|[|[|[|j]]]]]] m Hj; simpl in Hj; try discriminate Hj;
      injection Hj as <-; reflexivity.
  - intros [_ Hrun]. destruct (Hrun 3%nat) as (m & Hm & Ht); [lia|].
    simpl in Hm. injection Hm as <-. discriminate Ht.
Defined.

(** ** The hooks bracket the node's work *)

Lemma tasks_ran_refl node st : tasks_ran node st st.
Proof. exists []. split; [by rewrite app_nil_r | constructor]. Qed.

Lemma tasks_ran_trans node st1 st2 st3 :
  tasks_ran node st1 st2 -> tasks_ran node st2 st3 -> tasks_ran node st1 st3.
Proof.
  intros (ev1 & H1 & F1) (ev2 & H2 & F2). exists (ev1 ++ ev2). split.
  - by rewrite H2, H1, app_assoc.
  - apply Forall_app. by split.
Qed.

Lemma tasks_ran_with_data node d e st :
  task_event node e -> tasks_ran node st (with_data d e st).
Proof. intros He. exists [e]. split; [done | by constructor]. Qed.

Lemma tasks_ran_same_trace node st st' :
  trace st' = trace st -> tasks_ran node st st'.
Proof. intros H. exists []. split; [by rewrite app_nil_r | constructor]. Qed.

Lemma range_functors_tasks node fs : forall k st st' e,
  range_functors node k fs st = (st', e) -> tasks_ran node st st'.
Proof.
  induction fs as [|f fs IH]; intros k st st' e H; simpl in H.
  - inversion H. apply tasks_ran_refl.
  - destruct (f (data st)) as [d o].
    assert (tasks_ran node st (with_data d (EvCall node k) st)) as Hstep
      by (by apply tasks_ran_with_data).
    destruct o as [[r|]|].
    + destruct (failing r).
      * by inversion H; subst.
      * apply IH in H. by apply (tasks_ran_trans _ _ _ _ Hstep).
    + apply IH in H. by apply (tasks_ran_trans _ _ _ _ Hstep).
    + by inversion H; subst.
Qed.

Lemma for_loop_tasks node fs : forall times st st' e,
  for_loop node times fs st = (st', e) -> tasks_ran node st st'.
Proof.
  induction times as [|times IH]; intros st st' e H; simpl in H.
  - inversion H. apply tasks_ran_refl.
  - destruct (range_functors node 0 fs st) as [st1 e1] eqn:Hr.
    apply range_functors_tasks in Hr.
    destruct e1.
    + apply IH in H. by apply (tasks_ran_trans _ _ _ _ Hr).
    + by inversion H; subst.
    + by inversion H; subst.
Qed.

Lemma IfNode_ImplTask_tasks node Condition n st st' ret :
  IfNode_ImplTask node Condition n st = (st', ret) -> tasks_ran node st st'.
Proof.
  unfold IfNode_ImplTask. destruct Condition as [c|].
  - destruct (c (data st)) as [d b].
    assert (tasks_ran node st (with_data d (EvCond node b) st)) as Hc
      by (by apply tasks_ran_with_data).
    destruct (if b then _ else _) as [st2 e] eqn:Hb.
    assert (tasks_ran node st st2) as H2.
    { destruct b.
      - apply range_functors_tasks in Hb. by apply (tasks_ran_trans _ _ _ _ Hc).
      - by inversion Hb; subst. }
    destruct e.
    + destruct (mark_skip _ _ _) as [ns|]; intros H; inversion H; subst; [|done].
      apply (tasks_ran_trans _ _ _ _ H2). by apply tasks_ran_same_trace.
    + intros H; by inversion H; subst.
    + intros H; by inversion H; subst.
  - intros H; inversion H; subst. apply tasks_ran_refl.
Qed.

Lemma par_step_tasks node fs ps t :
  tasks_ran node (shared ps) (shared (par_step node fs ps t)).
Proof.
  unfold par_step. destruct (crashed ps || has_returned ps);
    [apply tasks_ran_refl|].
  destruct t as [i| |].
  - unfold worker_step.
    destruct (workers ps !! i) as [pc|]; [|apply tasks_ran_refl].
    destruct (fs !! i) as [f|]; [|apply tasks_ran_refl].
    destruct pc; try apply tasks_ran_refl.
    + unfold call_functor. destruct (f _) as [d o]. simpl.
      by apply tasks_ran_with_data.
    + unfold send. destruct (closed ps); [apply tasks_ran_refl|].
      destruct (_ <=? _)%nat; apply tasks_ran_refl.
    + unfold wg_Done. destruct (_ <? _); apply tasks_ran_refl.
    + unfold wg_Done. destruct (_ <? _); apply tasks_ran_refl.
    + unfold send. destruct (closed ps); [apply tasks_ran_refl|].
      destruct (_ <=? _)%nat; apply tasks_ran_refl.
  - unfold closer_step. destruct (closer ps); try apply tasks_ran_refl.
    destruct (_ =? _); apply tasks_ran_refl.
  - unfold main_step. destruct (main ps); [|apply tasks_ran_refl].
    destruct (chan ps); [|apply tasks_ran_refl].
    destruct (closed ps); apply tasks_ran_refl.
Qed.

Lemma par_run_tasks node fs sched : forall ps,
  tasks_ran node (shared ps) (shared (par_run node fs sched ps)).
Proof.
  induction sched as [|t sched IH]; intros ps; simpl; [apply tasks_ran_refl|].
  apply (tasks_ran_trans _ _ (shared (par_step node fs ps t))).
  - apply par_step_tasks.
  - apply IH.
Qed.

Lemma ImplTask_tasks sched node n st st' ret :
  ImplTask sched node n st = (st', ret) -> tasks_ran node st st'.
Proof.
  unfold ImplTask. destruct (impl n) as [c| |c| |t|t].
  - apply IfNode_ImplTask_tasks.
  - unfold ElseNode_ImplTask. intros H.
    destruct (range_functors node 0 (Functors (base n)) st) as [s e] eqn:Hr.
    apply range_functors_tasks in Hr. by destruct e; inversion H; subst.
  - apply IfNode_ImplTask_tasks.
  - unfold NormalNode_ImplTask. intros H.
    destruct (range_functors node 0 (Functors (base n)) st) as [s e] eqn:Hr.
    apply range_functors_tasks in Hr. by destruct e; inversion H; subst.
  - unfold ForNode_ImplTask. intros H.
    destruct (for_loop node (Z.to_nat t) (Functors (base n)) st) as [s e] eqn:Hr.
    apply for_loop_tasks in Hr. by destruct e; inversion H; subst.
  - unfold ParallelNode_ImplTask. intros H.
    pose proof (par_run_tasks node (Functors (base n)) sched
                  (par_init (Functors (base n)) st)) as Ht.
    destruct (crashed _); [by inversion H; subst|].
    destruct (main _); by inversion H; subst.
Qed.

Lemma call_BeginLogger_trace n st :
  trace (call_BeginLogger n st) = trace st ++ begin_event n.
Proof.
  unfold call_BeginLogger, begin_event.
  destruct (BeginLogger (base n)); simpl; [done | by rewrite app_nil_r].
Qed.

Lemma call_EndLogger_trace n st :
  trace (call_EndLogger n st) = trace st ++ end_event n (result st).
Proof.
  unfold call_EndLogger, end_event.
  destruct (EndLogger (base n)); simpl; [done | by rewrite app_nil_r].
Qed.

(** X4. The [Run] of a node that is not gated calls the begin hook, if the
    node has one, once and before anything else; then come the calls of the
    node's own condition and closures, and no hook call among them; when
    [ImplTask] returns, the end hook, if there is one, is called once, last,
    and with the value the cell has after the write-back.  When a closure
    panics or [ImplTask] does not return, the end hook is not called. *)
Theorem Run_hooks_bracket_the_tasks sched node n st :
  nodes st !! node = Some n ->
  gated n st = false ->
  let st' := fst (Run sched node st) in
  exists events,
    Forall (task_event node) events /\
    trace st' = trace st ++ begin_event n ++ events ++
                match snd (Run sched node st) with
                | Done => end_event n (result st')
                | Crashed | Hung => []
                end.
Proof.
  intros Hn Hg. unfold Run. rewrite Hn, Hg.
  destruct (ImplTask sched node n (call_BeginLogger n st)) as [st2 ret] eqn:Hi.
  apply ImplTask_tasks in Hi as (events & Ht & Hall).
  rewrite call_BeginLogger_trace in Ht.
  exists events. split; [done|].
  destruct ret as [[r|]| |]; simpl.
  - rewrite call_EndLogger_trace, call_EndLogger_result. simpl.
    by rewrite Ht, <- !app_assoc.
  - rewrite call_EndLogger_trace, call_EndLogger_result.
    by rewrite Ht, <- !app_assoc.
  - by rewrite Ht, app_nil_r, <- app_assoc.
  - by rewrite Ht, app_nil_r, <- app_assoc.
Qed.

Lemma Run_hooks_bracket_the_tasks_witness :
  let st := store hooked_flow in
  let n := SetEndLogger (Some name_end)
             (SetBeginLogger (Some name_begin)
                (SetNote "step" (NewNormalNode [Func1; Func8]))) in
  let st' := fst (Run [] 0 st) in
  (exists events,
     Forall (task_event 0) events /\
     trace st' = trace st ++ begin_event n ++ events ++
                 match snd (Run [] 0 st) with
                 | Done => end_event n (result st')
                 | Crashed | Hung => []
                 end) /\
  trace st' = [EvBegin "step"; EvCall 0 0; EvCall 0 1;
               EvEnd "step" (mkResult (Some (ErrorsNew "something wrong")) 0 "" 3)] /\
  Name (data st') = "step ended"%string.
Proof.
  intros st n st'. split_and!.
  - apply (Run_hooks_bracket_the_tasks [] 0 n st); reflexivity.
  - by vm_compute.
  - by vm_compute.
Defined.

(** ** The flow-level callbacks *)

Lemma run_nodes_no_callback scheds : forall l st,
  no_callback_ran st (fst (run_nodes scheds l st)).
Proof.
  induction l as [|node l IH]; intros st; simpl.
  - exists []. split; [by rewrite app_nil_r | constructor].
  - destruct (Run_extends (scheds node) node st) as (ev1 & H1 & F1).
    assert (Forall (fun e => ~ callback_event e) ev1) as F1'.
    { eapply Forall_impl; [exact F1|]. intros e He Hc. by destruct e. }
    destruct (Run (scheds node) node st) as [st1 [| |]]; simpl in *;
      try (by exists ev1).
    destruct (IH st1) as (ev2 & H2 & F2).
    exists (ev1 ++ ev2). split.
    + by rewrite H2, H1, app_assoc.
    + apply Forall_app. by split.
Qed.

Lemma run_callbacks_spec onS onF st :
  result (run_callbacks onS onF st) = result st /\
  trace (run_callbacks onS onF st) = trace st ++ callback_for onS onF (result st).
Proof.
  unfold run_callbacks, callback_for.
  destruct onS as [f|]; destruct onF as [g|]; simpl;
    destruct (failing (result st)) eqn:Hf; simpl; rewrite ?Hf; simpl;
    by rewrite ?app_nil_r.
Qed.

Lemma finish_Wait_spec scheds c onS onF :
  let c' := fst (finish_Wait scheds c onS onF) in
  exists events,
    Forall (fun e => ~ callback_event e) events /\
    trace (store c') = trace (store c) ++ events ++
      match snd (finish_Wait scheds c onS onF) with
      | Done => callback_for onS onF (result (store c'))
      | Crashed | Hung => []
      end.
Proof.
  unfold finish_Wait.
  destruct (run_nodes_no_callback scheds (seq 0 (length (nodes (store c)))) (store c))
    as (events & Ht & Hall).
  destruct (run_nodes _ _ _) as [st' [| |]]; simpl in *; exists events;
    (split; [done|]).
  - destruct (run_callbacks_spec onS onF st') as [-> ->].
    by rewrite Ht, app_assoc.
  - by rewrite Ht, app_nil_r.
  - by rewrite Ht, app_nil_r.
Qed.


(** X6. The callbacks of the sub-builder and of its parent are separate.  A
    callback registered on the sub-builder is dropped when [Else], [Do],
    [For] or [Parallel] hands the flow back; the parent's callbacks come
    through a conditional chain unchanged; and the [Wait] of a sub-builder
    that [If] has just returned invokes no callback, whatever was registered
    on the parent. *)
Theorem sub_builder_callbacks_are_separate e f g c cond fs fs' times scheds :
  (ElseFlow.Else fs (ElseFlow.OnFail f (ElseFlow.OnSuccess g e)) = ElseFlow.Else fs e /\
   ElseFlow.Do fs (ElseFlow.OnFail f (ElseFlow.OnSuccess g e)) = ElseFlow.Do fs e /\
   ElseFlow.For times fs (ElseFlow.OnFail f (ElseFlow.OnSuccess g e))
     = ElseFlow.For times fs e /\
   ElseFlow.Parallel fs (ElseFlow.OnFail f (ElseFlow.OnSuccess g e))
     = ElseFlow.Parallel fs e) /\
  (onFailFunc (fst (ElseFlow.Else fs'
                      (fst (ElseFlow.ElseIf cond fs (Flow.If cond fs c)))))
     = onFailFunc c /\
   onSuccessFunc (fst (ElseFlow.Else fs'
                         (fst (ElseFlow.ElseIf cond fs (Flow.If cond fs c)))))
     = onSuccessFunc c) /\
  no_callback_ran
    (store (invoker (Flow.If cond fs (Flow.OnSuccess g (Flow.OnFail f c)))))
    (store (fst (ElseFlow.Wait scheds
                   (Flow.If cond fs (Flow.OnSuccess g (Flow.OnFail f c)))))).
Proof.
  assert (forall n c0, nodes (store (add_node n c0)) <> []) as Hne.
  { intros n c0 Hnil. apply (f_equal length) in Hnil. simpl in Hnil.
    by rewrite append_node_length in Hnil. }
  assert (fst (ElseFlow.Else fs' (fst (ElseFlow.ElseIf cond fs (Flow.If cond fs c))))
          = add_node (NewElseNode fs')
              (add_node (NewElseIfNode cond fs) (add_node (NewIfNode cond fs) c)))
    as Hchain.
  { rewrite ElseIf_nonempty by apply Hne. cbn [fst].
    rewrite Else_nonempty by apply Hne. done. }
  split_and!; try reflexivity; try (by rewrite Hchain).
  destruct (finish_Wait_spec scheds
              (invoker (Flow.If cond fs (Flow.OnSuccess g (Flow.OnFail f c))))
              None None) as (events & Hall & Ht).
  exists events. split; [|done].
  unfold ElseFlow.Wait. simpl else_onSuccessFunc. simpl else_onFailFunc.
  rewrite Ht. unfold callback_for.
  repeat match goal with
         | |- context [match ?x with _ => _ end] => destruct x
         end; by rewrite ?app_nil_r.
Qed.

(** ** The hook setters *)

Lemma with_store_same c : with_store (store c) c = c.
Proof. by destruct c. Qed.

Lemma with_nodes_same st : with_nodes (nodes st) st = st.
Proof. by destruct st. Qed.

Lemma map_fixed {A} (f : A -> A) (l : list A) :
  (forall x, In x l -> f x = x) -> map f l = l.
Proof.
  induction l as [|x l IH]; intros H; simpl; [done|].
  rewrite (H x) by (by left). rewrite IH; [done|].
  intros y Hy. apply H. by right.
Qed.

(** X7. [SetGlobalBeginLogger] gives the logger to the nodes that have none
    and leaves every node that has one as it is: a logger set before, on one
    node or on all, wins.  So after a call with a logger every node of the
    flow has a begin logger, a second call changes nothing, and a call with
    [nil] changes nothing.  The call reaches the nodes of the slice only: a
    node appended afterwards has no logger.  [SetGlobalEndLogger] does the
    same for the end logger. *)
Theorem SetGlobal_loggers_first_set_wins (c : FlowEngine) :
  (forall logger k m,
     nodes (store c) !! k = Some m ->
     nodes (store (Flow.SetGlobalBeginLogger logger c)) !! k =
       Some (match BeginLogger (base m) with
             | Some _ => m
             | None => SetBeginLogger logger m
             end)) /\
  (forall l k m',
     nodes (store (Flow.SetGlobalBeginLogger (Some l) c)) !! k = Some m' ->
     BeginLogger (base m') <> None) /\
  (forall l logger,
     Flow.SetGlobalBeginLogger logger (Flow.SetGlobalBeginLogger (Some l) c)
       = Flow.SetGlobalBeginLogger (Some l) c) /\
  Flow.SetGlobalBeginLogger None c = c /\
  (forall l fs,
     nodes (store (Flow.Do fs (Flow.SetGlobalBeginLogger (Some l) c)))
       !! length (nodes (store c)) = Some (NewNormalNode fs)) /\
  (forall logger k m,
     nodes (store c) !! k = Some m ->
     nodes (store (Flow.SetGlobalEndLogger logger c)) !! k =
       Some (match EndLogger (base m) with
             | Some _ => m
             | None => SetEndLogger logger m
             end)) /\
  (forall l k m',
     nodes (store (Flow.SetGlobalEndLogger (Some l) c)) !! k = Some m' ->
     EndLogger (base m') <> None) /\
  (forall l logger,
     Flow.SetGlobalEndLogger logger (Flow.SetGlobalEndLogger (Some l) c)
       = Flow.SetGlobalEndLogger (Some l) c) /\
  Flow.SetGlobalEndLogger None c = c.
Proof.
  split_and!.
  - intros logger k m Hk. unfold Flow.SetGlobalBeginLogger. simpl.
    rewrite list_lookup_fmap, Hk. simpl. by destruct (BeginLogger (base m)).
  - intros l k m' Hk. unfold Flow.SetGlobalBeginLogger in Hk. simpl in Hk.
    rewrite list_lookup_fmap in Hk.
    destruct (nodes (store c) !! k) as [m|]; simpl in Hk; [|done].
    inversion Hk; subst m'. by destruct (BeginLogger (base m)) eqn:Hb; rewrite ?Hb.
  - intros l logger. unfold Flow.SetGlobalBeginLogger. simpl.
    unfold with_store, with_nodes. simpl. f_equal. f_equal.
    apply map_fixed. intros m' Hm'.
    apply in_map_iff in Hm' as (m & <- & _).
    by destruct (BeginLogger (base m)) eqn:Hb; rewrite ?Hb.
  - unfold Flow.SetGlobalBeginLogger.
    rewrite map_fixed.
    + by rewrite with_nodes_same, with_store_same.
    + intros m _. destruct (BeginLogger (base m)) eqn:Hb; [done|].
      destruct m as [[] ?]. simpl in Hb. by subst.
  - intros l fs. unfold Flow.Do, add_node. simpl.
    replace (length (nodes (store c)))
      with (length (nodes (store (Flow.SetGlobalBeginLogger (Some l) c))))
      by (simpl; apply length_map).
    apply append_node_lookup_new.
  - intros logger k m Hk. unfold Flow.SetGlobalEndLogger. simpl.
    rewrite list_lookup_fmap, Hk. simpl. by destruct (EndLogger (base m)).
  - intros l k m' Hk. unfold Flow.SetGlobalEndLogger in Hk. simpl in Hk.
    rewrite list_lookup_fmap in Hk.
    destruct (nodes (store c) !! k) as [m|]; simpl in Hk; [|done].
    inversion Hk; subst m'. by destruct (EndLogger (base m)) eqn:Hb; rewrite ?Hb.
  - intros l logger. unfold Flow.SetGlobalEndLogger. simpl.
    unfold with_store, with_nodes. simpl. f_equal. f_equal.
    apply map_fixed. intros m' Hm'.
    apply in_map_iff in Hm' as (m & <- & _).
    by destruct (EndLogger (base m)) eqn:Hb; rewrite ?Hb.
  - unfold Flow.SetGlobalEndLogger.
    rewrite map_fixed.
    + by rewrite with_nodes_same, with_store_same.
    + intros m _. destruct (EndLogger (base m)) eqn:Hb; [done|].
      destruct m as [[] ?]. simpl in Hb. by subst.
Qed.

(** ** Closures are called in the order of the slice *)

Lemma calls_cons node k j : calls node k (S j) = EvCall node k :: calls node (S k) j.
Proof. done. Qed.

Lemma range_functors_calls node fs : forall k st st' e,
  range_functors node k fs st = (st', e) ->
  exists j, (j <= length fs)%nat /\
    trace st' = trace st ++ calls node k j /\
    (e = LoopEnd -> j = length fs) /\ (e <> LoopEnd -> (0 < j)%nat).
Proof.
  induction fs as [|f fs IH]; intros k st st' e H; simpl in H.
  - inversion H; subst. exists 0%nat. simpl. by rewrite app_nil_r.
  - destruct (f (data st)) as [d o].
    assert (forall st'' e', range_functors node (S k) fs
                (with_data d (EvCall node k) st) = (st'', e') ->
              exists j, (j <= length (f :: fs))%nat /\
                trace st'' = trace st ++ calls node k j /\
                (e' = LoopEnd -> j = length (f :: fs)) /\
                (e' <> LoopEnd -> (0 < j)%nat)) as Hgo.
    { intros st'' e' Hr. apply IH in Hr as (j & Hj & Ht & Hend & _).
      exists (S j). simpl in *. split_and!; [lia | | | lia].
      - by rewrite Ht, calls_cons, <- app_assoc.
      - intros He. by rewrite (Hend He). }
    assert (exists j, (j <= length (f :: fs))%nat /\
              trace (with_data d (EvCall node k) st) = trace st ++ calls node k j /\
              (0 < j)%nat) as Hstop.
    { exists 1%nat. simpl. split_and!; [lia | done | lia]. }
    destruct o as [[r|]|].
    + destruct (failing r); [|by apply Hgo].
      inversion H; subst. destruct Hstop as (j & ? & ? & ?). by exists j.
    + by apply Hgo.
    + inversion H; subst. destruct Hstop as (j & ? & ? & ?). by exists j.
Qed.

Lemma for_loop_calls node fs : forall times st st' e,
  for_loop node times fs st = (st', e) ->
  exists j p, (j <= times)%nat /\ (p <= length fs)%nat /\
    trace st' = trace st ++ concat (repeat (calls node 0 (length fs)) j)
                         ++ calls node 0 p /\
    (j = times -> p = 0%nat).
Proof.
  induction times as [|times IH]; intros st st' e H; simpl in H.
  - inversion H; subst. exists 0%nat, 0%nat. simpl.
    split_and!; [lia | lia | by rewrite app_nil_r | done].
  - destruct (range_functors node 0 fs st) as [st1 e1] eqn:Hr.
    apply range_functors_calls in Hr as (j1 & Hj1 & Ht1 & Hend & Hstop).
    destruct e1.
    + apply IH in H as (j & p & Hj & Hp & Ht & Hlast).
      exists (S j), p. split_and!; [lia | done | | lia].
      rewrite Ht, Ht1, (Hend eq_refl). simpl. by rewrite <- !app_assoc.
    + inversion H; subst. exists 0%nat, j1.
      split_and!; [lia | done | done | lia].
    + inversion H; subst. exists 0%nat, j1.
      split_and!; [lia | done | done | lia].
Qed.

(** X8. Whatever its closures return and whether or not one of them panics,
    a node calls them in the order of its slice, from the first one on and
    without leaving one out: a Normal or Else node calls the first [j] of
    them once each, for some [j]; a For node makes at most [Times] passes,
    whole ones followed by at most one that stops early, and none at all when
    [Times] is zero or negative; a conditional evaluates its condition once,
    before any closure, and calls no closure when the condition is false;
    without a condition closure it calls nothing. *)
Theorem closures_are_called_in_slice_order node n st :
  (exists j, (j <= length (Functors (base n)))%nat /\
     trace (fst (ElseNode_ImplTask node n st)) = trace st ++ calls node 0 j) /\
  (forall Times,
     exists j p,
       Z.of_nat j <= Z.max 0 Times /\ (p <= length (Functors (base n)))%nat /\
       (Z.of_nat j = Z.max 0 Times -> p = 0%nat) /\
       trace (fst (ForNode_ImplTask node Times n st)) =
         trace st ++ concat (repeat (calls node 0 (length (Functors (base n)))) j)
                  ++ calls node 0 p) /\
  (forall c d b,
     c (data st) = (d, b) ->
     exists j, (j <= length (Functors (base n)))%nat /\
       (b = false -> j = 0%nat) /\
       trace (fst (IfNode_ImplTask node (Some c) n st)) =
         trace st ++ EvCond node b :: calls node 0 j) /\
  trace (fst (IfNode_ImplTask node None n st)) = trace st.
Proof.
  split_and!.
  - unfold ElseNode_ImplTask.
    destruct (range_functors node 0 (Functors (base n)) st) as [st' e] eqn:Hr.
    apply range_functors_calls in Hr as (j & Hj & Ht & _).
    exists j. by destruct e.
  - intros Times. unfold ForNode_ImplTask.
    destruct (for_loop node (Z.to_nat Times) (Functors (base n)) st)
      as [st' e] eqn:Hr.
    apply for_loop_calls in Hr as (j & p & Hj & Hp & Ht & Hlast).
    exists j, p. split_and!; [lia | done | intros; apply Hlast; lia |].
    by destruct e.
  - intros c d b Hc. unfold IfNode_ImplTask. rewrite Hc.
    destruct b.
    + destruct (range_functors _ _ _ _) as [st' e] eqn:Hr.
      apply range_functors_calls in Hr as (j & Hj & Ht & _).
      exists j. split_and!; [done | done |].
      simpl in Ht. rewrite <- app_assoc in Ht.
      destruct e; [destruct (mark_skip _ _ _)|..]; simpl; done.
    + exists 0%nat. split_and!; [lia | done |].
      destruct (mark_skip _ _ _); done.
  - done.
Qed.

(** ** A [ParallelNode] calls each closure at most once *)

Lemma called_insert_same node ws i old new e :
  ws !! i = Some old -> old <> WReady -> new <> WReady ->
  called node (<[i := new]> ws) e <-> called node ws e.
Proof.
  intros Hi Hold Hnew. pose proof (lookup_lt_Some _ _ _ Hi) as Hlt. split.
  - intros (j & pc & -> & Hj & Hpc).
    apply lookup_insert_cases in Hj as [[-> ->] | [Hne Hj]].
    + by exists i, old.
    + by exists j, pc.
  - intros (j & pc & -> & Hj & Hpc).
    destruct (decide (j = i)) as [->|Hne].
    + exists i, new. by rewrite list_lookup_insert_eq.
    + exists j, pc. by rewrite list_lookup_insert_ne.
Qed.

Lemma called_insert_new node ws i new e :
  ws !! i = Some WReady -> new <> WReady ->
  called node (<[i := new]> ws) e <-> called node ws e \/ e = EvCall node i.
Proof.
  intros Hi Hnew. pose proof (lookup_lt_Some _ _ _ Hi) as Hlt. split.
  - intros (j & pc & -> & Hj & Hpc).
    apply lookup_insert_cases in Hj as [[-> ->] | [Hne Hj]].
    + by right.
    + left. by exists j, pc.
  - intros [(j & pc & -> & Hj & Hpc) | ->].
    + destruct (decide (j = i)) as [->|Hne]; [congruence|].
      exists j, pc. by rewrite list_lookup_insert_ne.
    + exists i, new. by rewrite list_lookup_insert_eq.
Qed.

Lemma par_init_calls node fs st : par_calls node fs st (par_init fs st).
Proof.
  constructor; simpl; try done.
  - by rewrite length_map.
  - exists []. split_and!; [by rewrite app_nil_r | constructor |].
    intros e. split; [done|]. intros (i & pc & -> & Hi & Hpc).
    rewrite list_lookup_fmap in Hi.
    destruct (fs !! i); simpl in Hi; [|done]. by inversion Hi; subst.
  - by rewrite count_init.
Qed.

Lemma worker_moves node fs st0 ps i old new :
  par_calls node fs st0 ps ->
  workers ps !! i = Some old -> old <> WReady -> new <> WReady ->
  forall wg' chan' closed',
    wg' = Z.of_nat (count active (<[i := new]> (workers ps))) ->
    closed' = closed ps ->
    (closer ps <> CWait -> count active (<[i := new]> (workers ps)) = 0%nat) ->
    par_calls node fs st0
      (mkPState (shared ps) (<[i := new]> (workers ps)) wg' chan' closed'
                (closer ps) (main ps) (taken ps) (crashed ps)).
Proof.
  intros [Hlen (events & Ht & Hnd & Hin) Hwg Hcloser Hclosed Hret]
         Hi Hold Hnew wg' chan' closed' Hwg' -> Hcloser'.
  constructor; simpl; try done.
  - by rewrite length_insert.
  - exists events. split_and!; [done | done |].
    intros e. rewrite Hin. symmetry. by apply (called_insert_same _ _ _ old).
Qed.

Lemma crash_calls node fs st0 ps :
  par_calls node fs st0 ps -> par_calls node fs st0 (crash ps).
Proof. intros [? ? ? ? ? ?]. by constructor. Qed.

Lemma worker_step_calls node fs st0 i ps :
  par_calls node fs st0 ps -> par_calls node fs st0 (worker_step node fs i ps).
Proof.
  intros Hinv. unfold worker_step.
  destruct (workers ps !! i) as [pc|] eqn:Hi; [|done].
  destruct (fs !! i) as [f|] eqn:Hf; [|done].
  pose proof Hinv as [Hlen (events & Ht & Hnd & Hin) Hwg Hcloser Hclosed Hret].
  assert (forall new, active new = active pc ->
            count active (<[i := new]> (workers ps)) = count active (workers ps))
    as Hsame.
  { intros new Ha. pose proof (count_insert active _ i pc new Hi) as C.
    rewrite Ha in C. lia. }
  destruct pc as [|r| | | |]; try done.
  - (* the closure is called *)
    unfold call_functor. destruct (f (data (shared ps))) as [d o].
    set (new := match o with Return r => WReturned r | Panics => WPanicked end).
    assert (new <> WReady) as Hnew by (by destruct o).
    assert (active new = true) as Hact by (by destruct o).
    constructor; simpl; try done.
    + by rewrite length_insert.
    + exists (events ++ [EvCall node i]). split_and!.
      * by rewrite Ht, app_assoc.
      * apply NoDup_app. split_and!; [done | | apply NoDup_singleton].
        intros e He ->%list_elem_of_singleton.
        apply list_elem_of_In, Hin in He as (j & pc & Heq & Hj & Hpc).
        inversion Heq; subst j. congruence.
      * intros e. rewrite in_app_iff, Hin, (called_insert_new _ _ _ new) by done.
        simpl. split; intros [H|H].
        -- by left.
        -- right. by destruct H as [<-|[]].
        -- by left.
        -- right. by left.
    + by rewrite Hsame.
    + intros Hc. rewrite Hsame by done. by apply Hcloser.
  - (* the result is sent *)
    unfold send. destruct (closed ps) eqn:Hcl; [by apply crash_calls|].
    destruct (_ <=? _)%nat; [done|].
    apply (worker_moves node fs st0 ps i (WReturned r)); try done.
    + by rewrite Hsame.
    + intros Hc. rewrite Hsame by done. by apply Hcloser.
  - (* [wg.Done()] after the send *)
    unfold wg_Done. destruct (_ <? _); [by apply crash_calls|].
    pose proof (count_insert active _ i WSent WExited Hi) as C. simpl in C.
    apply (worker_moves node fs st0 ps i WSent); try done.
    + lia.
    + intros Hc. specialize (Hcloser Hc). lia.
  - (* [wg.Done()] after the panic *)
    unfold wg_Done. destruct (_ <? _); [by apply crash_calls|].
    pose proof (count_insert active _ i WPanicked WRecovered Hi) as C. simpl in C.
    apply (worker_moves node fs st0 ps i WPanicked); try done.
    + lia.
    + intros Hc. specialize (Hcloser Hc). lia.
  - (* the fault result is sent *)
    unfold send. destruct (closed ps) eqn:Hcl; [by apply crash_calls|].
    destruct (_ <=? _)%nat; [done|].
    apply (worker_moves node fs st0 ps i WRecovered); try done.
    + by rewrite Hsame.
    + intros Hc. rewrite Hsame by done. by apply Hcloser.
Qed.

Lemma par_step_calls node fs st0 ps t :
  par_calls node fs st0 ps -> par_calls node fs st0 (par_step node fs ps t).
Proof.
  intros Hinv. unfold par_step.
  destruct (crashed ps || has_returned ps); [done|].
  destruct t.
  - by apply worker_step_calls.
  - pose proof Hinv as [Hlen Htr Hwg Hcloser Hclosed Hret].
    unfold closer_step. destruct (closer ps) eqn:Hc; [| |done].
    + destruct (wg ps =? 0) eqn:H0; [|done].
      constructor; simpl; try done.
      * intros _. lia.
      * intros Hcl. specialize (Hclosed Hcl). congruence.
    + constructor; simpl; try done.
      intros _. apply Hcloser. discriminate.
  - pose proof Hinv as [Hlen Htr Hwg Hcloser Hclosed Hret].
    unfold main_step. destruct (main ps) eqn:Hm; [|done].
    destruct (chan ps).
    + destruct (closed ps) eqn:Hcl; [by constructor | done].
    + constructor; simpl; try done.
Qed.

Lemma par_run_calls node fs st0 sched : forall ps,
  par_calls node fs st0 ps -> par_calls node fs st0 (par_run node fs sched ps).
Proof.
  induction sched as [|t sched IH]; intros ps Hinv; [done|].
  simpl. apply IH. by apply par_step_calls.
Qed.

Lemma called_in_calls node ws k e :
  length ws = k -> called node ws e -> In e (calls node 0 k).
Proof.
  intros Hlen (i & pc & -> & Hi & _). unfold calls.
  apply in_map, in_seq. apply lookup_lt_Some in Hi. lia.
Qed.

Lemma NoDup_calls node k j : NoDup (calls node k j).
Proof.
  unfold calls. apply NoDup_fmap_2; [|apply NoDup_seq].
  intros x y H. by inversion H.
Qed.

(** X9. Whatever the closures of a [ParallelNode] do (return, fail or
    panic) and whatever the schedule, no closure is called twice and nothing
    but the node's closures is called; and when [ImplTask] returns, every
    closure has been called exactly once: the calls are a permutation of the
    closures' positions. *)
Theorem ParallelNode_calls_each_closure_once sched node fs st :
  let st' := fst (ParallelNode_ImplTask sched node fs st) in
  exists events,
    trace st' = trace st ++ events /\
    NoDup events /\
    (forall e, In e events -> In e (calls node 0 (length fs))) /\
    (forall r, snd (ParallelNode_ImplTask sched node fs st) = Returned r ->
       Permutation events (calls node 0 (length fs))).
Proof.
  pose proof (par_run_calls node fs st sched _ (par_init_calls node fs st))
    as [Hlen (events & Ht & Hnd & Hin) Hwg Hcloser Hclosed Hret].
  unfold ParallelNode_ImplTask.
  set (ps := par_run node fs sched (par_init fs st)) in *.
  assert (forall e, In e events -> In e (calls node 0 (length fs))) as Hsub.
  { intros e He. apply (called_in_calls node (workers ps)); [done|]. by apply Hin. }
  exists events.
  destruct (crashed ps); [simpl; split_and!; done|].
  destruct (main ps) as [r0|r0] eqn:Hm; simpl; split_and!; try done.
  intros r _.
  assert (has_returned ps = true) as Hr by (unfold has_returned; by rewrite Hm).
  assert (count active (workers ps) = 0%nat) as H0.
  { apply Hcloser. rewrite (Hclosed (Hret Hr)). discriminate. }
  apply NoDup_Permutation; [done | apply NoDup_calls |].
  intros e. rewrite !list_elem_of_In. split; [by apply Hsub|].
  - intros He. apply Hin. unfold calls in He.
    apply in_map_iff in He as (i & <- & Hi%in_seq).
    destruct (lookup_lt_is_Some_2 (workers ps) i) as [pc Hpc]; [lia|].
    exists i, pc. split_and!; [done | done |].
    intros ->. by pose proof (count_zero active _ i WReady H0 Hpc).
Qed.

(** ** Under the fair schedule a [ParallelNode] runs its closures in order *)

(** One task from start to end: its closure is called on the current
    context, and its item, the fault result after a panic, is appended to the
    channel. *)
Lemma fair_phase_step_state node fs init j ps (f : ICallable) :
  fs !! j = Some f ->
  fair_phase fs init j ps ->
  exists ws,
    par_run node fs [TWorker j; TWorker j; TWorker j] ps =
    mkPState (with_data (fst (f (data (shared ps)))) (EvCall node j) (shared ps))
             ws (wg ps - 1) (chan ps ++ [item_of (snd (f (data (shared ps))))])
             false CWait (main ps) (taken ps) false.
Proof.
  intros Hf [Hcr Hcl Hcloser Hm Hlen Hready Hwg Hchan Htaken].
  assert (j < length fs)%nat as Hj by (by eapply lookup_lt_Some).
  assert (workers ps !! j = Some WReady) as Hw by (apply Hready; lia).
  assert (j < length (workers ps))%nat as Hjw by lia.
  assert ((length fs <=? length (chan ps))%nat = false) as Hroom
    by (apply Nat.leb_gt; lia).
  assert ((wg ps - 1 <? 0) = false) as Hdone by lia.
  destruct (f (data (shared ps))) as [d o] eqn:Hcall.
  destruct o as [r|]; eexists.
  - rewrite par_run_cons, par_step_running by running.
    unfold worker_step at 1. rewrite Hw, Hf. unfold call_functor. rewrite Hcall.
    rewrite par_run_cons, par_step_running by running.
    unfold worker_step at 1. cbn [workers].
    rewrite list_lookup_insert_eq by done. rewrite Hf.
    unfold send. cbn [closed chan]. rewrite Hcl, Hroom.
    rewrite par_run_cons, par_step_running by running.
    unfold worker_step. cbn [workers].
    rewrite list_lookup_insert_eq by (by rewrite length_insert). rewrite Hf.
    unfold wg_Done. cbn [wg]. rewrite Hdone, par_run_nil.
    cbn. rewrite Hcloser, Hcr. reflexivity.
  - rewrite par_run_cons, par_step_running by running.
    unfold worker_step at 1. rewrite Hw, Hf. unfold call_functor. rewrite Hcall.
    rewrite par_run_cons, par_step_running by running.
    unfold worker_step at 1. cbn [workers].
    rewrite list_lookup_insert_eq by done. rewrite Hf.
    unfold wg_Done. cbn [wg]. rewrite Hdone.
    rewrite par_run_cons, par_step_running by running.
    unfold worker_step. cbn [workers].
    rewrite list_lookup_insert_eq by (by rewrite length_insert). rewrite Hf.
    unfold send. cbn [closed chan]. rewrite Hcl, Hroom, par_run_nil.
    cbn. rewrite Hcloser, Hcr. reflexivity.
Qed.

Lemma fair_phase_step_exact node fs init j ps (f : ICallable) :
  fs !! j = Some f ->
  fair_phase fs init j ps ->
  let ps' := par_run node fs [TWorker j; TWorker j; TWorker j] ps in
  fair_phase fs init (S j) ps' /\
  shared ps' = with_data (fst (f (data (shared ps)))) (EvCall node j) (shared ps) /\
  chan ps' = chan ps ++ [item_of (snd (f (data (shared ps))))].
Proof.
  intros Hf Hphase ps'. subst ps'.
  assert (j < length fs)%nat as Hj by (by eapply lookup_lt_Some).
  split; [by apply fair_phase_step|].
  destruct (fair_phase_step_state node fs init j ps f Hf Hphase) as [ws ->].
  done.
Qed.

Lemma fair_phase_tasks_exact node fs init : forall m j ps,
  (j + m = length fs)%nat ->
  fair_phase fs init j ps ->
  let ps' := par_run node fs
               (flat_map (fun i => [TWorker i; TWorker i; TWorker i]) (seq j m)) ps in
  fair_phase fs init (length fs) ps' /\
  shared ps' = ran (fst (items_in_order (drop j fs) (data (shared ps))))
                   (calls node j m) (shared ps) /\
  chan ps' = chan ps ++ snd (items_in_order (drop j fs) (data (shared ps))).
Proof.
  induction m as [|m IH]; intros j ps Hjm Hp.
  - assert (j = length fs) as -> by lia.
    rewrite drop_all. simpl. split_and!; [done | | by rewrite app_nil_r].
    by rewrite ran_nil.
  - destruct (lookup_lt_is_Some_2 fs j) as [f Hf]; [lia|].
    cbn [seq flat_map]. cbn zeta.
    rewrite (par_run_app node fs [TWorker j; TWorker j; TWorker j]).
    destruct (fair_phase_step_exact node fs init j ps f Hf Hp) as (Hp1 & Hs1 & Hc1).
    destruct (IH (S j) _ ltac:(lia) Hp1) as (Hp2 & Hs2 & Hc2).
    cbn zeta in Hs2, Hc2.
    split; [done|].
    rewrite Hs2, Hc2, Hs1, Hc1. clear Hs2 Hc2 Hs1 Hc1.
    rewrite (drop_S fs f j Hf). simpl.
    destruct (f (data (shared ps))) as [d1 o]. simpl.
    destruct (items_in_order (drop (S j) fs) d1) as [d2 items]. simpl.
    split.
    + by rewrite with_data_ran, ran_ran.
    + by rewrite <- app_assoc.
Qed.

Lemma par_step_shared_closer node fs ps :
  shared (par_step node fs ps TCloser) = shared ps.
Proof.
  unfold par_step. destruct (_ || _); [done|].
  unfold closer_step. destruct (closer ps); try done. by destruct (_ =? _).
Qed.

Lemma par_step_shared_main node fs ps :
  shared (par_step node fs ps TMain) = shared ps.
Proof.
  unfold par_step. destruct (_ || _); [done|].
  unfold main_step. destruct (main ps); [|done].
  destruct (chan ps); [|done]. by destruct (closed ps).
Qed.

Lemma par_run_shared_main node fs k : forall ps,
  shared (par_run node fs (repeat TMain k) ps) = shared ps.
Proof.
  induction k as [|k IH]; intros ps; [done|].
  cbn [repeat]. rewrite par_run_cons, IH. apply par_step_shared_main.
Qed.

(** X10. Under the fair schedule, in which every task runs to its end
    before the next one starts and before the channel is closed,
    [ParallelNode.ImplTask] returns whatever its closures do; the closures
    have been called once each, in the order of the slice, on the shared
    context; a closure that panicked has contributed the fault result; and
    the node returns what the collecting loop makes of the items in that
    order, starting from the cell's value. *)
Theorem ParallelNode_fair_schedule_runs_in_order node fs st :
  ParallelNode_ImplTask (fair_schedule (length fs)) node fs st =
    (ran (fst (items_in_order fs (data st))) (calls node 0 (length fs)) st,
     Returned (aggregate (Some (result st)) (snd (items_in_order fs (data st))))).
Proof.
  unfold ParallelNode_ImplTask, fair_schedule. rewrite !par_run_app.
  assert (fair_phase fs (Some (result st)) 0 (par_init fs st)) as H0.
  { constructor; cbn; try done.
    - by rewrite length_map.
    - intros i Hi. rewrite list_lookup_fmap.
      destruct (lookup_lt_is_Some_2 fs i) as [f ->]; [lia | done].
    - lia. }
  destruct (fair_phase_tasks_exact node fs _ (length fs) 0 _ eq_refl H0)
    as (Hp & Hs & Hc).
  cbn zeta in Hs, Hc. rewrite drop_0 in Hs, Hc. cbn in Hs, Hc.
  set (ps1 := par_run node fs (flat_map _ _) _) in *.
  destruct Hp as [Hcr Hcl Hcloser Hm Hlen Hready Hwg Hchan Htaken].
  assert (par_run node fs [TCloser; TCloser] ps1 =
          mkPState (shared ps1) (workers ps1) (wg ps1) (chan ps1) true CExited
                   (main ps1) (taken ps1) (crashed ps1)) as ->.
  { rewrite par_run_cons, par_step_running by running.
    unfold closer_step at 1. rewrite Hcloser.
    replace (wg ps1 =? 0) with true by lia.
    by rewrite par_run_cons, par_step_running, par_run_nil by running. }
  rewrite <- Hchan.
  match goal with
  | |- context [par_run _ _ (repeat TMain _) ?ps2] =>
      destruct (main_drains node fs (chan ps1) ps2 (Some (result st)))
        as (H1 & H2 & H3); try done;
      pose proof (par_run_shared_main node fs (S (length (chan ps1))) ps2) as H4
  end.
  rewrite H1, H2, H4. cbn [shared]. by rewrite Hchan, Hs, Hc.
Qed.


(** ** [Wait] returns *)

Lemma range_functors_returns node fs : forall k st,
  Forall never_panics fs -> snd (range_functors node k fs st) <> LoopPanic.
Proof.
  induction fs as [|f fs IH]; intros k st Hfs; simpl; [done|].
  inversion Hfs as [|? ? Hf Hrest]; subst.
  specialize (Hf (data st)).
  destruct (f (data st)) as [d [[r|]|]]; simpl in *; [| |done].
  - destruct (failing r); [done | by apply IH].
  - by apply IH.
Qed.

Lemma for_loop_returns node fs : forall times st,
  Forall never_panics fs -> snd (for_loop node times fs st) <> LoopPanic.
Proof.
  induction times as [|times IH]; intros st Hfs; simpl; [done|].
  pose proof (range_functors_returns node fs 0 st Hfs) as H.
  destruct (range_functors node 0 fs st) as [st1 [|r|]]; simpl in *;
    [by apply IH | done | done].
Qed.

Lemma after_loop_returns x :
  snd x <> LoopPanic -> exists r, snd (after_loop x) = Returned r.
Proof. destruct x as [st [|r|]]; simpl; eauto. done. Qed.

Lemma IfNode_ImplTask_returns node Condition n st :
  links_forward (nodes st) ->
  Forall never_panics (Functors (base n)) ->
  exists r, snd (IfNode_ImplTask node Condition n st) = Returned r.
Proof.
  intros Hl Hfs. unfold IfNode_ImplTask. destruct Condition as [c|]; [|eauto].
  destruct (c (data st)) as [d b].
  destruct (if b then _ else _) as [st2 e] eqn:Hb.
  assert (nodes st2 = nodes st /\ e <> LoopPanic) as [Hns He].
  { destruct b.
    - pose proof (range_functors_returns node (Functors (base n)) 0
                    (with_data d (EvCond node true) st) Hfs) as Hret.
      rewrite Hb in Hret.
      by apply range_functors_frame in Hb as (_ & ? & _).
    - by inversion Hb; subst. }
  destruct e as [|r|]; [|eauto|done].
  destruct (mark_skip_terminates (S (length (nodes st2))) (Next (base n)) (nodes st2))
    as [ns' ->]; [by rewrite Hns | intros; lia | eauto].
Qed.

Lemma ImplTask_returns sched node n st :
  links_forward (nodes st) ->
  runs_quietly sched n ->
  exists r, snd (ImplTask sched node n st) = Returned r.
Proof.
  intros Hl. unfold runs_quietly, is_parallel, ImplTask.
  destruct (impl n) as [c| |c| |t|t]; intros Hq.
  - by apply IfNode_ImplTask_returns.
  - by apply after_loop_returns, range_functors_returns.
  - by apply IfNode_ImplTask_returns.
  - by apply after_loop_returns, range_functors_returns.
  - by apply after_loop_returns, for_loop_returns.
  - subst sched. unfold ParallelNode_ImplTask.
    destruct (fair_schedule_returns node (Functors (base n)) st) as (-> & -> & _).
    eauto.
Qed.

Lemma Run_returns sched node st :
  links_forward (nodes st) ->
  (forall n, nodes st !! node = Some n -> runs_quietly sched n) ->
  snd (Run sched node st) = Done.
Proof.
  intros Hl Hq. unfold Run.
  destruct (nodes st !! node) as [n|]; [|done].
  destruct (gated n st); [done|].
  destruct (ImplTask_returns sched node n (call_BeginLogger n st)) as [r Hr].
  - by rewrite call_BeginLogger_nodes.
  - by apply Hq.
  - destruct (ImplTask _ _ _ _) as [st2 ret]. simpl in Hr. by subst ret.
Qed.

Lemma flagged_links_forward ns ns' :
  Forall2 flagged_from ns ns' -> links_forward ns -> links_forward ns'.
Proof.
  intros Hf Hl j m' k Hj Hk.
  destruct (Forall2_lookup_r _ _ _ _ _ Hf Hj) as (m & Hm & [->|[_ ->]]).
  - by apply (Hl j m k).
  - by apply (Hl j m k).
Qed.

Lemma flagged_all_run_quietly scheds ns ns' :
  Forall2 flagged_from ns ns' ->
  all_run_quietly scheds ns -> all_run_quietly scheds ns'.
Proof.
  intros Hf Hq node m' Hj.
  destruct (Forall2_lookup_r _ _ _ _ _ Hf Hj) as (m & Hm & [->|[_ ->]]).
  - by apply Hq.
  - by apply (Hq node m).
Qed.

Lemma run_nodes_returns scheds : forall l st,
  links_forward (nodes st) ->
  all_run_quietly scheds (nodes st) ->
  snd (run_nodes scheds l st) = Done.
Proof.
  induction l as [|node l IH]; intros st Hl Hq; simpl; [done|].
  pose proof (Run_returns (scheds node) node st Hl (Hq node)) as Hret.
  pose proof (Run_flags (scheds node) node st) as Hf.
  destruct (Run (scheds node) node st) as [st1 s]. simpl in Hret, Hf. subst s.
  apply IH.
  - by apply (flagged_links_forward (nodes st)).
  - by apply (flagged_all_run_quietly scheds (nodes st)).
Qed.

(** X11. On a store whose links point forward, as the links set by the
    builders do, [Wait] returns whenever no panic reaches it: when the
    closures of the sequential nodes return and the goroutines of every
    [ParallelNode] are scheduled fairly (where a panicking closure is
    recovered), every node's [Run] returns, the loop that marks the
    [ElseIf] and [Else] siblings ends, and [Wait] returns, for
    [FlowEngine.Wait] and for [ElseFlowEngine.Wait]. *)
Theorem Wait_returns scheds c :
  links_forward (nodes (store c)) ->
  all_run_quietly scheds (nodes (store c)) ->
  snd (Flow.Wait scheds c) = Done /\
  forall e, invoker e = c -> snd (ElseFlow.Wait scheds e) = Done.
Proof.
  intros Hl Hq.
  assert (forall onS onF, snd (finish_Wait scheds c onS onF) = Done) as H.
  { intros onS onF. unfold finish_Wait.
    pose proof (run_nodes_returns scheds (seq 0 (length (nodes (store c))))
                  (store c) Hl Hq) as Hret.
    destruct (run_nodes _ _ _) as [st s]. simpl in Hret. by subst s. }
  split; [apply H|]. intros e <-. apply H.
Qed.

(** [quiet_flow] has a closure that panics in its Parallel node, and returns
    from [Wait] under the fair schedule. *)
Lemma Wait_returns_witness :
  snd (Flow.Wait (fun _ => fair_schedule 2) (invoker quiet_flow)) = Done /\
  snd (ElseFlow.Wait (fun _ => fair_schedule 2) quiet_flow) = Done.
Proof.
  assert (links_forward (nodes (store (invoker quiet_flow)))) as Hl.
  { intros [|[|[|[|j]]]] m k Hj Hk; simpl in Hj; try discriminate Hj;
      injection Hj as <-; simpl in Hk; try discriminate Hk;
      injection Hk as <-; lia. }
  assert (all_run_quietly (fun _ => fair_schedule 2)
            (nodes (store (invoker quiet_flow)))) as Hq.
  { intros [|[|[|[|j]]]] m Hj; simpl in Hj; try discriminate Hj;
      injection Hj as <-; unfold runs_quietly; simpl; try reflexivity;
      repeat constructor; intros d; discriminate. }
  destruct (Wait_returns (fun _ => fair_schedule 2) (invoker quiet_flow) Hl Hq)
    as [H1 H2].
  split; [exact H1 | exact (H2 quiet_flow eq_refl)].
Defined.


(** ** A node's own logger and the global one *)

Lemma alter_map_commute {A} (f g : A -> A) :
  (forall x, f (g x) = g (f x)) ->
  forall (l : list A) i, alter f i (map g l) = map g (alter f i l).
Proof.
  intros Hfg. induction l as [|x l IH]; intros [|i]; simpl; try done.
  - by rewrite Hfg.
  - f_equal. apply IH.
Qed.

Lemma alter_last_map_commute (f g : Node -> Node) c :
  (forall x, f (g x) = g (f x)) ->
  alter_last f (with_store (with_nodes (map g (nodes (store c))) (store c)) c) =
  with_store (with_nodes (map g (nodes (store (alter_last f c))))
                (store (alter_last f c))) (alter_last f c).
Proof.
  intros Hfg. unfold alter_last. cbn [store with_store nodes with_nodes].
  rewrite length_map.
  destruct (length (nodes (store c))) as [|k]; [done|].
  cbn [store with_store nodes with_nodes data result trace onFailFunc onSuccessFunc].
  by rewrite alter_map_commute.
Qed.

Lemma alter_last_last f c n :
  last (nodes (store c)) = Some n ->
  last (nodes (store (alter_last f c))) = Some (f n).
Proof.
  unfold alter_last. rewrite !last_lookup. intros Hn.
  destruct (length (nodes (store c))) as [|k] eqn:Hlen.
  - destruct (nodes (store c)); done.
  - cbn [store with_store nodes with_nodes]. rewrite length_alter, Hlen.
    simpl in *. rewrite list_lookup_alter_eq. by rewrite Hn.
Qed.

(** X12. A logger given to the last node with [SetBeginLogger] wins over
    the one of [SetGlobalBeginLogger] whichever of the two is called first:
    both orders build the same flow, and in it the last node is what it was
    with the logger of [SetBeginLogger]; the same for [SetEndLogger] and
    [SetGlobalEndLogger]. *)
Theorem node_logger_wins_over_global_logger (c : FlowEngine) :
  (forall l g,
     Flow.SetBeginLogger (Some l) (Flow.SetGlobalBeginLogger g c) =
     Flow.SetGlobalBeginLogger g (Flow.SetBeginLogger (Some l) c) /\
     forall n, last (nodes (store c)) = Some n ->
       last (nodes (store (Flow.SetGlobalBeginLogger g
                             (Flow.SetBeginLogger (Some l) c)))) =
       Some (SetBeginLogger (Some l) n)) /\
  (forall l g,
     Flow.SetEndLogger (Some l) (Flow.SetGlobalEndLogger g c) =
     Flow.SetGlobalEndLogger g (Flow.SetEndLogger (Some l) c) /\
     forall n, last (nodes (store c)) = Some n ->
       last (nodes (store (Flow.SetGlobalEndLogger g
                             (Flow.SetEndLogger (Some l) c)))) =
       Some (SetEndLogger (Some l) n)).
Proof.
  split; intros l g.
  - assert (Flow.SetBeginLogger (Some l) (Flow.SetGlobalBeginLogger g c) =
            Flow.SetGlobalBeginLogger g (Flow.SetBeginLogger (Some l) c)) as Heq.
    { unfold Flow.SetBeginLogger, Flow.SetGlobalBeginLogger.
      apply alter_last_map_commute. intros x. by destruct (BeginLogger (base x)). }
    split; [done|]. intros n Hn. rewrite <- Heq.
    unfold Flow.SetBeginLogger.
    rewrite (alter_last_last _ _ (match BeginLogger (base n) with
                                  | None => SetBeginLogger g n
                                  | Some _ => n
                                  end)).
    + by destruct (BeginLogger (base n)).
    + unfold Flow.SetGlobalBeginLogger. cbn [store with_store nodes with_nodes].
      rewrite last_lookup, length_map, list_lookup_fmap, <- last_lookup, Hn.
      done.
  - assert (Flow.SetEndLogger (Some l) (Flow.SetGlobalEndLogger g c) =
            Flow.SetGlobalEndLogger g (Flow.SetEndLogger (Some l) c)) as Heq.
    { unfold Flow.SetEndLogger, Flow.SetGlobalEndLogger.
      apply alter_last_map_commute. intros x. by destruct (EndLogger (base x)). }
    split; [done|]. intros n Hn. rewrite <- Heq.
    unfold Flow.SetEndLogger.
    rewrite (alter_last_last _ _ (match EndLogger (base n) with
                                  | None => SetEndLogger g n
                                  | Some _ => n
                                  end)).
    + by destruct (EndLogger (base n)).
    + unfold Flow.SetGlobalEndLogger. cbn [store with_store nodes with_nodes].
      rewrite last_lookup, length_map, list_lookup_fmap, <- last_lookup, Hn.
      done.
Qed.


(** ** No [ElseIf] or [Else] node runs behind a conditional that has run *)

Lemma else_run_in_chain ns : forall d i k,
  well_linked ns -> else_run ns i k -> (k = d + S i)%nat ->
  in_chain ns (Some (S i)) k.
Proof.
  induction d as [|d IH]; intros i k Hl [Hik Hrun] Hk.
  - simpl in Hk. subst k. destruct (Hrun (S i)) as (m & Hm & Ht); [lia|].
    by apply (in_chain_here _ (S i) m).
  - destruct (Hrun (S i)) as (m & Hm & Ht); [lia|].
    destruct (Hrun k) as (mk & Hmk & _); [lia|].
    apply lookup_lt_Some in Hmk.
    apply (in_chain_next _ (S i) m); [done..|].
    rewrite (Hl (S i) m Hm).
    destruct (decide (S (S i) < length ns)%nat) as [_|Hge]; [|lia].
    apply IH; [done | | lia].
    split; [lia|]. intros j Hj. apply Hrun. lia.
Qed.

Lemma conditional_gates_chain sched node n c st st' :
  nodes st !! node = Some n ->
  impl n = IfNode c \/ impl n = ElseIfNode c ->
  gated n st = false ->
  Run sched node st = (st', Done) ->
  forall k, in_chain (nodes st) (Next (base n)) k ->
    failing (result st') = true \/ skipped (nodes st') k.
Proof.
  intros Hn Himpl Hg. unfold Run. rewrite Hn, Hg.
  assert (ImplTask sched node n (call_BeginLogger n st) =
          IfNode_ImplTask node c n (call_BeginLogger n st)) as ->.
  { unfold ImplTask. by destruct Himpl as [-> | ->]. }
  unfold IfNode_ImplTask.
  destruct c as [c|].
  2:{ intros H k _. inversion H; subst st'. left.
      by rewrite call_EndLogger_result. }
  destruct (c _) as [d b].
  set (st1 := with_data d (EvCond node b) (call_BeginLogger n st)).
  destruct (if b then _ else _) as [st2 e] eqn:Hb.
  assert (nodes st2 = nodes st /\
          match e with LoopReturn r => failing r = true | _ => True end)
    as [Hns He].
  { destruct b.
    - apply range_functors_frame in Hb as (_ & Hns & He).
      split; [|done]. rewrite Hns. apply call_BeginLogger_nodes.
    - inversion Hb; subst. split; [|done]. apply call_BeginLogger_nodes. }
  destruct e as [|r|].
  - destruct (mark_skip _ _ _) as [ns|] eqn:Hm; [|done].
    intros H k Hk; inversion H; subst st'. right.
    rewrite call_EndLogger_nodes. simpl.
    apply (mark_skip_marks _ _ _ _ _ Hm). by rewrite Hns.
  - intros H k _; inversion H; subst st'. left.
    by rewrite call_EndLogger_result.
  - done.
Qed.

Lemma run_nodes_all_gated scheds st : forall l,
  (forall j, In j l -> failing (result st) = true \/ skipped (nodes st) j) ->
  run_nodes scheds l st = (st, Done).
Proof.
  induction l as [|j l IH]; intros H; simpl; [done|].
  rewrite Run_skipped by (apply H; by left).
  apply IH. intros j' Hj'. apply H. by right.
Qed.

(** X13. In a store linked as the builders link it, once an [If] or
    [ElseIf] node has run (it was not gated, and its [Run] returned), none of
    the [ElseIf] and [Else] nodes that follow it in a row does anything,
    whatever the condition was, true, false or missing: running them leaves
    the whole store as it is, so none of their conditions is evaluated and
    none of their closures or hooks is called. *)
Theorem siblings_of_a_run_conditional_do_nothing sched scheds i n c k st :
  well_linked (nodes st) ->
  nodes st !! i = Some n ->
  impl n = IfNode c \/ impl n = ElseIfNode c ->
  gated n st = false ->
  else_run (nodes st) i k ->
  snd (Run sched i st) = Done ->
  let st' := fst (Run sched i st) in
  run_nodes scheds (seq (S i) (k - i)) st' = (st', Done).
Proof.
  intros Hl Hn Himpl Hg Hrun Hdone st'.
  assert (Run sched i st = (st', Done)) as HRun.
  { subst st'. destruct (Run sched i st) as [st1 s]. simpl in *. by subst s. }
  pose proof Hrun as [Hik Helse].
  destruct (Helse k) as (mk & Hmk & _); [lia|]. apply lookup_lt_Some in Hmk.
  assert (Next (base n) = Some (S i)) as Hnext.
  { rewrite (Hl i n Hn). destruct (decide _); [done | lia]. }
  apply run_nodes_all_gated. intros j Hj. apply in_seq in Hj.
  apply (conditional_gates_chain sched i n c st st' Hn Himpl Hg HRun).
  rewrite Hnext.
  apply (else_run_in_chain (nodes st) (j - S i) i j Hl); [|lia].
  split; [lia|]. intros j' Hj'. apply Helse. lia.
Qed.

(** The first [If] of [two_chains] has a false condition; the [ElseIf] with
    a true condition and the [Else] behind it do nothing. *)
Lemma siblings_of_a_run_conditional_do_nothing_witness :
  let st := store (two_chains Func1 Func2 Func3 Func4 Func1 Func2) in
  run_nodes (fun _ => []) (seq 1 (2 - 0)) (fst (Run [] 0 st)) =
    (fst (Run [] 0 st), Done).
Proof.
  intros st.
  apply (siblings_of_a_run_conditional_do_nothing [] (fun _ => []) 0
           (SetNext (Some 1%nat) (NewIfNode (Some CondFalse) [Func1]))
           (Some CondFalse) 2 st).
  - intros [|[|[|[|[|[|j]]]]]] m Hj; simpl in Hj; try discriminate Hj;
      injection Hj as <-; reflexivity.
  - reflexivity.
  - by left.
  - reflexivity.
  - split; [lia|]. intros [|[|[|j]]] Hj; try lia; eexists; split; reflexivity.
  - reflexivity.
Defined.


(** ** The nodes run one after the other *)

Lemma sorted_app (l1 l2 : list nat) :
  StronglySorted le l1 -> StronglySorted le l2 ->
  (forall x y, In x l1 -> In y l2 -> (x <= y)%nat) ->
  StronglySorted le (l1 ++ l2).
Proof.
  induction l1 as [|x l1 IH]; intros H1 H2 H; simpl; [done|].
  inversion H1 as [|? ? Hs Hx]; subst. constructor.
  - apply IH; [done..|]. intros a b Ha Hb. apply H; [by right | done].
  - apply Forall_app. split; [done|].
    apply List.Forall_forall. intros y Hy. apply H; [by left | done].
Qed.

Lemma sorted_same (j : nat) (l : list nat) :
  Forall (eq j) l -> StronglySorted le l.
Proof.
  induction 1 as [|x l <- Hl IH]; constructor; [done|].
  eapply Forall_impl; [exact Hl|]. intros y <-. simpl. lia.
Qed.

Lemma own_events_node node events :
  Forall (own_event node) events -> Forall (eq node) (omap node_of events).
Proof.
  induction 1 as [|e events He _ IH]; simpl; [constructor|].
  destruct e; simpl in *; try done; by constructor.
Qed.

Lemma run_nodes_in_order scheds : forall l st,
  StronglySorted lt l ->
  exists events,
    trace (fst (run_nodes scheds l st)) = trace st ++ events /\
    Forall (fun j => In j l) (omap node_of events) /\
    in_node_order events.
Proof.
  unfold in_node_order.
  induction l as [|node l IH]; intros st Hl; simpl.
  - exists []. split_and!; [by rewrite app_nil_r | constructor | constructor].
  - inversion Hl as [|? ? Hl' Hnode]; subst.
    destruct (Run_extends (scheds node) node st) as (ev1 & H1 & F1).
    apply own_events_node in F1.
    assert (Forall (fun j => node = j \/ In j l) (omap node_of ev1)) as F1'.
    { eapply Forall_impl; [exact F1|]. intros j <-. by left. }
    destruct (Run (scheds node) node st) as [st1 [| |]]; simpl in *;
      try (exists ev1; split_and!; [done | done | by apply (sorted_same node)]).
    destruct (IH st1 Hl') as (ev2 & H2 & F2 & S2).
    exists (ev1 ++ ev2). rewrite omap_app. split_and!.
    + by rewrite H2, H1, app_assoc.
    + apply Forall_app. split; [done|].
      eapply Forall_impl; [exact F2|]. intros j Hj. by right.
    + apply sorted_app; [by apply (sorted_same node) | done|].
      intros x y Hx Hy.
      rewrite List.Forall_forall in F1, F2, Hnode.
      rewrite <- (F1 x Hx). specialize (Hnode y (F2 y Hy)). lia.
Qed.

Lemma seq_sorted : forall n a, StronglySorted lt (seq a n).
Proof.
  induction n as [|n IH]; intros a; simpl; constructor; [apply IH|].
  apply List.Forall_forall. intros x Hx. apply in_seq in Hx. lia.
Qed.

Lemma finish_Wait_in_order scheds c onS onF :
  exists events,
    trace (store (fst (finish_Wait scheds c onS onF))) = trace (store c) ++ events /\
    in_node_order events.
Proof.
  unfold finish_Wait.
  destruct (run_nodes_in_order scheds (seq 0 (length (nodes (store c)))) (store c))
    as (events & Ht & _ & Hs); [apply seq_sorted|].
  destruct (run_nodes _ _ _) as [st [| |]]; simpl in *; try (by exists events).
  destruct (run_callbacks_spec onS onF st) as [_ Hcb].
  exists (events ++ callback_for onS onF (result st)). split.
  - by rewrite Hcb, Ht, app_assoc.
  - unfold in_node_order in *. rewrite omap_app.
    assert (omap node_of (callback_for onS onF (result st)) = []) as ->.
    { unfold callback_for. by destruct (failing _), onS, onF. }
    by rewrite app_nil_r.
Qed.

(** X14. [Wait] runs the nodes one after the other, in the order of the
    slice: in what it adds to the trace no call of a closure or condition of
    a node comes after a call of a later node, whatever the nodes are and
    however the goroutines of the [ParallelNode]s are scheduled, and also
    when the run ends in a panic.  The same holds for the [Wait] of the
    conditional sub-builder. *)
Theorem Wait_runs_the_nodes_in_order scheds c e :
  (exists events,
     trace (store (fst (Flow.Wait scheds c))) = trace (store c) ++ events /\
     in_node_order events) /\
  (exists events,
     trace (store (fst (ElseFlow.Wait scheds e))) =
       trace (store (invoker e)) ++ events /\
     in_node_order events).
Proof.
  split; apply finish_Wait_in_order.
Qed.
